(** * Chunked, resumable translation pipeline (translateMd.js)

    A shallow embedding of the chunk splitter, the image-path rewriter,
    the per-language task, the batch scheduler and the translation
    client of [translateMd.js], together with the properties stated for
    them. *)

From stdpp Require Import base numbers list option strings gmap.

Local Open Scope Z_scope.

(** * JavaScript strings

    A JavaScript string is a finite sequence of UTF-16 code units.  A code
    unit is modelled by its numeric value. *)

Definition char := N.
Definition jsstring := list char.

(** Code units of an ASCII literal. *)
Definition js (s : string) : jsstring :=
  (fun a => N.of_nat (Ascii.nat_of_ascii a)) <$> String.list_ascii_of_string s.

Definition LF : char := 10%N.      (* line feed *)
Definition SPACE : char := 32%N.   (* space *)
Definition DQUOTE : char := 34%N.  (* double quote *)
Definition DOT : char := 46%N.     (* full stop *)
Definition SLASH : char := 47%N.   (* slash *)
Definition LT : char := 60%N.      (* less-than sign *)
Definition GT : char := 62%N.      (* greater-than sign *)

(** [text.length]. *)
Definition len (s : jsstring) : Z := Z.of_nat (length s).

(** [s.substring(indexStart, indexEnd)]: both arguments are clamped to
    [0, s.length] and swapped when they are out of order. *)
Definition substring (s : jsstring) (indexStart indexEnd : Z) : jsstring :=
  let a := Z.min (Z.max indexStart 0) (len s) in
  let b := Z.min (Z.max indexEnd 0) (len s) in
  let from := Z.min a b in
  let to := Z.max a b in
  take (Z.to_nat (to - from)) (drop (Z.to_nat from) s).

(** [s.substring(indexStart)]: the end defaults to [s.length]. *)
Definition substring_from (s : jsstring) (indexStart : Z) : jsstring :=
  substring s indexStart (len s).

(** [pat] occurs in [text] at index [k]: the substring of [text] from [k]
    to [k + pat.length] is [pat]. *)
Definition occurs_at (pat text : jsstring) (k : nat) : bool :=
  bool_decide ((k + length pat <= length text)%nat /\
               take (length pat) (drop k text) = pat).

(** Candidates [k, k-1, ..., 0] in descending order. *)
Fixpoint lastIndexOf_from (pat text : jsstring) (k : nat) : Z :=
  if occurs_at pat text k then Z.of_nat k
  else match k with
       | O => -1
       | S k' => lastIndexOf_from pat text k'
       end.

(** [text.lastIndexOf(pat, position)]: the greatest index not above
    [position] (clamped to [0, len - searchLen]) at which [pat] occurs,
    or [-1]. *)
Definition lastIndexOf (pat text : jsstring) (position : Z) : Z :=
  let searchLen := len pat in
  if len text <? searchLen then -1
  else
    let start := Z.min (Z.max position 0) (len text - searchLen) in
    lastIndexOf_from pat text (Z.to_nat start).

(** [s.startsWith(p)]. *)
Definition startsWith (p s : jsstring) : bool :=
  bool_decide (take (length p) s = p).

(** * ChunkSplitter: [splitTextIntoChunks] *)

Definition PARAGRAPH_BREAK : jsstring := [LF; LF].    (* two line feeds *)
Definition SENTENCE_BREAK : jsstring := [DOT; SPACE]. (* full stop, space *)
Definition LINE_BREAK : jsstring := [LF].             (* one line feed *)

(** The split position chosen by one iteration that does not end the
    input (the nested [if] of the loop body). *)
Definition split_position (text : jsstring) (startIndex endIndex : Z) : Z :=
  let splitPos := lastIndexOf PARAGRAPH_BREAK text endIndex in
  if splitPos <=? startIndex then
    let splitPos := lastIndexOf SENTENCE_BREAK text endIndex in
    if splitPos <=? startIndex then
      let splitPos := lastIndexOf LINE_BREAK text endIndex in
      if splitPos <=? startIndex then endIndex
      else splitPos + 1
    else splitPos + 2
  else splitPos + 2.

(** The [while] loop.  One unit of fuel is spent by every iteration that
    goes round again; [None] means the fuel ran out. *)
Fixpoint split_loop (fuel : nat) (text : jsstring) (maxSize startIndex : Z)
    (chunks : list jsstring) : option (list jsstring) :=
  if startIndex <? len text then
    let endIndex := startIndex + maxSize in
    if len text <=? endIndex then
      Some (chunks ++ [substring_from text startIndex])
    else
      match fuel with
      | O => None
      | S fuel' =>
          let splitPos := split_position text startIndex endIndex in
          split_loop fuel' text maxSize splitPos
            (chunks ++ [substring text startIndex splitPos])
      end
  else Some chunks.

Definition splitTextIntoChunks (text : jsstring) (maxSize : Z)
  : option (list jsstring) :=
  split_loop (length text) text maxSize 0 [].

(** The cursor after one iteration started at [startIndex] (the value
    assigned to [startIndex] at the end of the loop body), for an
    iteration that does not end the input. *)
Definition next_cursor (text : jsstring) (maxSize startIndex : Z) : Z :=
  split_position text startIndex (startIndex + maxSize).

(** [k] is the greatest index not above [position] at which [pat] occurs. *)
Definition last_occurrence (pat text : jsstring) (position k : Z) : Prop :=
  0 <= k <= position /\ occurs_at pat text (Z.to_nat k) = true /\
  forall j, k < j <= position -> occurs_at pat text (Z.to_nat j) = false.

(** [pat] does not occur at any index of [0 .. position]. *)
Definition no_occurrence (pat text : jsstring) (position : Z) : Prop :=
  forall j, 0 <= j <= position -> occurs_at pat text (Z.to_nat j) = false.

(** [pat] does not occur at any index of [lo+1 .. hi]. *)
Definition no_boundary_between (pat text : jsstring) (lo hi : Z) : Prop :=
  forall j, lo < j <= hi -> occurs_at pat text (Z.to_nat j) = false.

(** The boundary search of one iteration, case by case. *)
Inductive split_choice (text : jsstring) (startIndex endIndex : Z)
  : Z -> Prop :=
  | choose_paragraph p :
      startIndex < p ->
      last_occurrence PARAGRAPH_BREAK text endIndex p ->
      split_choice text startIndex endIndex (p + 2)
  | choose_sentence p :
      no_boundary_between PARAGRAPH_BREAK text startIndex endIndex ->
      startIndex < p ->
      last_occurrence SENTENCE_BREAK text endIndex p ->
      split_choice text startIndex endIndex (p + 2)
  | choose_line p :
      no_boundary_between PARAGRAPH_BREAK text startIndex endIndex ->
      no_boundary_between SENTENCE_BREAK text startIndex endIndex ->
      startIndex < p ->
      last_occurrence LINE_BREAK text endIndex p ->
      split_choice text startIndex endIndex (p + 1)
  | choose_hard_cut :
      no_boundary_between PARAGRAPH_BREAK text startIndex endIndex ->
      no_boundary_between SENTENCE_BREAK text startIndex endIndex ->
      no_boundary_between LINE_BREAK text startIndex endIndex ->
      split_choice text startIndex endIndex endIndex.

(** * AssetPathRewriter: [adjustHtmlImagePaths]

    The regular expression is [/<img([^>]+)src=Q([^Q]+)Q/gi], writing Q
    for the double quote: a literal, a greedy non-empty run of code units
    other than the greater-than sign (first capture), a literal, a greedy
    non-empty run of code units other than Q (second capture), and Q.
    The flags are [g] and [i]; the flag [u] is absent. *)

(** [Canonicalize] of a case-insensitive, non-unicode pattern, as far as
    the pattern needs it: every character of the pattern is ASCII, and a
    code unit that is not ASCII never canonicalizes to an ASCII one, so
    only the ASCII letters have to be folded (to upper case). *)
Definition canonicalize (c : char) : char :=
  if ((97 <=? c) && (c <=? 122))%N then (c - 32)%N else c.

Definition ci_eqb (c p : char) : bool :=
  bool_decide (canonicalize c = canonicalize p).

(** A literal of the pattern at the start of [s]: what follows it. *)
Fixpoint lit_ci (p s : jsstring) : option jsstring :=
  match p, s with
  | [], _ => Some s
  | a :: p', c :: s' => if ci_eqb c a then lit_ci p' s' else None
  | _ :: _, [] => None
  end.

(** A greedy [[^c]+] that has consumed [acc] already: first try to take
    one more code unit, and fall back to the continuation [k] with what
    was consumed when the longer attempts fail. *)
Fixpoint more_not {R : Type} (c : char) (acc s : jsstring)
    (k : jsstring -> jsstring -> option R) : option R :=
  match s with
  | x :: s' =>
      if ci_eqb x c then k acc s
      else match more_not c (acc ++ [x]) s' k with
           | Some r => Some r
           | None => k acc s
           end
  | [] => k acc []
  end.

(** [[^c]+] followed by [k]: at least one code unit. *)
Definition plus_not {R : Type} (c : char) (s : jsstring)
    (k : jsstring -> jsstring -> option R) : option R :=
  match s with
  | x :: s' => if ci_eqb x c then None else more_not c [x] s' k
  | [] => None
  end.

Definition IMG_OPEN : jsstring := Eval cbv in js "<img".
Definition SRC_ATTR : jsstring := Eval cbv in js "src=" ++ [DQUOTE].

(** The closing quote after the second capture. *)
Definition match_close (attributes src s4 : jsstring)
  : option (jsstring * jsstring * jsstring) :=
  s5 ← lit_ci [DQUOTE] s4;
  Some (attributes, src, s5).

(** The attribute name with its opening quote, the second capture and
    the closing quote, after the first capture [attributes]. *)
Definition match_src (attributes s2 : jsstring)
  : option (jsstring * jsstring * jsstring) :=
  s3 ← lit_ci SRC_ATTR s2;
  plus_not DQUOTE s3 (match_close attributes).

(** The pattern anchored at the start of [s]: the two captures
    ([attributes], [src]) and the text after the match. *)
Definition match_img (s : jsstring)
  : option (jsstring * jsstring * jsstring) :=
  s1 ← lit_ci IMG_OPEN s;
  plus_not GT s1 match_src.

Definition HTTP : jsstring := Eval cbv in js "http://".
Definition HTTPS : jsstring := Eval cbv in js "https://".
Definition DATA : jsstring := Eval cbv in js "data:".
Definition EN_DIR : jsstring := Eval cbv in js "../en".
Definition EN_PREFIX : jsstring := Eval cbv in js "../en/".

(** The condition under which the callback returns the match as it is. *)
Definition keeps_src (src : jsstring) : bool :=
  startsWith HTTP src || startsWith HTTPS src || startsWith DATA src
  || startsWith EN_PREFIX src.

(** The replacement callback [(match, attributes, src) => ...]. *)
Definition replacer (matched attributes src : jsstring) : jsstring :=
  if keeps_src src then matched
  else
    let newSrc := if startsWith [SLASH] src then EN_DIR ++ src
                  else EN_PREFIX ++ src in
    IMG_OPEN ++ attributes ++ SRC_ATTR ++ newSrc ++ [DQUOTE].

(** [String.prototype.replace] with the global pattern.  The scan goes
    through the positions from left to right; [skip] counts the code
    units of the last match that are still to be passed over, so the
    search resumes at the end of a match.  A position where the pattern
    does not match is copied and the search moves on by one. *)
Fixpoint replace_img (s : jsstring) (skip : nat) : jsstring :=
  match s with
  | [] => []
  | c :: s' =>
      match skip with
      | S n => replace_img s' n
      | O =>
          match match_img s with
          | Some (attributes, src, rest) =>
              let matched := take (length s - length rest) s in
              replacer matched attributes src
                ++ replace_img s' (length matched - 1)
          | None => c :: replace_img s' 0
          end
      end
  end.

Definition adjustHtmlImagePaths (htmlContent : jsstring) : jsstring :=
  replace_img htmlContent 0.

(** * Asynchronous code

    An [async] function is a tree of suspension points: it returns,
    throws, or awaits an operation of the environment and continues with
    the way the operation settled.  The operations are the file-system
    calls of the task and the call of [translateText], the boundary to the
    translation service. *)

Inductive file_type := markdown | html.

#[global] Instance file_type_eq_dec : EqDecision file_type.
Proof. solve_decision. Defined.

(** The message of a thrown [Error]. *)
Definition error := jsstring.

(** How a promise settled. *)
Inductive result :=
  | Fulfilled (value : jsstring)
  | Rejected (reason : error).

(** An output file: the directory of its language under the output root,
    and the base name of the source file. *)
Definition path := (jsstring * jsstring)%type.

Inductive op :=
  | Mkdir (targetDir : jsstring)
  | Access (outputFilePath : path)
  | CopyFile (sourceFile : jsstring) (outputFilePath : path)
  | TranslateText (text targetLang instructions : jsstring)
      (fileType : file_type)
  | WriteFile (outputFilePath : path) (data : jsstring).

Inductive prog (A : Type) :=
  | Ret (a : A)
  | Throw (e : error)
  | Await (o : op) (k : result -> prog A).
Arguments Ret {A} a.
Arguments Throw {A} e.
Arguments Await {A} o k.

Fixpoint bind {A B : Type} (p : prog A) (f : A -> prog B) : prog B :=
  match p with
  | Ret a => f a
  | Throw e => Throw e
  | Await o k => Await o (fun r => bind (k r) f)
  end.

(** [await o]: the value of a fulfilled promise; a rejection is thrown. *)
Definition await (o : op) : prog jsstring :=
  Await o (fun r => match r with
                    | Fulfilled v => Ret v
                    | Rejected e => Throw e
                    end).

(** [try { p } catch (e) { h e }]. *)
Fixpoint try_catch {A : Type} (p : prog A) (h : error -> prog A) : prog A :=
  match p with
  | Ret a => Ret a
  | Throw e => h e
  | Await o k => Await o (fun r => try_catch (k r) h)
  end.

Notation "'do' x <- p ; q" := (bind p (fun x => q))
  (at level 10, x name, p at level 100, q at level 200,
   format "'[v' 'do'  x  <-  p ; '/' q ']'").

(** * TranslationOrchestrator: one language task *)

Definition LARGE_FILE_THRESHOLD : Z := 10000.
Definition CHUNK_SIZE : Z := 10000.
Definition CONCURRENCY_LIMIT : nat := 10.

Definition DONT_TRANSLATE : jsstring := Eval cbv in js "don't translate".
Definition EN : jsstring := Eval cbv in js "en".

(** [array.join(sep)]. *)
Fixpoint join (sep : jsstring) (parts : list jsstring) : jsstring :=
  match parts with
  | [] => []
  | [a] => a
  | a :: rest => a ++ sep ++ join sep rest
  end.

(** The chunks of a large file.  The loop returns for the positive
    [CHUNK_SIZE] (lemma [chunks_of_spec]), so the default is never used. *)
Definition chunks_of (sourceText : jsstring) : list jsstring :=
  default [] (splitTextIntoChunks sourceText CHUNK_SIZE).

(** The path a task ended on.  The function itself returns [undefined]
    on every path; each path logs its own message, which is what the
    constructors stand for: the target file already exists, the
    instruction says not to translate, the source was copied, the
    translation was saved, or the [catch] logged a failure. *)
Inductive outcome :=
  | SkippedExists
  | SkippedNoTranslate
  | Copied
  | Done
  | Failed (e : error).

(** The sequential [for] loop over the chunks of a large file. *)
Fixpoint translate_chunks (chunks : list jsstring)
    (langCode instructions : jsstring) (fileType : file_type)
    (translatedChunks : list jsstring) : prog (list jsstring) :=
  match chunks with
  | [] => Ret translatedChunks
  | chunk :: rest =>
      do translatedChunk <-
        await (TranslateText chunk langCode instructions fileType);
      translate_chunks rest langCode instructions fileType
        (translatedChunks ++ [translatedChunk])
  end.

Section Task.

(** [String.prototype.toLowerCase], a built-in of the language. *)
Variable toLowerCase : jsstring -> jsstring.

(** The [async] arrow function [task] built for one file and one entry
    [[langCode, instructions]] of the translation formats. *)
Definition task (baseName sourceText : jsstring) (fileType : file_type)
    (langCode instructions : jsstring) : prog outcome :=
  let targetDir := langCode in
  let outputFilePath : path := (langCode, baseName) in
  let isLargeFile := LARGE_FILE_THRESHOLD <? len sourceText in
  try_catch (A := outcome)
    (do _ <- await (Mkdir targetDir);
     do found <- try_catch (do _ <- await (Access outputFilePath); Ret true)
                           (fun _ => Ret false);
     if found then Ret SkippedExists
     else if bool_decide (toLowerCase instructions = DONT_TRANSLATE)
     then Ret SkippedNoTranslate
     else if bool_decide (langCode = EN) then
       do _ <- await (CopyFile baseName outputFilePath);
       Ret Copied
     else
       do finalTranslation <-
         (if isLargeFile then
            do translatedChunks <-
              translate_chunks (chunks_of sourceText) langCode instructions
                fileType [];
            Ret (join [LF; LF] translatedChunks)
          else
            await (TranslateText sourceText langCode instructions fileType));
       let finalTranslation :=
         if bool_decide (fileType = html)
            && negb (bool_decide (langCode = EN))
         then adjustHtmlImagePaths finalTranslation
         else finalTranslation in
       do _ <- await (WriteFile outputFilePath finalTranslation);
       Ret Done)
    (fun e => Ret (Failed e)).

End Task.

(** ASCII lower-casing, which is what [toLowerCase] does on ASCII text. *)
Definition ascii_toLowerCase (s : jsstring) : jsstring :=
  (fun c : char => if ((65 <=? c) && (c <=? 90))%N then (c + 32)%N else c)
    <$> s.

(** * The environment *)

(** The source directory (readable files and their contents), the
    language directories that exist under the output root, and the output
    files with their contents. *)
Record world := World {
  sources : gmap jsstring jsstring;
  dirs : gset jsstring;
  files : gmap path jsstring
}.

(** What the environment decides at one step: which suspended task goes
    on, how its operation settles where the file system or the service is
    free to decide, and what a failed write leaves behind. *)
Record choice := Choice {
  pick : nat;
  answer : result;
  partial : option jsstring
}.

Definition ENOENT : error := Eval cbv in js "ENOENT".

Definition set_file (w : world) (p : path) (data : jsstring) : world :=
  World (sources w) (dirs w) (<[p := data]> (files w)).

(** Writing a file: impossible without its directory; otherwise it
    succeeds or fails, and a failed write may leave a partial file. *)
Definition write_file (c : choice) (w : world) (p : path) (data : jsstring)
  : world * result :=
  if bool_decide (p.1 ∈ dirs w) then
    match answer c with
    | Fulfilled _ => (set_file w p data, Fulfilled [])
    | Rejected e =>
        (match partial c with
         | Some d => set_file w p d
         | None => w
         end, Rejected e)
    end
  else (w, Rejected ENOENT).

(** One operation against the world.  [fs.access] is fulfilled exactly
    when the file exists; a recursive [fs.mkdir] of an existing directory
    is fulfilled; the translation service answers as it likes. *)
Definition perform (c : choice) (w : world) (o : op) : world * result :=
  match o with
  | Mkdir d =>
      if bool_decide (d ∈ dirs w) then (w, Fulfilled [])
      else match answer c with
           | Fulfilled _ =>
               (World (sources w) ({[d]} ∪ dirs w) (files w), Fulfilled [])
           | Rejected e => (w, Rejected e)
           end
  | Access p =>
      match files w !! p with
      | Some _ => (w, Fulfilled [])
      | None => (w, Rejected ENOENT)
      end
  | CopyFile src dst =>
      match sources w !! src with
      | Some data => write_file c w dst data
      | None => (w, Rejected ENOENT)
      end
  | TranslateText _ _ _ _ => (w, answer c)
  | WriteFile p data => write_file c w p data
  end.

(** * ConcurrencyBatchScheduler and the loop over the files *)

Inductive event (T R : Type) :=
  | EStart (t : T)
  | EOp (t : T) (o : op) (r : result)
  | ESettle (t : T) (v : R + error).
Arguments EStart {T R} t.
Arguments EOp {T R} t o r.
Arguments ESettle {T R} t v.

(** The settled value of a promise whose function has run to its end. *)
Definition settled_result {R : Type} (p : prog R) : option (R + error) :=
  match p with
  | Ret a => Some (inl a)
  | Throw e => Some (inr e)
  | Await _ _ => None
  end.

Section Machine.

(** Identifiers of tasks, results of tasks, and files to process. *)
Context {T R D : Type}.

(** The concurrency limit. *)
Variable K : nat.

(** The task functions built for one file ([translationTasks]). *)
Variable job : world -> D -> list (T * prog R).

(** The state between two steps of the event loop: the files still to
    process, the task functions of the current file that have not been
    called, the promises of the current batch that are still pending
    (with the suspended function of each), the history, and the
    world. *)
Record machine := Machine {
  docs : list D;
  pending : list (T * prog R);
  batch : list (T * prog R);
  trace : list (event T R);
  env : world
}.

(** [task()]: the function runs up to its first suspension point. *)
Definition start_task (st : machine) (tp : T * prog R) : machine :=
  match settled_result tp.2 with
  | Some v =>
      Machine (docs st) (pending st) (batch st)
        (trace st ++ [EStart tp.1; ESettle tp.1 v]) (env st)
  | None =>
      Machine (docs st) (pending st) (batch st ++ [tp])
        (trace st ++ [EStart tp.1]) (env st)
  end.

(** [batch.map(task => task())]. *)
Definition launch (st : machine) (group : list (T * prog R)) : machine :=
  foldl start_task st group.

(** One pending promise of the batch goes on: its operation settles and
    its function runs up to the next suspension point or to its end. *)
Definition step_task (c : choice) (st : machine) : machine :=
  let i := (pick c mod length (batch st))%nat in
  match batch st !! i with
  | Some (t, Await o k) =>
      let '(w', r) := perform c (env st) o in
      match settled_result (k r) with
      | Some v =>
          Machine (docs st) (pending st) (delete i (batch st))
            (trace st ++ [EOp t o r; ESettle t v]) w'
      | None =>
          Machine (docs st) (pending st) (<[i := (t, k r)]> (batch st))
            (trace st ++ [EOp t o r]) w'
      end
  | _ => st
  end.

(** One step.  While a promise of the batch is pending,
    [Promise.allSettled] waits and a task goes on.  When all have
    settled, the next slice of at most [K] tasks is called; when there
    is none, the tasks of the next file are built. *)
Definition step (c : choice) (st : machine) : machine :=
  match batch st with
  | _ :: _ => step_task c st
  | [] =>
      match pending st with
      | _ :: _ =>
          launch (Machine (docs st) (drop K (pending st)) [] (trace st)
                    (env st))
                 (take K (pending st))
      | [] =>
          match docs st with
          | d :: ds =>
              Machine ds (job (env st) d) [] (trace st) (env st)
          | [] => st
          end
      end
  end.

Definition final (st : machine) : Prop :=
  docs st = [] /\ pending st = [] /\ batch st = [].

(** The state after the first [n] decisions of the environment. *)
Fixpoint run (cs : nat -> choice) (n : nat) (st : machine) : machine :=
  match n with
  | O => st
  | S n' => step (cs n') (run cs n' st)
  end.

End Machine.
Arguments machine : clear implicits.

(** * The main loop *)

(** A task is identified by its file and its language. *)
Definition task_id := (jsstring * jsstring)%type.

(** The body of the loop over the files up to the batches: the file is
    read, and one task is built per entry of the translation formats.  A
    file that cannot be read is skipped. *)
Definition translationTasks (toLowerCase : jsstring -> jsstring)
    (translationFormats : list (jsstring * jsstring))
    (w : world) (file : jsstring * file_type)
  : list (task_id * prog outcome) :=
  match sources w !! file.1 with
  | None => []
  | Some sourceText =>
      (fun entry : jsstring * jsstring =>
         ((file.1, entry.1),
          task toLowerCase file.1 sourceText file.2 entry.1 entry.2))
        <$> translationFormats
  end.

(** [main] from the loop over the processable files on. *)
Definition main_init (processableFiles : list (jsstring * file_type))
    (w : world) : machine task_id outcome (jsstring * file_type) :=
  Machine processableFiles [] [] [] w.

Definition main_step (toLowerCase : jsstring -> jsstring)
    (translationFormats : list (jsstring * jsstring)) (c : choice)
    (st : machine task_id outcome (jsstring * file_type))
  : machine task_id outcome (jsstring * file_type) :=
  step CONCURRENCY_LIMIT (translationTasks toLowerCase translationFormats)
    c st.

(** * Histories of one task *)

Definition is_translate (o : op) : bool :=
  match o with
  | TranslateText _ _ _ _ => true
  | _ => false
  end.

(** Operations that create or overwrite an output file. *)
Definition is_write (o : op) : bool :=
  match o with
  | WriteFile _ _ | CopyFile _ _ => true
  | _ => false
  end.

Definition is_rejected (r : result) : bool :=
  match r with
  | Rejected _ => true
  | Fulfilled _ => false
  end.

(** [o] is awaited somewhere in [p], for some answers of the
    environment. *)
Inductive issues {A : Type} : prog A -> op -> Prop :=
  | issues_now o k : issues (Await o k) o
  | issues_later o k r o' : issues (k r) o' -> issues (Await o k) o'.

(** [runs p tr q]: when the operations awaited by [p] settle as listed in
    [tr], what remains to run is [q]. *)
Inductive runs {A : Type} : prog A -> list (op * result) -> prog A -> Prop :=
  | runs_nil p : runs p [] p
  | runs_cons o k r tr q :
      runs (k r) tr q -> runs (Await o k) ((o, r) :: tr) q.

(** A complete execution: the function has returned or thrown. *)
Definition exec {A : Type} (p : prog A) (tr : list (op * result))
    (v : A + error) : Prop :=
  exists q, runs p tr q /\ settled_result q = Some v.

(** A call of the translation service that returned a translation. *)
Definition translated (e : op * result) : Prop :=
  is_translate e.1 = true /\ is_rejected e.2 = false.

(** Histories from the translation on, with what the task has settled
    to ([None] while it is suspended): translations received so far; a
    translation refused; all translations received and the file written;
    or the write refused. *)
Inductive work_history (l f : jsstring)
  : list (op * result) -> option (outcome + error) -> Prop :=
  | wh_translating ts :
      Forall translated ts -> work_history l f ts None
  | wh_translate_failed ts o e :
      Forall translated ts -> is_translate o = true ->
      work_history l f (ts ++ [(o, Rejected e)]) (Some (inl (Failed e)))
  | wh_written ts data v :
      Forall translated ts ->
      work_history l f (ts ++ [(WriteFile (l, f) data, Fulfilled v)])
        (Some (inl Done))
  | wh_write_failed ts data e :
      Forall translated ts ->
      work_history l f (ts ++ [(WriteFile (l, f) data, Rejected e)])
        (Some (inl (Failed e))).

(** The histories of a task for the language [l] and the file [f].
    [sentinel] tells whether the instruction is the sentinel.  After the
    directory was made and the target file was found missing, the task
    either copies the source (language [en]) or translates, chunk after
    chunk or at once, and then writes. *)
Inductive task_history (sentinel : bool) (l f : jsstring)
  : list (op * result) -> option (outcome + error) -> Prop :=
  | th_start :
      task_history sentinel l f [] None
  | th_mkdir_failed e :
      task_history sentinel l f
        [(Mkdir l, Rejected e)] (Some (inl (Failed e)))
  | th_mkdir v :
      task_history sentinel l f [(Mkdir l, Fulfilled v)] None
  | th_exists v v' :
      task_history sentinel l f
        [(Mkdir l, Fulfilled v); (Access (l, f), Fulfilled v')]
        (Some (inl SkippedExists))
  | th_sentinel v e :
      sentinel = true ->
      task_history sentinel l f
        [(Mkdir l, Fulfilled v); (Access (l, f), Rejected e)]
        (Some (inl SkippedNoTranslate))
  | th_copying v e :
      sentinel = false -> l = EN ->
      task_history sentinel l f
        [(Mkdir l, Fulfilled v); (Access (l, f), Rejected e)] None
  | th_copied v e v' :
      sentinel = false -> l = EN ->
      task_history sentinel l f
        [(Mkdir l, Fulfilled v); (Access (l, f), Rejected e);
         (CopyFile f (l, f), Fulfilled v')]
        (Some (inl Copied))
  | th_copy_failed v e e' :
      sentinel = false -> l = EN ->
      task_history sentinel l f
        [(Mkdir l, Fulfilled v); (Access (l, f), Rejected e);
         (CopyFile f (l, f), Rejected e')]
        (Some (inl (Failed e')))
  | th_work v e ws s :
      sentinel = false -> l <> EN -> work_history l f ws s ->
      task_history sentinel l f
        ((Mkdir l, Fulfilled v) :: (Access (l, f), Rejected e) :: ws) s.

(** The [catch] of a task around a part of its [try] block. *)
Definition guarded (p : prog outcome) : prog outcome :=
  try_catch p (fun e => Ret (Failed e)).

(** * Reading a history *)

Section Trace.

Context {T R : Type} `{EqDecision T}.

(** The tasks called, in the order of the calls. *)
Definition starts (tr : list (event T R)) : list T :=
  omap (fun ev => match ev with EStart t => Some t | _ => None end) tr.

(** The outcome report: the settled promises, in the order in which
    they settled. *)
Definition settles (tr : list (event T R)) : list (T * (R + error)) :=
  omap (fun ev => match ev with ESettle t v => Some (t, v) | _ => None end)
    tr.

(** The operations of the task [t] and how they settled. *)
Definition history (t : T) (tr : list (event T R)) : list (op * result) :=
  omap (fun ev => match ev with
                  | EOp t' o r => if decide (t' = t) then Some (o, r)
                                  else None
                  | _ => None
                  end) tr.

(** The number of tasks in flight at the end of [tr]: called and not
    settled. *)
Definition in_flight (tr : list (event T R)) : Z :=
  Z.of_nat (length (starts tr)) - Z.of_nat (length (settles tr)).

End Trace.

(** The tasks not called yet: those of the current file, then those of
    the files to come. *)
Definition todo {T R D : Type} (job : world -> D -> list (T * prog R))
    (st : machine T R D) : list (T * prog R) :=
  pending st ++ concat (job (env st) <$> docs st).

(** One step of a batch, seen from the list of its suspended tasks: one
    of them goes on and stays, or goes on and leaves. *)
Definition batch_step {T R : Type} (b' b : list (T * prog R)) : Prop :=
  exists i t o k r,
    b !! i = Some (t, Await o k) /\
    (b' = <[i := (t, k r)]> b \/ b' = delete i b).

(** The tasks of a single run of the scheduler, named by their
    positions. *)
Definition numbered {R : Type} (tasks : list (prog R))
  : list (nat * prog R) :=
  imap (fun i p => (i, p)) tasks.

(** The scheduler alone: the batches of one list of tasks. *)
Definition scheduler_init {R : Type} (tasks : list (prog R)) (w : world)
  : machine nat R Empty_set :=
  Machine [] (numbered tasks) [] [] w.

Definition no_job {R : Type} (w : world) (d : Empty_set)
  : list (nat * prog R) := [].

(** Every task of a batch is at a suspension point. *)
Definition suspended {T R : Type} (b : list (T * prog R)) : Prop :=
  Forall (fun tp => settled_result tp.2 = None) b.

(** * Invariants of the machine *)

Section Invariants.

Context {T R D : Type} `{EqDecision T}.

Variable K : nat.
Variable job : world -> D -> list (T * prog R).

(** All the tasks of the run, in the order in which they are built. *)
Variable tasks : list (T * prog R).

(** [started] are the tasks called so far and [slice] those of the
    slice being called that are still to be called.  Every task of the
    batch is suspended where its own history leads from its function;
    every other started task has settled to what a complete execution
    of its function along its own history gives, and is in the outcome
    report; every entry of the report is such a result. *)
Record linked (started slice : list (T * prog R)) (st : machine T R D)
  : Prop := Linked {
  linked_tasks : tasks = started ++ slice ++ todo job st;
  linked_starts : starts (trace st) = started.*1;
  linked_batch : forall t q, (t, q) ∈ batch st ->
      settled_result q = None /\
      exists p, (t, p) ∈ started /\ runs p (history t (trace st)) q;
  linked_settled : forall t p, (t, p) ∈ started -> t ∉ (batch st).*1 ->
      exists v, exec p (history t (trace st)) v /\
                (t, v) ∈ settles (trace st);
  linked_report : forall t v, (t, v) ∈ settles (trace st) ->
      (t ∉ (batch st).*1) /\
      exists p, (t, p) ∈ started /\ exec p (history t (trace st)) v;
  linked_ops : forall t o r, EOp t o r ∈ trace st -> t ∈ started.*1;
  linked_nodup : NoDup (batch st).*1
}.

(** The bound on the tasks in flight, at every moment of the history. *)
Record bounded (slice : list (T * prog R)) (st : machine T R D)
  : Prop := Bounded {
  bounded_prefix : forall tr, tr `prefix_of` trace st ->
                              in_flight tr <= Z.of_nat K;
  bounded_now : in_flight (trace st) = Z.of_nat (length (batch st));
  bounded_room : (length (batch st) + length slice <= K)%nat
}.

End Invariants.

(** The barrier between the groups of the scheduler, read off a history
    in which the tasks are named by their positions: when a task is
    called, every task of an earlier group ([t' / K < t / K]) has
    settled. *)
Definition barrier {R : Type} (K : nat) (tr : list (event nat R)) : Prop :=
  forall p t rest,
    tr = p ++ EStart t :: rest ->
    forall t', (t' / K < t / K)%nat -> t' ∈ (settles p).*1.

(** Between two steps of the scheduler: the tasks called are the first
    ones of the list, whole groups of them while tasks remain, and each
    is in the batch or in the outcome report. *)
Record grouped {R : Type} (K : nat) (tasks : list (prog R))
    (st : machine nat R Empty_set) : Prop := Grouped {
  grouped_barrier : barrier K (trace st);
  grouped_docs : docs st = [];
  grouped_pending :
    pending st = drop (length (starts (trace st))) (numbered tasks);
  grouped_aligned :
    pending st <> [] -> (length (starts (trace st)) mod K = 0)%nat;
  grouped_called : forall t', (t' < length (starts (trace st)))%nat ->
    t' ∈ (batch st).*1 \/ t' ∈ (settles (trace st)).*1
}.

(** The output file an operation tests or writes. *)
Definition target (o : op) : option path :=
  match o with
  | Access p | CopyFile _ p | WriteFile p _ => Some p
  | _ => None
  end.

(** What a history tells about the world, for a run started in [w0]:
    the source files do not change, directories and output files are
    never removed, the creation of a directory of [w0] and the test of a
    file of [w0] were fulfilled, and what a fulfilled operation created
    or found is there. *)
Record recorded {T R D : Type} (w0 : world) (st : machine T R D)
  : Prop := Recorded {
  rec_sources : sources (env st) = sources w0;
  rec_dirs : dirs w0 ⊆ dirs (env st);
  rec_files : forall p, is_Some (files w0 !! p) ->
                        is_Some (files (env st) !! p);
  ans_mkdir : forall t d r, EOp t (Mkdir d) r ∈ trace st ->
                            d ∈ dirs w0 -> is_rejected r = false;
  ans_access : forall t p r, EOp t (Access p) r ∈ trace st ->
                             is_Some (files w0 !! p) -> is_rejected r = false;
  eff_mkdir : forall t d r, EOp t (Mkdir d) r ∈ trace st ->
                            is_rejected r = false -> d ∈ dirs (env st);
  eff_file : forall t o r p, EOp t o r ∈ trace st ->
                             is_rejected r = false -> target o = Some p ->
                             is_Some (files (env st) !! p)
}.

(** Every output file lies in an existing directory. *)
Definition well_formed (w : world) : Prop :=
  forall p, is_Some (files w !! p) -> p.1 ∈ dirs w.

(** What one operation does to the world: [w'] and [r] are the world
    and the answer after [o] in [w]. *)
Definition perform_spec_of (w : world) (o : op) (w' : world) (r : result)
  : Prop :=
  sources w' = sources w /\ dirs w ⊆ dirs w' /\
  (forall q, is_Some (files w !! q) -> is_Some (files w' !! q)) /\
  (forall d, o = Mkdir d -> d ∈ dirs w -> is_rejected r = false) /\
  (forall p, o = Access p -> is_Some (files w !! p) ->
             is_rejected r = false) /\
  (forall d, o = Mkdir d -> is_rejected r = false -> d ∈ dirs w') /\
  (forall p, target o = Some p -> is_rejected r = false ->
             is_Some (files w' !! p)).

(** The state of [main] after [n] steps of the event loop. *)
Definition main_run (toLowerCase : jsstring -> jsstring)
    (translationFormats : list (jsstring * jsstring))
    (processableFiles : list (jsstring * file_type))
    (w : world) (cs : nat -> choice) (n : nat)
  : machine task_id outcome (jsstring * file_type) :=
  run CONCURRENCY_LIMIT (translationTasks toLowerCase translationFormats)
    cs n (main_init processableFiles w).

(** All the tasks of a run of [main]: one per readable file and entry of
    the translation formats. *)
Definition main_tasks (toLowerCase : jsstring -> jsstring)
    (translationFormats : list (jsstring * jsstring))
    (processableFiles : list (jsstring * file_type)) (w : world)
  : list (task_id * prog outcome) :=
  todo (translationTasks toLowerCase translationFormats)
    (main_init processableFiles w).

(** * Concrete inputs *)

(** A source directory with one small Markdown file. *)
Definition one_file_world : world :=
  World {[ js "a.md" := js "hello" ]} ∅ ∅.

Definition one_file : list (jsstring * file_type) := [(js "a.md", markdown)].

(** An environment in which the first task always goes on and every call
    succeeds. *)
Definition all_fulfilled (n : nat) : choice :=
  Choice 0 (Fulfilled (js "salut")) None.

(** The same, except that the call made at the fifth step fails: in a
    run with one file and one language this is the translation request. *)
Definition translation_refused (n : nat) : choice :=
  Choice 0 (if Nat.eqb n 4 then Rejected (js "503")
            else Fulfilled (js "salut")) None.

(** No entry of the outcome report is the result of the [catch] path. *)
Definition none_failed (report : list (task_id * (outcome + error)))
  : bool :=
  forallb (fun tv => match tv.2 with
                     | inl (Failed _) => false
                     | _ => true
                     end) report.

(** * Reading the pattern

    What the backtracking search of the pattern computes, in terms of the
    text alone. *)

(** The text up to its first double quote, and the text after it. *)
Fixpoint split_quote (s : jsstring) : option (jsstring * jsstring) :=
  match s with
  | [] => None
  | x :: s' =>
      if ci_eqb x DQUOTE then Some ([], s')
      else match split_quote s' with
           | Some (v, r) => Some (x :: v, r)
           | None => None
           end
  end.

(** The second capture and what follows the match, for a text that
    starts right after the opening quote of the attribute: a non-empty
    run without double quote, closed by a double quote. *)
Definition value_split (s : jsstring) : option (jsstring * jsstring) :=
  match s with
  | [] => None
  | x :: s' =>
      if ci_eqb x DQUOTE then None
      else match split_quote s' with
           | Some (v, r) => Some (x :: v, r)
           | None => None
           end
  end.

(** A candidate for the end of the first capture: the attribute starts
    here and has a value. *)
Definition cand_at (s : jsstring) : option (jsstring * jsstring) :=
  match lit_ci SRC_ATTR s with
  | Some s3 => value_split s3
  | None => None
  end.

(** Some candidate lies at or after the start of [s], with no
    greater-than sign before it. *)
Fixpoint has_cand (s : jsstring) : bool :=
  match s with
  | [] => false
  | x :: s' =>
      if ci_eqb x GT then false
      else has_cand s' || bool_decide (is_Some (cand_at s))
  end.

(** Code units that the two captures accept. *)
Definition no_quote (c : char) : Prop := ci_eqb c DQUOTE = false.
Definition no_gt (c : char) : Prop := ci_eqb c GT = false.

(** Two code units that the pattern does not tell apart. *)
Definition ci (c p : char) : Prop := canonicalize c = canonicalize p.

(** A code unit that is no double quote, no greater-than sign and no
    letter s: no part of the pattern can start or end on it. *)
Definition inert (c : char) : Prop :=
  ci_eqb c DQUOTE = false /\ ci_eqb c GT = false /\
  ci_eqb c 115%N = false.

(** [emb t y]: the text [y] is the text [t] in which letters may have
    changed case and in which inert code units may have been inserted
    right after a double quote that is followed in [t] by a code unit
    other than a double quote.  This is how the output of the rewriter
    relates to its input. *)
Inductive emb : jsstring -> jsstring -> Prop :=
  | emb_nil : emb [] []
  | emb_char c c' t y :
      ci c c' -> emb t y -> emb (c :: t) (c' :: y)
  | emb_insert w x t y :
      Forall inert w -> ci_eqb x DQUOTE = false ->
      emb (x :: t) y ->
      emb (DQUOTE :: x :: t) (DQUOTE :: w ++ y).

(** * Reading the references of a text *)

(** The source the callback puts in place of the captured one. *)
Definition rewritten_src (src : jsstring) : jsstring :=
  if keeps_src src then src
  else if startsWith [SLASH] src then EN_DIR ++ src
  else EN_PREFIX ++ src.

(** The second captures of the successive matches of the global pattern
    in [s], in the order of the scan of [replace_img]: what the callback
    receives as [src], call after call. *)
Fixpoint scan_sources (s : jsstring) (skip : nat) : list jsstring :=
  match s with
  | [] => []
  | c :: s' =>
      match skip with
      | S n => scan_sources s' n
      | O =>
          match match_img s with
          | Some (attributes, src, rest) =>
              let matched := take (length s - length rest) s in
              src :: scan_sources s' (length matched - 1)
          | None => scan_sources s' 0
          end
      end
  end.

Definition img_sources (htmlContent : jsstring) : list jsstring :=
  scan_sources htmlContent 0.

(** A text of 10001 letters a, one code unit above the threshold. *)
Definition long_text : jsstring := replicate (Z.to_nat 10001) 97%N.

(** * What a run changes *)

(** What the world owes to the history, for a run started in [w0]: an
    output file is as it was at the start unless a write or a copy to
    it is in the history, and a directory was there at the start unless
    its creation is in the history. *)
Definition explained {T R D : Type} (w0 : world) (st : machine T R D)
  : Prop :=
  (forall p, files (env st) !! p = files w0 !! p \/
             exists t o r, EOp t o r ∈ trace st /\ is_write o = true /\
                           target o = Some p) /\
  (forall d, d ∈ dirs (env st) ->
             d ∈ dirs w0 \/ exists t r, EOp t (Mkdir d) r ∈ trace st).

(** * One file at a time *)

Section Sequenced.

Context {T R D X : Type}.

(** The file a task belongs to. *)
Variable key : T -> X.

(** When a task is called, every task of another file that was called
    before it has settled. *)
Definition file_barrier (tr : list (event T R)) : Prop :=
  forall p t rest,
    tr = p ++ EStart t :: rest ->
    forall t', t' ∈ starts p -> key t' <> key t -> t' ∈ (settles p).*1.

(** Between two steps of the loop over the files: the barrier holds of
    the history, the tasks of the batch, of the slice being called and
    of the rest of the current file belong to one file, and every task
    called is in the batch or has settled. *)
Record sequenced (slice : list (T * prog R)) (st : machine T R D)
  : Prop := Sequenced {
  seq_barrier : file_barrier (trace st);
  seq_same : forall t t',
      t ∈ (batch st ++ slice ++ pending st).*1 ->
      t' ∈ (batch st ++ slice ++ pending st).*1 -> key t = key t';
  seq_called : forall t, t ∈ starts (trace st) ->
      t ∈ (batch st).*1 \/ t ∈ (settles (trace st)).*1
}.

End Sequenced.

(** * TranslationClient: [translateText]

    The function awaits one request to the translation service and then
    works on the answer alone.  It is modelled as a function of the way
    the request settled. *)

(** White space and line terminators, the code units that
    [String.prototype.trim] removes: U+0009 to U+000D, U+0020, U+00A0,
    U+1680, U+2000 to U+200A, U+2028, U+2029, U+202F, U+205F, U+3000 and
    U+FEFF. *)
Definition is_white_space (c : char) : bool :=
  ((9 <=? c) && (c <=? 13) || (c =? 32) || (c =? 160) || (c =? 5760)
   || (8192 <=? c) && (c <=? 8202) || (c =? 8232) || (c =? 8233)
   || (c =? 8239) || (c =? 8287) || (c =? 12288) || (c =? 65279))%N.

Fixpoint trimStart (s : jsstring) : jsstring :=
  match s with
  | c :: s' => if is_white_space c then trimStart s' else s
  | [] => []
  end.

Definition trimEnd (s : jsstring) : jsstring :=
  reverse (trimStart (reverse s)).

(** [s.trim()]. *)
Definition trim (s : jsstring) : jsstring := trimEnd (trimStart s).

(** [s.endsWith(p)]. *)
Definition endsWith (p s : jsstring) : bool :=
  bool_decide ((length p <= length s)%nat /\
               drop (length s - length p) s = p).

Definition startFenceMd : jsstring := Eval cbv in js "```markdown".
Definition startFenceHtml : jsstring := Eval cbv in js "```html".
Definition endFence : jsstring := Eval cbv in js "```".

(** The removal of the code fences that the service may have put around
    its answer (the [if] / [else if] chain on [translatedContent]). *)
Definition strip_fences (translatedContent : jsstring) : jsstring :=
  if startsWith startFenceMd translatedContent
     && endsWith endFence translatedContent
  then trim (substring translatedContent (len startFenceMd)
               (len translatedContent - len endFence))
  else if startsWith startFenceHtml translatedContent
          && endsWith endFence translatedContent
  then trim (substring translatedContent (len startFenceHtml)
               (len translatedContent - len endFence))
  else if startsWith endFence translatedContent
          && endsWith endFence translatedContent
  then trim (substring translatedContent (len endFence)
               (len translatedContent - len endFence))
  else translatedContent.

(** The [response] of a failed request, as the [catch] block prints it:
    the status, the status text and the body turned into JSON text. *)
Record error_response := ErrorResponse {
  status : jsstring;
  statusText : jsstring;
  data : jsstring
}.

(** An error object: its message and, for an error of the HTTP client
    that came with an answer of the server, the [response]. *)
Record thrown := Thrown {
  message : error;
  response : option error_response
}.

(** How the request settled, and what the expression
    [response.data.choices[0]?.message?.content] is in the answer:
    - the request was rejected, with an error of the HTTP client;
    - the evaluation of the expression, or the call of [trim] on its
      value, threw a [TypeError] (the answer has not the expected shape,
      or the content is not a string);
    - the optional chain stopped, and the value is [undefined] (there is
      no first choice, or it has no message);
    - the content is a string. *)
Inductive posted :=
  | PostRejected (e : thrown)
  | NotText (typeError : error)
  | NoContent
  | Content (content : jsstring).

Definition NO_CONTENT : error :=
  Eval cbv in js "No translation content received from API.".

(** The [try] block after the request: what it returns or throws. *)
Definition translateText_try (settled : posted) : thrown + jsstring :=
  match settled with
  | PostRejected e => inl e
  | NotText typeError => inl (Thrown typeError None)
  | NoContent => inl (Thrown NO_CONTENT None)
  | Content content =>
      let translatedContent := trim content in
      if bool_decide (translatedContent = [])
      then inl (Thrown NO_CONTENT None)
      else inr (strip_fences translatedContent)
  end.

(** The message of the error thrown by the [catch] block. *)
Definition translateText_catch (targetLang : jsstring) (e : thrown)
  : error :=
  let errorMessage :=
    match response e with
    | Some r =>
        js "API Error: " ++ status r ++ js " " ++ statusText r ++ js ". "
        ++ data r
    | None => message e
    end in
  js "Translation failed for " ++ targetLang ++ js ": " ++ errorMessage.

(** How the promise of [translateText] settles. *)
Definition translateText (targetLang : jsstring) (settled : posted)
  : result :=
  match translateText_try settled with
  | inr translatedContent => Fulfilled translatedContent
  | inl e => Rejected (translateText_catch targetLang e)
  end.

(** * What a target file holds *)

(** The content an operation gives to its target: the data of a write,
    the content of the source file of a copy. *)
Definition payload (w : world) (o : op) : option jsstring :=
  match o with
  | WriteFile _ data => Some data
  | CopyFile sourceFile _ => sources w !! sourceFile
  | _ => None
  end.

(** No operation is among the events [evs]. *)
Definition no_ops {T R : Type} (evs : list (event T R)) : Prop :=
  forall t o r, EOp t o r ∉ evs.

(** * The words of the specification *)

(** Sentence-ending punctuation, as the specification words the second
    kind of boundary: a full stop, an exclamation mark or a question
    mark. *)
Definition spec_sentence_end (c : char) : bool :=
  bool_decide (c = DOT) || bool_decide (c = 33%N) || bool_decide (c = 63%N).

(** Sentence-ending punctuation followed by a space, at the index [k] of
    the text. *)
Definition spec_sentence_break_at (text : jsstring) (k : nat) : bool :=
  match drop k text with
  | c :: d :: _ => spec_sentence_end c && bool_decide (d = SPACE)
  | _ => false
  end.

(** * Names that are one segment of a path *)

(** A name that [path.join] leaves as it is: not empty, without a slash
    or a backslash, and not one of the two dot names.  For such names the
    directory [path.join(outputBaseDir, langCode)] and the file
    [path.join(targetDir, baseName)] are told apart exactly as the pairs
    of a language code and a base name are, and the recursive [fs.mkdir]
    of the directory of a language makes that directory alone, under the
    output root that [main] has made before the loop.  With other names
    two codes can name one directory (fr and ./fr), and the creation of
    a nested directory makes its parents too; the model of the world
    does not cover them. *)
Definition plain_name (s : jsstring) : bool :=
  negb (bool_decide (s = []))
  && bool_decide (SLASH ∉ s) && bool_decide (92%N ∉ s)
  && negb (bool_decide (s = [DOT])) && negb (bool_decide (s = [DOT; DOT])).

(** A world described with plain names: every directory under the
    output root, every output file and every source file is named by
    plain names, so that no two entries of the description stand for
    one file. *)
Definition plain_world (w : world) : Prop :=
  set_Forall (fun d => plain_name d = true) (dirs w) /\
  map_Forall (fun (p : path) (_ : jsstring) =>
                plain_name p.1 = true /\ plain_name p.2 = true) (files w) /\
  map_Forall (fun (f : jsstring) (_ : jsstring) => plain_name f = true)
    (sources w).

Set Warnings "-clear-no-such-hyp".

(** * Facts about strings *)

Lemma len_nonneg s : 0 <= len s.
Proof. unfold len. lia. Qed.

Lemma len_app s t : len (s ++ t) = len s + len t.
Proof. unfold len. rewrite length_app. lia. Qed.

Lemma substring_ordered s a b :
  0 <= a -> a <= b -> b <= len s ->
  substring s a b = take (Z.to_nat (b - a)) (drop (Z.to_nat a) s).
Proof.
  intros Ha Hab Hb. unfold substring.
  replace (Z.min (Z.max a 0) (len s)) with a by lia.
  replace (Z.min (Z.max b 0) (len s)) with b by lia.
  replace (Z.max a b) with b by lia.
  replace (Z.min a b) with a by lia.
  reflexivity.
Qed.

Lemma substring_length s a b :
  0 <= a -> a <= b -> b <= len s -> len (substring s a b) = b - a.
Proof.
  intros Ha Hab Hb. rewrite substring_ordered by lia.
  unfold len in *. rewrite length_take, length_drop. lia.
Qed.

Lemma substring_from_drop s a :
  0 <= a -> a <= len s -> substring_from s a = drop (Z.to_nat a) s.
Proof.
  intros Ha Hb. unfold substring_from.
  rewrite substring_ordered by lia.
  apply take_ge. unfold len in *. rewrite length_drop. lia.
Qed.

Lemma substring_split s a b :
  0 <= a -> a <= b -> b <= len s ->
  drop (Z.to_nat a) s = substring s a b ++ drop (Z.to_nat b) s.
Proof.
  intros Ha Hab Hb. rewrite substring_ordered by lia.
  rewrite <- (take_drop (Z.to_nat (b - a)) (drop (Z.to_nat a) s)) at 1.
  f_equal. rewrite drop_drop. f_equal. lia.
Qed.

Lemma occurs_at_bound pat text k :
  occurs_at pat text k = true -> Z.of_nat k + len pat <= len text.
Proof.
  unfold occurs_at, len. intros [H _]%bool_decide_eq_true. lia.
Qed.

(** Specification of the descending scan. *)
Lemma lastIndexOf_from_spec pat text k :
  let r := lastIndexOf_from pat text k in
  (r = -1 /\ forall j, (j <= k)%nat -> occurs_at pat text j = false) \/
  (exists i, r = Z.of_nat i /\ (i <= k)%nat /\ occurs_at pat text i = true /\
             forall j, (i < j <= k)%nat -> occurs_at pat text j = false).
Proof.
  induction k as [|k IH]; simpl.
  - destruct (occurs_at pat text 0) eqn:E.
    + right. exists 0%nat. repeat split; auto. intros j Hj. lia.
    + left. split; auto. intros j Hj. replace j with 0%nat by lia. exact E.
  - destruct (occurs_at pat text (S k)) eqn:E.
    + right. exists (S k). repeat split; auto. intros j Hj. lia.
    + destruct IH as [[Hr Hn] | (i & Hr & Hi & Ho & Hn)].
      * left. split; auto. intros j Hj.
        destruct (decide (j = S k)) as [->|]; auto. apply Hn. lia.
      * right. exists i. repeat split; auto.
        intros j Hj. destruct (decide (j = S k)) as [->|]; auto. apply Hn. lia.
Qed.

Lemma occurs_at_beyond pat text j :
  len text - len pat < Z.of_nat j -> occurs_at pat text j = false.
Proof.
  intros H. destruct (occurs_at pat text j) eqn:E; auto.
  apply occurs_at_bound in E. lia.
Qed.

Lemma lastIndexOf_spec pat text position :
  0 <= position ->
  (lastIndexOf pat text position = -1 /\ no_occurrence pat text position) \/
  (last_occurrence pat text position (lastIndexOf pat text position)).
Proof.
  intros Hpos. unfold lastIndexOf.
  destruct (Z.ltb_spec (len text) (len pat)) as [Hlt|Hge].
  - left. split; auto. intros j Hj. apply occurs_at_beyond. lia.
  - set (start := Z.min (Z.max position 0) (len text - len pat)).
    assert (Hstart : 0 <= start <= position) by (unfold start; lia).
    assert (Hbeyond : forall j, start < j <= position ->
                                occurs_at pat text (Z.to_nat j) = false).
    { intros j Hj. apply occurs_at_beyond. unfold start in Hj. lia. }
    destruct (lastIndexOf_from_spec pat text (Z.to_nat start))
      as [[Hr Hn] | (i & Hr & Hi & Ho & Hn)].
    + left. split; auto. intros j Hj.
      destruct (Z.le_gt_cases j start); [apply Hn; lia | apply Hbeyond; lia].
    + right. rewrite Hr. unfold last_occurrence.
      rewrite Nat2Z.id. repeat split; auto; try lia.
      intros j Hj.
      destruct (Z.le_gt_cases j start); [apply Hn; lia | apply Hbeyond; lia].
Qed.

(** The two outcomes of the test [splitPos <= startIndex] after a search. *)
Lemma lastIndexOf_cases pat text startIndex endIndex :
  0 <= startIndex <= endIndex ->
  (lastIndexOf pat text endIndex <= startIndex /\
   no_boundary_between pat text startIndex endIndex) \/
  (startIndex < lastIndexOf pat text endIndex /\
   last_occurrence pat text endIndex (lastIndexOf pat text endIndex)).
Proof.
  intros Hse.
  destruct (lastIndexOf_spec pat text endIndex) as [[Hr Hn] | Hl]; [lia | |].
  - left. split; [lia|]. intros j Hj. apply Hn. lia.
  - destruct (Z.le_gt_cases (lastIndexOf pat text endIndex) startIndex).
    + left. split; [assumption|]. intros j Hj.
      destruct Hl as (_ & _ & Hl). apply Hl. lia.
    + right. split; [lia | assumption].
Qed.

Lemma last_occurrence_end pat text position k :
  last_occurrence pat text position k -> k + len pat <= len text.
Proof.
  intros (Hk & Ho & _). apply occurs_at_bound in Ho. lia.
Qed.

Lemma occurs_at_substring pat text k :
  occurs_at pat text k = true ->
  substring text (Z.of_nat k) (Z.of_nat k + len pat) = pat.
Proof.
  unfold occurs_at. intros [Hb Ht]%bool_decide_eq_true.
  rewrite substring_ordered; unfold len; try lia.
  rewrite Nat2Z.id.
  replace (Z.to_nat (Z.of_nat k + Z.of_nat (length pat) - Z.of_nat k))
    with (length pat) by lia.
  exact Ht.
Qed.

(** A chunk cut just after an occurrence of [pat] ends with [pat]. *)
Lemma substring_ends_with pat text a k :
  0 <= a <= k -> occurs_at pat text (Z.to_nat k) = true ->
  substring text a (k + len pat) = substring text a k ++ pat.
Proof.
  intros Hak Ho. pose proof (occurs_at_bound _ _ _ Ho) as Hb.
  pose proof (len_nonneg pat) as Hp.
  apply bool_decide_eq_true in Ho as [_ Ht].
  rewrite Z2Nat.id in Hb by lia.
  rewrite !substring_ordered by lia.
  rewrite <- (take_drop (Z.to_nat (k - a))
                (take (Z.to_nat (k + len pat - a)) (drop (Z.to_nat a) text))).
  f_equal.
  - rewrite take_take. f_equal. lia.
  - transitivity (take (length pat) (drop (Z.to_nat k) text)); [|exact Ht].
    rewrite skipn_firstn_comm, drop_drop. unfold len.
    f_equal; [lia | f_equal; lia].
Qed.

(** * Facts about the splitter *)

Lemma split_position_choice text startIndex endIndex :
  0 <= startIndex <= endIndex ->
  split_choice text startIndex endIndex
    (split_position text startIndex endIndex).
Proof.
  intros Hse. unfold split_position.
  destruct (lastIndexOf_cases PARAGRAPH_BREAK text _ _ Hse) as [[H1 N1]|[H1 L1]].
  2:{ rewrite (proj2 (Z.leb_gt _ _)) by lia. now apply choose_paragraph. }
  rewrite (proj2 (Z.leb_le _ _)) by lia.
  destruct (lastIndexOf_cases SENTENCE_BREAK text _ _ Hse) as [[H2 N2]|[H2 L2]].
  2:{ rewrite (proj2 (Z.leb_gt _ _)) by lia. now apply choose_sentence. }
  rewrite (proj2 (Z.leb_le _ _)) by lia.
  destruct (lastIndexOf_cases LINE_BREAK text _ _ Hse) as [[H3 N3]|[H3 L3]].
  2:{ rewrite (proj2 (Z.leb_gt _ _)) by lia. now apply choose_line. }
  rewrite (proj2 (Z.leb_le _ _)) by lia.
  now apply choose_hard_cut.
Qed.

Lemma split_choice_bounds text startIndex endIndex sp :
  startIndex < endIndex -> endIndex < len text ->
  split_choice text startIndex endIndex sp ->
  startIndex < sp <= len text /\ sp <= endIndex + 2.
Proof.
  intros Hlt Hend Hc.
  destruct Hc as [p Hp L | p _ Hp L | p _ _ Hp L | _ _ _].
  - pose proof (last_occurrence_end _ _ _ _ L) as Hb.
    destruct L as (Hk & _). change (len PARAGRAPH_BREAK) with 2 in Hb. lia.
  - pose proof (last_occurrence_end _ _ _ _ L) as Hb.
    destruct L as (Hk & _). change (len SENTENCE_BREAK) with 2 in Hb. lia.
  - pose proof (last_occurrence_end _ _ _ _ L) as Hb.
    destruct L as (Hk & _). change (len LINE_BREAK) with 1 in Hb. lia.
  - lia.
Qed.

Lemma split_position_bounds text maxSize startIndex :
  0 <= startIndex -> 0 < maxSize -> startIndex + maxSize < len text ->
  startIndex < split_position text startIndex (startIndex + maxSize) <= len text
  /\ split_position text startIndex (startIndex + maxSize)
     <= startIndex + maxSize + 2.
Proof.
  intros Hs HM Hend.
  apply split_choice_bounds; [lia | lia |].
  apply split_position_choice. lia.
Qed.

Lemma split_loop_unfold fuel text maxSize startIndex chunks :
  split_loop fuel text maxSize startIndex chunks =
  if startIndex <? len text then
    if len text <=? startIndex + maxSize then
      Some (chunks ++ [substring_from text startIndex])
    else
      match fuel with
      | O => None
      | S fuel' =>
          split_loop fuel' text maxSize
            (split_position text startIndex (startIndex + maxSize))
            (chunks ++ [substring text startIndex
                          (split_position text startIndex
                             (startIndex + maxSize))])
      end
  else Some chunks.
Proof. destruct fuel; reflexivity. Qed.

(** What the loop returns when it is entered with the cursor at
    [startIndex] and enough fuel: the chunks pushed from there on are
    non-empty, at most [maxSize + 2] long, and tile the rest of the text. *)
Lemma split_loop_spec text maxSize :
  0 < maxSize ->
  forall fuel startIndex chunks,
    0 <= startIndex <= len text ->
    len text - startIndex <= Z.of_nat fuel ->
    exists cs,
      split_loop fuel text maxSize startIndex chunks = Some (chunks ++ cs) /\
      concat cs = drop (Z.to_nat startIndex) text /\
      Forall (fun c => 0 < len c <= maxSize + 2) cs /\
      (cs = [] <-> startIndex = len text).
Proof.
  intros HM. induction fuel as [|fuel IH]; intros startIndex chunks Hs Hf;
    rewrite split_loop_unfold.
  - assert (startIndex = len text) as -> by lia.
    rewrite Z.ltb_irrefl. exists []. rewrite app_nil_r. repeat split; auto.
    simpl. symmetry. apply drop_ge. unfold len. lia.
  - destruct (Z.ltb_spec startIndex (len text)) as [Hlt|Hge].
    + destruct (Z.leb_spec (len text) (startIndex + maxSize)) as [Hfin|Hmore].
      * exists [substring_from text startIndex]. repeat split.
        -- simpl. rewrite app_nil_r. apply substring_from_drop; lia.
        -- constructor; [|constructor]. unfold substring_from.
           rewrite substring_length; lia.
        -- discriminate.
        -- lia.
      * destruct (split_position_bounds text maxSize startIndex) as [Hsp Hov];
          [lia..|].
        set (sp := split_position text startIndex (startIndex + maxSize)) in *.
        destruct (IH sp (chunks ++ [substring text startIndex sp]))
          as (cs & Hrun & Hcat & Hall & _); [lia..|].
        exists (substring text startIndex sp :: cs). repeat split.
        -- rewrite Hrun, <- app_assoc. reflexivity.
        -- simpl. rewrite Hcat. symmetry. apply substring_split; lia.
        -- constructor; [|assumption]. rewrite substring_length; lia.
        -- discriminate.
        -- lia.
    + assert (startIndex = len text) as -> by lia.
      exists []. rewrite app_nil_r. repeat split; auto.
      simpl. symmetry. apply drop_ge. unfold len. lia.
Qed.

Lemma splitTextIntoChunks_spec text maxSize :
  0 < maxSize ->
  exists cs,
    splitTextIntoChunks text maxSize = Some cs /\
    concat cs = text /\
    Forall (fun c => 0 < len c <= maxSize + 2) cs /\
    (cs = [] <-> text = []).
Proof.
  intros HM. unfold splitTextIntoChunks.
  destruct (split_loop_spec text maxSize HM (length text) 0 [])
    as (cs & Hrun & Hcat & Hall & Hnil).
  - pose proof (len_nonneg text). lia.
  - unfold len. lia.
  - exists cs. repeat split; auto.
    + intros ->. destruct Hnil as [Hnil _]. specialize (Hnil eq_refl).
      destruct text; [reflexivity | discriminate].
    + intros ->. apply Hnil. reflexivity.
Qed.

Lemma split_loop_fuel_mono text maxSize r :
  forall fuel fuel' startIndex chunks,
    (fuel <= fuel')%nat ->
    split_loop fuel text maxSize startIndex chunks = Some r ->
    split_loop fuel' text maxSize startIndex chunks = Some r.
Proof.
  induction fuel as [|fuel IH]; intros fuel' startIndex chunks Hle;
    rewrite (split_loop_unfold _ text), (split_loop_unfold fuel' text);
    destruct (startIndex <? len text); auto;
    destruct (len text <=? startIndex + maxSize); auto.
  - discriminate.
  - destruct fuel' as [|fuel']; [lia|]. apply IH. lia.
Qed.

(** * Properties of the splitter *)

(** C1 (round trip): for every text and every positive [maxSize], the
    splitter returns a list of chunks, and the chunks concatenated in
    order are exactly the text. *)
Theorem split_concat_roundtrip (text : jsstring) (maxSize : Z) :
  0 < maxSize ->
  exists chunks,
    splitTextIntoChunks text maxSize = Some chunks /\ concat chunks = text.
Proof.
  intros HM.
  destruct (splitTextIntoChunks_spec text maxSize HM) as (cs & Hs & Hc & _).
  exists cs. split; assumption.
Qed.

Lemma split_concat_roundtrip_witness :
  0 < 4 /\
  exists chunks,
    splitTextIntoChunks (js "one. two. three four") 4 = Some chunks /\
    concat chunks = js "one. two. three four".
Proof. split; [lia | apply split_concat_roundtrip; lia]. Defined.

(** C2 (bound), evaluated where it fails: with [maxSize = 2] the text
    made of the two letters a b, a paragraph break and the two letters c d
    is split into a first chunk of four code units, because the paragraph
    break that starts exactly at the candidate end is found by the
    backward search and then included in the chunk.  No run of
    non-boundary text is longer than [maxSize] here. *)
Theorem split_chunk_exceeds_maxSize :
  splitTextIntoChunks (js "ab" ++ [LF; LF] ++ js "cd") 2
    = Some [js "ab" ++ [LF; LF]; js "cd"] /\
  len (js "ab" ++ [LF; LF]) = 4 /\ 2 < 4.
Proof. vm_compute. repeat split; reflexivity. Qed.

(** X1.  What does hold of the sizes: for a positive [maxSize], every
    chunk has at most [maxSize + 2] code units.  The overshoot is at
    most the length of the boundary, two code units. *)
Lemma split_chunk_bound text maxSize chunks :
  0 < maxSize ->
  splitTextIntoChunks text maxSize = Some chunks ->
  Forall (fun c => len c <= maxSize + 2) chunks.
Proof.
  intros HM Hs.
  destruct (splitTextIntoChunks_spec text maxSize HM) as (cs & Hs' & _ & Hall & _).
  rewrite Hs in Hs'. injection Hs' as ->.
  eapply Forall_impl; [exact Hall|]. simpl. intros c Hc. lia.
Qed.

(** C3 (termination): for every text and every positive [maxSize] the
    loop returns, with the fuel [text.length] and with any larger fuel;
    and an iteration that goes round again moves the cursor strictly
    forward, never past the end of the text. *)
Theorem split_terminates (text : jsstring) (maxSize : Z) :
  0 < maxSize ->
  (exists chunks,
     splitTextIntoChunks text maxSize = Some chunks /\
     forall fuel, (length text <= fuel)%nat ->
                  split_loop fuel text maxSize 0 [] = Some chunks) /\
  (forall startIndex,
     0 <= startIndex -> startIndex + maxSize < len text ->
     startIndex < next_cursor text maxSize startIndex <= len text).
Proof.
  intros HM. split.
  - destruct (splitTextIntoChunks_spec text maxSize HM) as (cs & Hs & _).
    exists cs. split; [assumption|]. intros fuel Hf.
    eapply split_loop_fuel_mono; [exact Hf | exact Hs].
  - intros startIndex Hs Hend. unfold next_cursor.
    apply split_position_bounds; assumption.
Qed.

Lemma split_terminates_witness :
  0 < 1 /\
  (exists chunks,
     splitTextIntoChunks (replicate 6 LF) 1 = Some chunks /\
     forall fuel, (length (replicate 6 LF) <= fuel)%nat ->
                  split_loop fuel (replicate 6 LF) 1 0 [] = Some chunks) /\
  (forall startIndex,
     0 <= startIndex -> startIndex + 1 < len (replicate 6 LF) ->
     startIndex < next_cursor (replicate 6 LF) 1 startIndex
       <= len (replicate 6 LF)).
Proof. split; [lia | apply split_terminates; lia]. Defined.

Lemma occurs_nowhere pat text :
  forallb (fun k => negb (occurs_at pat text k)) (seq 0 (S (length text)))
  = true ->
  forall k, occurs_at pat text k = false.
Proof.
  intros H k. rewrite forallb_forall in H.
  destruct (decide (k <= length text)%nat) as [Hk|Hk].
  - apply negb_true_iff, H, in_seq. lia.
  - unfold occurs_at. apply bool_decide_eq_false. lia.
Qed.

(** C4 (choice of the split position), as the code has it: in an
    iteration that does not end the input, the loop pushes the text from
    the cursor to the split position and continues from the split
    position, which is
    - just after the last paragraph break starting at or before the
      candidate end, when that break starts after the cursor;
    - otherwise just after the last full stop followed by a space, under
      the same condition (no other punctuation is a sentence boundary);
    - otherwise just after the last line feed, under the same condition;
    - otherwise the candidate end itself.
    In the first three cases the pushed chunk ends with the boundary. *)
Theorem split_position_priority (text : jsstring) (maxSize startIndex : Z) :
  0 < maxSize -> 0 <= startIndex -> startIndex + maxSize < len text ->
  let endIndex := startIndex + maxSize in
  let splitPos := next_cursor text maxSize startIndex in
  let chunk := substring text startIndex splitPos in
  (forall fuel chunks,
     split_loop (S fuel) text maxSize startIndex chunks =
     split_loop fuel text maxSize splitPos (chunks ++ [chunk])) /\
  ((exists p, startIndex < p /\
      last_occurrence PARAGRAPH_BREAK text endIndex p /\
      splitPos = p + 2 /\
      chunk = substring text startIndex p ++ PARAGRAPH_BREAK)
   \/
   (no_boundary_between PARAGRAPH_BREAK text startIndex endIndex /\
    exists p, startIndex < p /\
      last_occurrence SENTENCE_BREAK text endIndex p /\
      splitPos = p + 2 /\
      chunk = substring text startIndex p ++ SENTENCE_BREAK)
   \/
   (no_boundary_between PARAGRAPH_BREAK text startIndex endIndex /\
    no_boundary_between SENTENCE_BREAK text startIndex endIndex /\
    exists p, startIndex < p /\
      last_occurrence LINE_BREAK text endIndex p /\
      splitPos = p + 1 /\
      chunk = substring text startIndex p ++ LINE_BREAK)
   \/
   (no_boundary_between PARAGRAPH_BREAK text startIndex endIndex /\
    no_boundary_between SENTENCE_BREAK text startIndex endIndex /\
    no_boundary_between LINE_BREAK text startIndex endIndex /\
    splitPos = endIndex /\ len chunk = maxSize)).
Proof.
  intros HM Hs Hend endIndex splitPos chunk. split.
  - intros fuel chunks. rewrite split_loop_unfold.
    rewrite (proj2 (Z.ltb_lt _ _)) by lia.
    rewrite (proj2 (Z.leb_gt _ _)) by lia. reflexivity.
  - assert (Hc : split_choice text startIndex endIndex splitPos).
    { apply split_position_choice. unfold endIndex. lia. }
    unfold chunk. clearbody splitPos.
    destruct Hc as [p Hp L | p N1 Hp L | p N1 N2 Hp L | N1 N2 N3].
    + left. exists p. do 3 (split; [first [assumption | reflexivity]|]).
      apply (substring_ends_with PARAGRAPH_BREAK); [lia | apply L].
    + right; left. split; [assumption|]. exists p.
      do 3 (split; [first [assumption | reflexivity]|]).
      apply (substring_ends_with SENTENCE_BREAK); [lia | apply L].
    + right; right; left. do 2 (split; [assumption|]). exists p.
      do 3 (split; [first [assumption | reflexivity]|]).
      apply (substring_ends_with LINE_BREAK); [lia | apply L].
    + right; right; right. do 3 (split; [assumption|]).
      split; [reflexivity|].
      rewrite substring_length; unfold endIndex; lia.
Qed.

Lemma split_position_priority_witness :
  let text := js "Hi. Bye. See you soon" in
  0 < 8 /\ 0 <= 0 /\ 0 + 8 < len text /\
  (forall fuel chunks,
     split_loop (S fuel) text 8 0 chunks =
     split_loop fuel text 8 (next_cursor text 8 0)
       (chunks ++ [substring text 0 (next_cursor text 8 0)])) /\
  no_boundary_between PARAGRAPH_BREAK text 0 (0 + 8) /\
  exists p, 0 < p /\
    last_occurrence SENTENCE_BREAK text (0 + 8) p /\
    next_cursor text 8 0 = p + 2 /\
    substring text 0 (next_cursor text 8 0)
    = substring text 0 p ++ SENTENCE_BREAK.
Proof.
  intros text. split; [lia|]. split; [lia|]. split; [reflexivity|].
  destruct (split_position_priority text 8 0 ltac:(lia) ltac:(lia) eq_refl)
    as [Hloop Hcase].
  split; [exact Hloop|].
  assert (Hno : forall k, occurs_at PARAGRAPH_BREAK text k = false)
    by (apply occurs_nowhere; reflexivity).
  assert (Hdot : occurs_at SENTENCE_BREAK text (Z.to_nat 2) = true)
    by reflexivity.
  destruct Hcase as [(p & _ & (_ & Ho & _) & _)
                    | [Hs | [(_ & N & _) | (_ & N & _)]]].
  - rewrite Hno in Ho. discriminate.
  - exact Hs.
  - rewrite (N 2 ltac:(lia)) in Hdot. discriminate.
  - rewrite (N 2 ltac:(lia)) in Hdot. discriminate.
Defined.

(** C4 as it is stated fails on the code: the only sentence boundary
    the loop looks for is a full stop followed by a space.  In the text
    made of Hi, an exclamation mark, a space, Bye, a line feed and the
    letters a to f, with the size 8, an exclamation mark followed by a
    space stands after the cursor and before the candidate end, and
    there is no paragraph break; yet the chunk is cut after the line
    feed, the boundary of lower priority, and not after a sentence
    end. *)
Lemma split_priority_counterexample :
  splitTextIntoChunks (js "Hi! Bye" ++ [LF] ++ js "abcdef") 8
    = Some [js "Hi! Bye" ++ [LF]; js "abcdef"] /\
  ~ (forall text maxSize startIndex p,
       0 < maxSize -> 0 <= startIndex -> startIndex + maxSize < len text ->
       no_boundary_between PARAGRAPH_BREAK text startIndex
         (startIndex + maxSize) ->
       startIndex < p <= startIndex + maxSize ->
       spec_sentence_break_at text (Z.to_nat p) = true ->
       exists q, startIndex < q /\
         spec_sentence_break_at text (Z.to_nat q) = true /\
         next_cursor text maxSize startIndex = q + 2).
Proof.
  split; [vm_compute; reflexivity|]. intros H.
  destruct (H (js "Hi! Bye" ++ [LF] ++ js "abcdef") 8 0 2)
    as (q & Hq & Hb & Hn).
  - lia.
  - lia.
  - vm_compute. reflexivity.
  - intros j _. apply occurs_nowhere. reflexivity.
  - lia.
  - reflexivity.
  - assert (Hc : next_cursor (js "Hi! Bye" ++ [LF] ++ js "abcdef") 8 0 = 8)
      by (vm_compute; reflexivity).
    rewrite Hc in Hn. assert (q = 6) as -> by lia.
    vm_compute in Hb. discriminate.
Qed.

(** C10 (non-empty chunks): for every text and every positive [maxSize],
    every chunk returned is a non-empty string, and the list of chunks is
    empty exactly when the text is the empty string. *)
Theorem split_chunks_nonempty (text : jsstring) (maxSize : Z) :
  0 < maxSize ->
  exists chunks,
    splitTextIntoChunks text maxSize = Some chunks /\
    Forall (fun c => c <> []) chunks /\
    (chunks = [] <-> text = []).
Proof.
  intros HM.
  destruct (splitTextIntoChunks_spec text maxSize HM)
    as (cs & Hs & _ & Hall & Hnil).
  exists cs. repeat split; try assumption; try apply Hnil.
  eapply Forall_impl; [exact Hall|]. simpl. intros c [Hc _] ->.
  unfold len in Hc. simpl in Hc. lia.
Qed.

Lemma split_chunks_nonempty_witness :
  0 < 3 /\
  exists chunks,
    splitTextIntoChunks (js "abcdefg") 3 = Some chunks /\
    Forall (fun c => c <> []) chunks /\
    (chunks = [] <-> js "abcdefg" = []).
Proof. split; [lia | apply split_chunks_nonempty; lia]. Defined.

(** * Facts about one task *)

Lemma chunks_of_spec sourceText :
  splitTextIntoChunks sourceText CHUNK_SIZE = Some (chunks_of sourceText).
Proof.
  unfold chunks_of.
  destruct (splitTextIntoChunks_spec sourceText CHUNK_SIZE) as (cs & -> & _);
    [reflexivity | reflexivity].
Qed.

Lemma runs_snoc {A : Type} (p : prog A) tr o k r :
  runs p tr (Await o k) -> runs p (tr ++ [(o, r)]) (k r).
Proof.
  intros H. remember (Await o k) as q eqn:Hq.
  induction H as [p | o' k' r' tr q H IH]; subst.
  - simpl. apply runs_cons, runs_nil.
  - simpl. apply runs_cons, IH. reflexivity.
Qed.

Lemma runs_settled_nil {A : Type} (p : prog A) tr q v :
  settled_result p = Some v -> runs p tr q -> tr = [] /\ q = p.
Proof.
  intros Hs H. destruct H; [auto | discriminate].
Qed.

Lemma issues_runs {A : Type} (p : prog A) tr q o r :
  runs p tr q -> (o, r) ∈ tr -> issues p o.
Proof.
  induction 1 as [p | o' k r' tr q H IH]; intros Hin.
  - inversion Hin.
  - apply elem_of_cons in Hin as [Heq | Hin].
    + injection Heq as -> ->. apply issues_now.
    + eapply issues_later, IH, Hin.
Qed.

Section TaskFacts.

Variable toLowerCase : jsstring -> jsstring.
Variables (baseName sourceText : jsstring) (fileType : file_type).
Variables (langCode instructions : jsstring).

Let the_task : prog outcome :=
  task toLowerCase baseName sourceText fileType langCode instructions.

(** The operations of a task whose instruction is the sentinel. *)
Lemma issues_sentinel o :
  toLowerCase instructions = DONT_TRANSLATE ->
  issues the_task o ->
  o = Mkdir langCode \/ o = Access (langCode, baseName).
Proof.
  intros Hs H. unfold the_task, task in H. cbn in H.
  rewrite (bool_decide_eq_true_2 _ Hs) in H.
  inversion H as [|? ? r ? H1]; subst; [left; reflexivity|].
  destruct r; cbn in H1; [|inversion H1].
  inversion H1 as [|? ? r ? H2]; subst; [right; reflexivity|].
  destruct r; cbn in H2; inversion H2.
Qed.

Lemma work_history_cons x tr s :
  translated x ->
  work_history langCode baseName tr s ->
  work_history langCode baseName (x :: tr) s.
Proof.
  intros Hx H. destruct H as [ts H | ts o e H Ho | ts d v H | ts d e H].
  - apply wh_translating. constructor; assumption.
  - apply (wh_translate_failed _ _ (x :: ts)); [constructor|]; assumption.
  - apply (wh_written _ _ (x :: ts)). constructor; assumption.
  - apply (wh_write_failed _ _ (x :: ts)). constructor; assumption.
Qed.

(** The write at the end of the [try] block; [g] stands for the
    adjustment of the image paths, applied or not. *)
Lemma runs_writing (g : jsstring -> jsstring) data tr q :
  runs (guarded (do _ <- await (WriteFile (langCode, baseName) (g data));
                 Ret Done)) tr q ->
  work_history langCode baseName tr (settled_result q).
Proof.
  unfold guarded. cbn. intros H.
  inversion H as [|? ? r ? ? H1]; subst.
  - apply wh_translating. constructor.
  - destruct r as [v|e]; cbn in H1;
      inversion H1; subst; cbn.
    + apply (wh_written _ _ []). constructor.
    + apply (wh_write_failed _ _ []). constructor.
Qed.

Lemma runs_translate_chunks (g : jsstring -> jsstring) chunks :
  forall translatedChunks tr q,
    runs (guarded
            (do finalTranslation <-
               (do tc <- translate_chunks chunks langCode instructions
                           fileType translatedChunks;
                Ret (join [LF; LF] tc));
             do _ <- await (WriteFile (langCode, baseName)
                              (g finalTranslation));
             Ret Done)) tr q ->
    work_history langCode baseName tr (settled_result q).
Proof.
  induction chunks as [|chunk chunks IH]; intros acc tr q H.
  - cbn in H. apply (runs_writing g _ _ _ H).
  - cbn in H. inversion H as [|? ? r ? ? H1]; subst.
    + apply wh_translating. constructor.
    + destruct r as [v|e]; cbn in H1.
      * apply work_history_cons; [split; reflexivity|].
        apply (IH _ _ _ H1).
      * inversion H1; subst. cbn.
        apply (wh_translate_failed _ _ []); [constructor | reflexivity].
Qed.

Lemma runs_translate_whole (g : jsstring -> jsstring) tr q :
  runs (guarded
          (do finalTranslation <-
             await (TranslateText sourceText langCode instructions
                      fileType);
           do _ <- await (WriteFile (langCode, baseName)
                            (g finalTranslation));
           Ret Done)) tr q ->
  work_history langCode baseName tr (settled_result q).
Proof.
  cbn. intros H. inversion H as [|? ? r ? ? H1]; subst.
  - apply wh_translating. constructor.
  - destruct r as [v|e]; cbn in H1.
    + apply work_history_cons; [split; reflexivity|].
      apply (runs_writing g _ _ _ H1).
    + inversion H1; subst. cbn.
      apply (wh_translate_failed _ _ []); [constructor | reflexivity].
Qed.

(** Every run of the task has one of the listed histories. *)
Lemma task_runs_history tr q :
  runs the_task tr q ->
  task_history (bool_decide (toLowerCase instructions = DONT_TRANSLATE))
    langCode baseName tr (settled_result q).
Proof.
  unfold the_task, task. cbn. intros H.
  inversion H as [|? ? r tr1 ? H1]; subst; [apply th_start|].
  destruct r as [v|e]; cbn in H1.
  2:{ inversion H1; subst. apply th_mkdir_failed. }
  inversion H1 as [|? ? r tr2 ? H2]; subst; [apply th_mkdir|].
  destruct r as [v'|e]; cbn in H2.
  { inversion H2; subst. apply th_exists. }
  destruct (bool_decide (toLowerCase instructions = DONT_TRANSLATE)) eqn:Es.
  { inversion H2; subst. apply th_sentinel. reflexivity. }
  destruct (bool_decide (langCode = EN)) eqn:El.
  - apply bool_decide_eq_true in El. cbn in H2.
    inversion H2 as [|? ? r tr3 ? H3]; subst;
      [apply th_copying; auto|].
    destruct r as [v'|e']; cbn in H3; inversion H3; subst.
    + apply th_copied; auto.
    + apply th_copy_failed; auto.
  - apply bool_decide_eq_false in El.
    apply th_work; auto.
    set (g := fun t : jsstring =>
                if bool_decide (fileType = html) && negb false
                then adjustHtmlImagePaths t else t).
    destruct (LARGE_FILE_THRESHOLD <? len sourceText).
    + apply (runs_translate_chunks g _ _ _ _ H2).
    + apply (runs_translate_whole g _ _ H2).
Qed.

End TaskFacts.

(** C8 (the sentinel instruction): a task whose instruction, in lower
    case, is the sentinel awaits nothing but the creation of its target
    directory and the existence test of its target file, whatever the
    environment answers: it calls the translation service on no path and
    writes or copies no file, and every execution of it leaves such
    operations out of its history. *)
Theorem dont_translate_no_call_no_write
    (toLowerCase : jsstring -> jsstring)
    (baseName sourceText : jsstring) (fileType : file_type)
    (langCode instructions : jsstring) :
  toLowerCase instructions = DONT_TRANSLATE ->
  let t := task toLowerCase baseName sourceText fileType langCode
             instructions in
  (forall o, issues t o -> is_translate o = false /\ is_write o = false) /\
  (forall tr v, exec t tr v ->
     Forall (fun e => is_translate e.1 = false /\ is_write e.1 = false) tr).
Proof.
  intros Hs t.
  assert (Hi : forall o, issues t o ->
                         is_translate o = false /\ is_write o = false).
  { intros o Ho.
    destruct (issues_sentinel _ _ _ _ _ _ _ Hs Ho) as [-> | ->];
      split; reflexivity. }
  split; [exact Hi|].
  intros tr v (q & Hr & _). apply Forall_forall. intros [o r] Hin.
  apply Hi. eapply issues_runs; eassumption.
Qed.

Lemma dont_translate_no_call_no_write_witness :
  ascii_toLowerCase (js "Don't Translate") = DONT_TRANSLATE /\
  forall o,
    issues (task ascii_toLowerCase (js "a.md") (js "hello") markdown
              (js "de") (js "Don't Translate")) o ->
    is_translate o = false /\ is_write o = false.
Proof.
  split; [reflexivity|].
  exact (proj1 (dont_translate_no_call_no_write ascii_toLowerCase
                  (js "a.md") (js "hello") markdown (js "de")
                  (js "Don't Translate") eq_refl)).
Defined.

(** * Facts about histories *)

Section TraceFacts.

Context {T R : Type} `{EqDecision T}.
Implicit Types (tr : list (event T R)) (t : T).

Lemma starts_app tr1 tr2 : starts (tr1 ++ tr2) = starts tr1 ++ starts tr2.
Proof. unfold starts. apply omap_app. Qed.

Lemma settles_app tr1 tr2 :
  settles (tr1 ++ tr2) = settles tr1 ++ settles tr2.
Proof. unfold settles. apply omap_app. Qed.

Lemma history_app t tr1 tr2 :
  history t (tr1 ++ tr2) = history t tr1 ++ history t tr2.
Proof. unfold history. apply omap_app. Qed.

Lemma in_flight_app tr1 tr2 :
  in_flight (tr1 ++ tr2) = in_flight tr1 + in_flight tr2.
Proof.
  unfold in_flight. rewrite starts_app, settles_app, !length_app. lia.
Qed.

Lemma history_op_same t o r : history t [EOp (R := R) t o r] = [(o, r)].
Proof. unfold history. simpl. rewrite decide_True; reflexivity. Qed.

Lemma history_op_other t t' o r :
  t' <> t -> history t [EOp (R := R) t' o r] = [].
Proof. intros Hne. unfold history. simpl. rewrite decide_False; auto. Qed.

Lemma history_settle t t' v : history t [ESettle (R := R) t' v] = [].
Proof. reflexivity. Qed.

Lemma settles_op t o r : settles [EOp (R := R) t o r] = [].
Proof. reflexivity. Qed.

Lemma settles_settle t v : settles [ESettle (R := R) t v] = [(t, v)].
Proof. reflexivity. Qed.

Lemma elem_of_history t tr o r :
  (o, r) ∈ history t tr <-> EOp t o r ∈ tr.
Proof.
  unfold history. rewrite list_elem_of_omap. split.
  - intros (ev & Hin & Hev). destruct ev as [|t' o' r'|]; try discriminate.
    destruct (decide (t' = t)) as [->|]; [|discriminate].
    injection Hev as -> ->. exact Hin.
  - intros Hin. exists (EOp t o r). split; [exact Hin|].
    rewrite decide_True; reflexivity.
Qed.

Lemma elem_of_starts t tr : t ∈ starts tr <-> EStart t ∈ tr.
Proof.
  unfold starts. rewrite list_elem_of_omap. split.
  - intros (ev & Hin & Hev). destruct ev; try discriminate.
    injection Hev as ->. exact Hin.
  - intros Hin. exists (EStart t). split; [exact Hin | reflexivity].
Qed.

Lemma elem_of_settles t v tr : (t, v) ∈ settles tr <-> ESettle t v ∈ tr.
Proof.
  unfold settles. rewrite list_elem_of_omap. split.
  - intros (ev & Hin & Hev). destruct ev; try discriminate.
    injection Hev as -> ->. exact Hin.
  - intros Hin. exists (ESettle t v). split; [exact Hin | reflexivity].
Qed.

End TraceFacts.

(** * Facts about the machine: termination *)

Section BatchOrder.

Context {T R : Type}.
Implicit Types (b : list (T * prog R)) (p : prog R).

Lemma batch_step_cons_inv b' t p b :
  batch_step b' ((t, p) :: b) ->
  (exists o k r, p = Await o k /\ (b' = (t, k r) :: b \/ b' = b)) \/
  (exists b0, b' = (t, p) :: b0 /\ batch_step b0 b).
Proof.
  intros (i & t' & o & k & r & Hi & Hb').
  destruct i as [|i]; simpl in *.
  - injection Hi as -> ->. left. exists o, k, r. split; [reflexivity|].
    destruct Hb' as [-> | ->]; auto.
  - right. destruct Hb' as [-> | ->].
    + exists (<[i := (t', k r)]> b). split; [reflexivity|].
      exists i, t', o, k, r. auto.
    + exists (delete i b). split; [reflexivity|].
      exists i, t', o, k, r. auto.
Qed.

Lemma batch_step_acc_cons p :
  forall t b, Acc batch_step b -> Acc batch_step ((t, p) :: b).
Proof.
  induction p as [a | e | o k IHk]; intros t b Hb.
  - induction Hb as [b Hb IHb]. constructor. intros b' Hs.
    apply batch_step_cons_inv in Hs
      as [(o & k & r & Hp & _) | (b0 & -> & Hs)]; [discriminate|].
    apply IHb, Hs.
  - induction Hb as [b Hb IHb]. constructor. intros b' Hs.
    apply batch_step_cons_inv in Hs
      as [(o & k & r & Hp & _) | (b0 & -> & Hs)]; [discriminate|].
    apply IHb, Hs.
  - induction Hb as [b Hb IHb]. constructor. intros b' Hs.
    apply batch_step_cons_inv in Hs
      as [(o' & k' & r & Hp & Hb') | (b0 & -> & Hs)].
    + injection Hp as -> ->. destruct Hb' as [-> | ->].
      * apply IHk. constructor. exact Hb.
      * constructor. exact Hb.
    + apply IHb, Hs.
Qed.

(** No batch goes on for ever: every task is a well-founded tree. *)
Lemma batch_step_acc b : Acc batch_step b.
Proof.
  induction b as [|[t p] b IH].
  - constructor. intros b' (i & t & o & k & r & Hi & _). discriminate.
  - apply batch_step_acc_cons, IH.
Qed.

End BatchOrder.

Section MachineTermination.

Context {T R D : Type}.
Variable K : nat.
Variable job : world -> D -> list (T * prog R).
Implicit Types (st : machine T R D) (b : list (T * prog R)).

Lemma start_task_fields st tp :
  docs (start_task st tp) = docs st /\
  pending (start_task st tp) = pending st /\
  env (start_task st tp) = env st /\
  (suspended (batch st) -> suspended (batch (start_task st tp))).
Proof.
  unfold start_task. destruct (settled_result tp.2) eqn:E; simpl;
    repeat split; auto.
  intros Hs. apply Forall_app. split; [exact Hs|].
  constructor; [exact E | constructor].
Qed.

Lemma launch_fields group :
  forall st,
    docs (launch st group) = docs st /\
    pending (launch st group) = pending st /\
    env (launch st group) = env st /\
    (suspended (batch st) -> suspended (batch (launch st group))).
Proof.
  induction group as [|tp group IH]; intros st; simpl.
  - repeat split; auto.
  - destruct (IH (start_task st tp)) as (Hd & Hp & He & Hs).
    destruct (start_task_fields st tp) as (Hd' & Hp' & He' & Hs').
    unfold launch in *. simpl.
    rewrite Hd, Hp, He, Hd', Hp', He'. repeat split; auto.
Qed.

Lemma step_task_batch c st :
  suspended (batch st) -> batch st <> [] ->
  docs (step_task c st) = docs st /\
  pending (step_task c st) = pending st /\
  batch_step (batch (step_task c st)) (batch st) /\
  suspended (batch (step_task c st)).
Proof.
  intros Hs Hne. unfold step_task.
  assert (Hlt : (pick c mod length (batch st) < length (batch st))%nat).
  { apply Nat.mod_upper_bound. destruct (batch st); [congruence|].
    simpl. lia. }
  destruct (lookup_lt_is_Some_2 _ _ Hlt) as [[t p] Hi].
  rewrite Hi.
  pose proof (proj1 (Forall_lookup _ _) Hs _ _ Hi) as Hp. simpl in Hp.
  destruct p as [a | e | o k]; try discriminate.
  destruct (perform c (env st) o) as [w' r] eqn:Ep.
  destruct (settled_result (k r)) eqn:Ek; simpl.
  - repeat split; auto.
    + exists (pick c mod length (batch st))%nat, t, o, k, r. auto.
    + apply Forall_delete, Hs.
  - repeat split; auto.
    + exists (pick c mod length (batch st))%nat, t, o, k, r. auto.
    + apply Forall_insert; [exact Hs | exact Ek].
Qed.

Lemma run_shift cs n st :
  run K job cs (S n) st =
  run K job (fun i => cs (S i)) n (step K job (cs O) st).
Proof.
  induction n as [|n IH]; [reflexivity|].
  change (run K job cs (S (S n)) st)
    with (step K job (cs (S n)) (run K job cs (S n) st)).
  rewrite IH. reflexivity.
Qed.

Lemma terminates_after_step cs st :
  (exists n, final (run K job (fun i => cs (S i)) n (step K job (cs O) st))) ->
  exists n, final (run K job cs n st).
Proof.
  intros [n Hn]. exists (S n). rewrite run_shift. exact Hn.
Qed.

Lemma terminates_level ds :
  (0 < K)%nat ->
  match ds with
  | [] => True
  | d :: ds' =>
      forall pend b tr w cs,
        suspended b ->
        exists n, final (run K job cs n (Machine ds' pend b tr w))
  end ->
  forall np pend,
    (length pend <= np)%nat ->
    forall b,
      Acc batch_step b ->
      forall tr w cs,
        suspended b ->
        exists n, final (run K job cs n (Machine ds pend b tr w)).
Proof.
  intros HK Hnext. induction np as [|np IHnp]; intros pend Hlen b Hacc;
    induction Hacc as [b _ IHb]; intros tr w cs Hsus.
  - destruct b as [|tp b].
    + destruct pend; [|simpl in Hlen; lia].
      destruct ds as [|d ds'].
      * exists O. repeat split.
      * apply terminates_after_step. apply Hnext. constructor.
    + apply terminates_after_step.
      destruct (step_task_batch (cs O) (Machine ds pend (tp :: b) tr w)
                  Hsus ltac:(discriminate)) as (Hd & Hp & Hstep & Hsus').
      change (step K job (cs O) (Machine ds pend (tp :: b) tr w))
        with (step_task (cs O) (Machine ds pend (tp :: b) tr w)).
      destruct (step_task (cs O) (Machine ds pend (tp :: b) tr w))
        as [ds2 p2 b2 tr2 w2]. simpl in *. subst.
      apply IHb; assumption.
  - destruct b as [|tp b].
    + destruct pend as [|tp pend].
      * destruct ds as [|d ds'].
        -- exists O. repeat split.
        -- apply terminates_after_step. apply Hnext. constructor.
      * apply terminates_after_step.
        change (step K job (cs O) (Machine ds (tp :: pend) [] tr w))
          with (launch (Machine ds (drop K (tp :: pend)) [] tr w)
                  (take K (tp :: pend))).
        destruct (launch_fields (take K (tp :: pend))
                    (Machine ds (drop K (tp :: pend)) [] tr w))
          as (Hd & Hp & _ & Hs).
        destruct (launch _ _) as [ds2 p2 b2 tr2 w2]. simpl in *. subst.
        apply IHnp.
        -- rewrite length_drop. simpl. lia.
        -- apply batch_step_acc.
        -- apply Hs. constructor.
    + apply terminates_after_step.
      destruct (step_task_batch (cs O) (Machine ds pend (tp :: b) tr w)
                  Hsus ltac:(discriminate)) as (Hd & Hp & Hstep & Hsus').
      change (step K job (cs O) (Machine ds pend (tp :: b) tr w))
        with (step_task (cs O) (Machine ds pend (tp :: b) tr w)).
      destruct (step_task (cs O) (Machine ds pend (tp :: b) tr w))
        as [ds2 p2 b2 tr2 w2]. simpl in *. subst.
      apply IHb; assumption.
Qed.

(** Whatever the environment decides, the loops come to their end. *)
Lemma machine_terminates :
  (0 < K)%nat ->
  forall ds pend b tr w cs,
    suspended b ->
    exists n, final (run K job cs n (Machine ds pend b tr w)).
Proof.
  intros HK. induction ds as [|d ds IHds]; intros pend b tr w cs Hsus.
  - apply (terminates_level [] HK I (length pend)); auto.
    apply batch_step_acc.
  - apply (terminates_level (d :: ds) HK IHds (length pend)); auto.
    apply batch_step_acc.
Qed.

Lemma final_step c st : final st -> step K job c st = st.
Proof.
  intros (Hd & Hp & Hb). destruct st as [ds p b tr w]. simpl in *. subst.
  reflexivity.
Qed.

Lemma final_run cs st n : final st -> run K job cs n st = st.
Proof.
  intros Hf. induction n as [|n IH]; [reflexivity|].
  simpl. rewrite IH. apply final_step, Hf.
Qed.

End MachineTermination.

(** * Facts about the machine: every task runs its own function *)

Lemma nil_no_elem {A : Type} (l : list A) : (forall x, x ∉ l) -> l = [].
Proof.
  destruct l as [|x l]; [reflexivity|]. intros H.
  exfalso. apply (H x). left.
Qed.

Section KeyedLists.

Context {T A : Type}.
Implicit Types (b : list (T * A)).

Lemma keyed_lookup_inj b i j t p q :
  NoDup b.*1 -> b !! i = Some (t, p) -> b !! j = Some (t, q) -> i = j.
Proof.
  intros Hnd Hi Hj. apply (NoDup_lookup _ _ _ t Hnd).
  - rewrite list_lookup_fmap, Hi. reflexivity.
  - rewrite list_lookup_fmap, Hj. reflexivity.
Qed.

Lemma keyed_delete_elem b i t p t' q :
  NoDup b.*1 -> b !! i = Some (t, p) ->
  (t', q) ∈ delete i b -> (t', q) ∈ b /\ t' <> t.
Proof.
  intros Hnd Hi Hin. split; [eapply list_elem_of_delete_inv, Hin|].
  intros ->. rewrite delete_take_drop in Hin.
  rewrite <- (take_drop_middle _ _ _ Hi), fmap_app, fmap_cons in Hnd.
  apply NoDup_app in Hnd as (_ & Hnd1 & Hnd2).
  apply NoDup_cons in Hnd2 as [Hnd2 _]. simpl in *.
  apply elem_of_app in Hin as [Hin | Hin].
  - apply (Hnd1 t); [|left].
    apply list_elem_of_fmap. exists (t, q). auto.
  - apply Hnd2. apply list_elem_of_fmap. exists (t, q). auto.
Qed.

Lemma keyed_delete_keys b i t p t' :
  b !! i = Some (t, p) -> t' ∈ b.*1 -> t' = t \/ t' ∈ (delete i b).*1.
Proof.
  intros Hi Hin. rewrite delete_take_drop.
  rewrite <- (take_drop_middle _ _ _ Hi) in Hin.
  rewrite fmap_app, fmap_cons in Hin. rewrite fmap_app.
  apply elem_of_app in Hin as [Hin | Hin].
  - right. apply elem_of_app. auto.
  - apply elem_of_cons in Hin as [-> | Hin]; [left; reflexivity|].
    right. apply elem_of_app. auto.
Qed.

Lemma keyed_insert_keys b i t p p' :
  b !! i = Some (t, p) -> (<[i := (t, p')]> b).*1 = b.*1.
Proof.
  intros Hi. rewrite list_fmap_insert. apply list_insert_id.
  rewrite list_lookup_fmap, Hi. reflexivity.
Qed.

Lemma keyed_insert_elem b i t p p' t' q :
  NoDup b.*1 -> b !! i = Some (t, p) ->
  (t', q) ∈ <[i := (t, p')]> b ->
  (t' = t /\ q = p') \/ ((t', q) ∈ b /\ t' <> t).
Proof.
  intros Hnd Hi Hin. apply list_elem_of_lookup in Hin as [j Hj].
  destruct (decide (i = j)) as [<- | Hne].
  - rewrite list_lookup_insert_eq in Hj
      by (eapply lookup_lt_Some; exact Hi).
    injection Hj as <- <-. left. auto.
  - rewrite list_lookup_insert_ne in Hj by assumption.
    right. split; [eapply list_elem_of_lookup_2; exact Hj|].
    intros ->. apply Hne. eapply keyed_lookup_inj; eassumption.
Qed.

End KeyedLists.

Section MachineLinked.

Context {T R D : Type} `{EqDecision T}.
Variable K : nat.
Variable job : world -> D -> list (T * prog R).
Variable tasks : list (T * prog R).
Hypothesis tasks_nodup : NoDup tasks.*1.
Hypothesis job_stable :
  forall c w o d, job (perform c w o).1 d = job w d.

Implicit Types (st : machine T R D) (b : list (T * prog R)).

Lemma todo_start_task st tp : todo job (start_task st tp) = todo job st.
Proof.
  unfold todo, start_task. destruct (settled_result tp.2); reflexivity.
Qed.

(** A task that has not been called has no history. *)
Lemma fresh_history started slice st tp :
  linked job tasks started (tp :: slice) st ->
  (tp.1 ∉ started.*1) /\ history tp.1 (trace st) = [].
Proof.
  intros L.
  assert (Hfresh : tp.1 ∉ started.*1).
  { pose proof tasks_nodup as Hnd. rewrite (linked_tasks _ _ _ _ _ L) in Hnd.
    rewrite fmap_app in Hnd. apply NoDup_app in Hnd as (_ & Hnd & _).
    intros Hin. apply (Hnd _ Hin). simpl. left. }
  split; [exact Hfresh|].
  apply nil_no_elem. intros [o r] Hin.
  apply elem_of_history in Hin.
  apply Hfresh. eapply linked_ops; eassumption.
Qed.

Lemma linked_batch_started started slice st t :
  linked job tasks started slice st ->
  t ∈ (batch st).*1 -> t ∈ started.*1.
Proof.
  intros L Hin. apply list_elem_of_fmap in Hin as ([t' q] & -> & Hin).
  destruct (linked_batch _ _ _ _ _ L _ _ Hin) as (_ & p & Hp & _).
  apply list_elem_of_fmap. exists (t', p). split; [reflexivity | exact Hp].
Qed.

Lemma linked_start_task started slice st tp :
  linked job tasks started (tp :: slice) st ->
  linked job tasks (started ++ [tp]) slice (start_task st tp).
Proof.
  intros L. destruct (fresh_history _ _ _ _ L) as [Hfresh Hnil].
  destruct tp as [t0 p0]. simpl in Hfresh, Hnil.
  unfold start_task. simpl.
  destruct (settled_result p0) as [v0|] eqn:Es.
  - constructor; simpl.
    + rewrite (linked_tasks _ _ _ _ _ L), <- app_assoc. reflexivity.
    + rewrite starts_app, (linked_starts _ _ _ _ _ L), fmap_app.
      reflexivity.
    + intros t q Hin.
      destruct (linked_batch _ _ _ _ _ L _ _ Hin) as (Hq & p & Hp & Hr).
      split; [exact Hq|]. exists p. split; [set_solver|].
      rewrite history_app. simpl. rewrite app_nil_r. exact Hr.
    + intros t p Hin Hnb. rewrite history_app, settles_app. simpl.
      rewrite app_nil_r.
      apply elem_of_app in Hin as [Hin | Hin].
      * destruct (linked_settled _ _ _ _ _ L _ _ Hin Hnb) as (v & He & Hs).
        exists v. split; [exact He | set_solver].
      * apply list_elem_of_singleton in Hin. injection Hin as -> ->.
        exists v0. split; [|set_solver].
        rewrite Hnil. exists p0. split; [apply runs_nil | exact Es].
    + intros t v Hin. rewrite history_app. simpl. rewrite app_nil_r.
      rewrite settles_app in Hin. apply elem_of_app in Hin as [Hin | Hin].
      * destruct (linked_report _ _ _ _ _ L _ _ Hin) as (Hnb & p & Hp & He).
        split; [exact Hnb|]. exists p. split; [set_solver | exact He].
      * apply list_elem_of_singleton in Hin. injection Hin as -> ->.
        split.
        -- intros Hb. apply Hfresh.
           eapply linked_batch_started; eassumption.
        -- exists p0. split; [set_solver|]. rewrite Hnil.
           exists p0. split; [apply runs_nil | exact Es].
    + intros t o r Hin. rewrite fmap_app.
      apply elem_of_app in Hin as [Hin | Hin].
      * apply elem_of_app. left. eapply linked_ops; eassumption.
      * set_solver.
    + apply (linked_nodup _ _ _ _ _ L).
  - constructor; simpl.
    + rewrite (linked_tasks _ _ _ _ _ L), <- app_assoc. reflexivity.
    + rewrite starts_app, (linked_starts _ _ _ _ _ L), fmap_app.
      reflexivity.
    + intros t q Hin. rewrite history_app. simpl. rewrite app_nil_r.
      apply elem_of_app in Hin as [Hin | Hin].
      * destruct (linked_batch _ _ _ _ _ L _ _ Hin) as (Hq & p & Hp & Hr).
        split; [exact Hq|]. exists p. split; [set_solver | exact Hr].
      * apply list_elem_of_singleton in Hin. injection Hin as -> ->.
        split; [exact Es|]. exists p0. split; [set_solver|].
        rewrite Hnil. apply runs_nil.
    + intros t p Hin Hnb. rewrite history_app, settles_app. simpl.
      rewrite !app_nil_r. rewrite fmap_app in Hnb.
      apply elem_of_app in Hin as [Hin | Hin].
      * apply (linked_settled _ _ _ _ _ L _ _ Hin). set_solver.
      * apply list_elem_of_singleton in Hin. injection Hin as -> ->.
        exfalso. apply Hnb. set_solver.
    + intros t v Hin. rewrite history_app. simpl. rewrite app_nil_r.
      rewrite settles_app in Hin. simpl in Hin. rewrite app_nil_r in Hin.
      destruct (linked_report _ _ _ _ _ L _ _ Hin) as (Hnb & p & Hp & He).
      split.
      * rewrite fmap_app. intros Hb.
        apply elem_of_app in Hb as [Hb | Hb]; [contradiction|].
        simpl in Hb. apply list_elem_of_singleton in Hb. subst t.
        apply Hfresh. apply list_elem_of_fmap. exists (t0, p). auto.
      * exists p. split; [set_solver | exact He].
    + intros t o r Hin. rewrite fmap_app.
      apply elem_of_app in Hin as [Hin | Hin].
      * apply elem_of_app. left. eapply linked_ops; eassumption.
      * set_solver.
    + rewrite fmap_app. apply NoDup_app. split; [|split].
      * apply (linked_nodup _ _ _ _ _ L).
      * intros t Hin Hin'. simpl in Hin'.
        apply list_elem_of_singleton in Hin'. subst t.
        apply Hfresh. eapply linked_batch_started; eassumption.
      * simpl. apply NoDup_singleton.
Qed.

Lemma linked_launch slice :
  forall started rest st,
    linked job tasks started (slice ++ rest) st ->
    linked job tasks (started ++ slice) rest (launch st slice).
Proof.
  induction slice as [|tp slice IH]; intros started rest st L.
  - simpl. rewrite app_nil_r. exact L.
  - simpl. apply linked_start_task in L. apply IH in L.
    rewrite <- app_assoc in L. exact L.
Qed.

Lemma started_function started slice st t p p' :
  linked job tasks started slice st ->
  (t, p) ∈ started -> (t, p') ∈ started -> p = p'.
Proof.
  intros L Hp Hp'. pose proof tasks_nodup as Hnd.
  rewrite (linked_tasks _ _ _ _ _ L), fmap_app in Hnd.
  apply NoDup_app in Hnd as (Hnd & _).
  apply list_elem_of_lookup in Hp as [i Hi].
  apply list_elem_of_lookup in Hp' as [j Hj].
  assert (i = j) as -> by (eapply keyed_lookup_inj; eassumption).
  congruence.
Qed.

Lemma todo_env ds pend b b' tr tr' w c o :
  todo job (Machine ds pend b' tr' (perform c w o).1) =
  todo job (Machine ds pend b tr w).
Proof.
  unfold todo. simpl. f_equal. f_equal.
  apply list_fmap_ext. intros _ d _. apply job_stable.
Qed.

Lemma linked_step_task c started st :
  linked job tasks started [] st -> batch st <> [] ->
  linked job tasks started [] (step_task c st).
Proof.
  intros L Hne. unfold step_task.
  assert (Hlt : (pick c mod length (batch st) < length (batch st))%nat).
  { apply Nat.mod_upper_bound. destruct (batch st); [congruence|].
    simpl. lia. }
  set (i := (pick c mod length (batch st))%nat) in *.
  destruct (lookup_lt_is_Some_2 _ _ Hlt) as [[t p] Hi].
  rewrite Hi.
  assert (Hin : (t, p) ∈ batch st) by (eapply list_elem_of_lookup_2, Hi).
  destruct (linked_batch _ _ _ _ _ L _ _ Hin) as (Hq & p0 & Hp0 & Hr0).
  destruct p as [a | e | o k]; try discriminate.
  pose proof (todo_env (docs st) (pending st) (batch st)) as Htodo.
  destruct st as [ds pend b tr w]. simpl in *.
  specialize (Htodo b tr tr w c o).
  destruct (perform c w o) as [w' r] eqn:Ep. simpl in Htodo.
  pose proof (linked_nodup _ _ _ _ _ L) as Hnd. simpl in Hnd.
  assert (Hts : t ∈ started.*1).
  { apply list_elem_of_fmap. exists (t, p0). auto. }
  destruct (settled_result (k r)) as [v|] eqn:Ek.
  - constructor; simpl.
    + rewrite (linked_tasks _ _ _ _ _ L). f_equal. f_equal.
      unfold todo in *. simpl in *. rewrite <- Htodo. reflexivity.
    + rewrite starts_app. simpl. rewrite app_nil_r.
      apply (linked_starts _ _ _ _ _ L).
    + intros t' q Hin'.
      destruct (keyed_delete_elem _ _ _ _ _ _ Hnd Hi Hin') as [Hb Hne'].
      destruct (linked_batch _ _ _ _ _ L _ _ Hb) as (Hq' & p' & Hp' & Hr').
      split; [exact Hq'|]. exists p'. split; [exact Hp'|].
      simpl in Hr'.
      change [EOp t o r; ESettle t v]
        with ([EOp (R := R) t o r] ++ [ESettle t v]).
      rewrite !history_app, history_op_other, history_settle by congruence.
      rewrite !app_nil_r. exact Hr'.
    + intros t' p' Hp' Hnb.
      change [EOp t o r; ESettle t v]
        with ([EOp (R := R) t o r] ++ [ESettle t v]).
      rewrite !history_app, !settles_app, history_settle, settles_op,
        settles_settle.
      rewrite app_nil_r, app_nil_l.
      destruct (decide (t' = t)) as [-> | Hne'].
      * assert (p' = p0) as -> by (eapply started_function; eassumption).
        exists v. split; [|set_solver].
        rewrite history_op_same.
        exists (k r). split; [apply runs_snoc, Hr0 | exact Ek].
      * rewrite history_op_other by congruence. rewrite app_nil_r.
        destruct (linked_settled _ _ _ _ _ L _ _ Hp') as (v' & He & Hs).
        { simpl. intros Hb.
          destruct (keyed_delete_keys _ _ _ _ _ Hi Hb); auto. }
        exists v'. split; [exact He | set_solver].
    + intros t' v' Hin'.
      change [EOp t o r; ESettle t v]
        with ([EOp (R := R) t o r] ++ [ESettle t v]) in *.
      rewrite !settles_app, settles_op, settles_settle, app_nil_l in Hin'.
      rewrite !history_app, history_settle, app_nil_r.
      apply elem_of_app in Hin' as [Hin' | Hin'].
      * destruct (linked_report _ _ _ _ _ L _ _ Hin')
          as (Hnb & p' & Hp' & He).
        simpl in Hnb.
        assert (Hne' : t' <> t).
        { intros ->. apply Hnb. apply list_elem_of_fmap.
          exists (t, Await o k). auto. }
        split.
        -- intros Hb. apply Hnb. rewrite list_fmap_delete in Hb.
           eapply list_elem_of_delete_inv, Hb.
        -- exists p'. split; [exact Hp'|].
           rewrite history_op_other by congruence.
           rewrite app_nil_r. exact He.
      * apply list_elem_of_singleton in Hin'. injection Hin' as -> ->.
        split.
        -- intros Hb. apply list_elem_of_fmap in Hb as ([t' q] & Heq & Hb).
           simpl in Heq. subst t'.
           destruct (keyed_delete_elem _ _ _ _ _ _ Hnd Hi Hb) as [_ Hne'].
           congruence.
        -- exists p0. split; [exact Hp0|]. rewrite history_op_same.
           exists (k r). split; [apply runs_snoc, Hr0 | exact Ek].
    + intros t' o' r' Hin'.
      apply elem_of_app in Hin' as [Hin' | Hin'].
      * eapply linked_ops; [exact L | exact Hin'].
      * apply elem_of_cons in Hin' as [Heq | Hin'].
        -- injection Heq as -> -> ->. exact Hts.
        -- apply list_elem_of_singleton in Hin'. discriminate.
    + rewrite list_fmap_delete.
      eapply sublist_NoDup; [exact Hnd | apply sublist_delete].
  - constructor; simpl.
    + rewrite (linked_tasks _ _ _ _ _ L). f_equal. f_equal.
      unfold todo in *. simpl in *. rewrite <- Htodo. reflexivity.
    + rewrite starts_app. simpl. rewrite app_nil_r.
      apply (linked_starts _ _ _ _ _ L).
    + intros t' q Hin'. rewrite history_app.
      destruct (keyed_insert_elem _ _ _ _ _ _ _ Hnd Hi Hin')
        as [[-> ->] | [Hb Hne']].
      * split; [exact Ek|]. exists p0. split; [exact Hp0|].
        rewrite history_op_same. apply runs_snoc, Hr0.
      * destruct (linked_batch _ _ _ _ _ L _ _ Hb)
          as (Hq' & p' & Hp' & Hr').
        split; [exact Hq'|]. exists p'. split; [exact Hp'|].
        rewrite history_op_other by congruence.
        rewrite app_nil_r. exact Hr'.
    + intros t' p' Hp' Hnb.
      rewrite (keyed_insert_keys _ _ _ _ _ Hi) in Hnb.
      rewrite history_app, settles_app, settles_op, app_nil_r.
      assert (Hne' : t' <> t).
      { intros ->. apply Hnb. apply list_elem_of_fmap.
        exists (t, Await o k). auto. }
      rewrite history_op_other by congruence. rewrite app_nil_r.
      apply (linked_settled _ _ _ _ _ L _ _ Hp' Hnb).
    + intros t' v' Hin'.
      rewrite settles_app, settles_op, app_nil_r in Hin'.
      rewrite (keyed_insert_keys _ _ _ _ _ Hi).
      destruct (linked_report _ _ _ _ _ L _ _ Hin')
        as (Hnb & p' & Hp' & He).
      simpl in Hnb. split; [exact Hnb|].
      assert (Hne' : t' <> t).
      { intros ->. apply Hnb. apply list_elem_of_fmap.
        exists (t, Await o k). auto. }
      exists p'. split; [exact Hp'|].
      rewrite history_app, history_op_other by congruence.
      rewrite app_nil_r. exact He.
    + intros t' o' r' Hin'.
      apply elem_of_app in Hin' as [Hin' | Hin'].
      * eapply linked_ops; [exact L | exact Hin'].
      * apply list_elem_of_singleton in Hin'.
        injection Hin' as -> -> ->. exact Hts.
    + rewrite (keyed_insert_keys _ _ _ _ _ Hi). exact Hnd.
Qed.

Lemma linked_step c started st :
  linked job tasks started [] st ->
  exists started', linked job tasks started' [] (step K job c st).
Proof.
  intros L. unfold step.
  destruct (batch st) as [|tp b] eqn:Eb.
  - destruct (pending st) as [|tp pend] eqn:Epend.
    + destruct (docs st) as [|d ds] eqn:Eds; [exists started; exact L|].
      exists started. destruct L as [L1 L2 L3 L4 L5 L6 L7].
      constructor; simpl; auto.
      * rewrite L1. unfold todo. simpl. rewrite Epend, Eds. reflexivity.
      * intros t q Hin. inversion Hin.
      * intros t p Hp _. apply L4; [exact Hp|]. rewrite Eb. simpl.
        apply not_elem_of_nil.
      * intros t v Hv. destruct (L5 t v Hv) as [_ He].
        split; [apply not_elem_of_nil | exact He].
      * constructor.
    + exists (started ++ take K (tp :: pend)).
      apply (linked_launch (take K (tp :: pend)) started []).
      rewrite app_nil_r.
      destruct L as [L1 L2 L3 L4 L5 L6 L7].
      constructor; simpl; auto.
      * rewrite L1. unfold todo. simpl. rewrite Epend.
        rewrite (app_assoc (take K _)), take_drop. reflexivity.
      * intros t q Hin. inversion Hin.
      * intros t p Hp _. apply L4; [exact Hp|]. rewrite Eb. simpl.
        apply not_elem_of_nil.
      * intros t v Hv. destruct (L5 t v Hv) as [_ He].
        split; [apply not_elem_of_nil | exact He].
      * constructor.
  - exists started. apply linked_step_task; [exact L|].
    rewrite Eb. discriminate.
Qed.

(** Every state of a run is linked to the tasks of the run. *)
Lemma linked_run cs st :
  tasks = todo job st -> batch st = [] -> trace st = [] ->
  forall n, exists started, linked job tasks started [] (run K job cs n st).
Proof.
  intros Htasks Hb Htr. induction n as [|n [started IH]].
  - exists []. constructor; simpl; rewrite ?Hb, ?Htr; auto.
    + intros t q Hin. inversion Hin.
    + intros t p Hin. inversion Hin.
    + intros t v Hin. inversion Hin.
    + intros t o r Hin. inversion Hin.
    + constructor.
  - simpl. eapply linked_step, IH.
Qed.

(** At the end every task has been called, in the order in which the
    tasks were built, and has settled to what its own history gives. *)
Lemma linked_final started st :
  linked job tasks started [] st -> final st ->
  starts (trace st) = tasks.*1 /\
  forall t p, (t, p) ∈ tasks ->
    exists v, exec p (history t (trace st)) v /\
              (t, v) ∈ settles (trace st).
Proof.
  intros L (Hd & Hp & Hb).
  assert (Hs : tasks = started).
  { rewrite (linked_tasks _ _ _ _ _ L). unfold todo.
    rewrite Hd, Hp. simpl. rewrite app_nil_r. reflexivity. }
  split.
  - rewrite Hs. apply (linked_starts _ _ _ _ _ L).
  - intros t p Hin. rewrite Hs in Hin.
    apply (linked_settled _ _ _ _ _ L _ _ Hin).
    rewrite Hb. apply not_elem_of_nil.
Qed.

End MachineLinked.

(** * Facts about the machine: the tasks in flight *)

Lemma prefix_snoc_inv {A : Type} (p l : list A) (x : A) :
  p `prefix_of` l ++ [x] -> p `prefix_of` l \/ p = l ++ [x].
Proof.
  intros [k Hk]. destruct (decide (k = [])) as [-> | Hne].
  - right. rewrite app_nil_r in Hk. auto.
  - left. destruct (exists_last Hne) as (k' & y & ->).
    rewrite app_assoc in Hk. apply app_inj_tail in Hk as [-> _].
    exists k'. reflexivity.
Qed.

Section MachineBounded.

Context {T R D : Type} `{EqDecision T}.
Variable K : nat.
Variable job : world -> D -> list (T * prog R).
Implicit Types (st : machine T R D).

Lemma in_flight_start (tr : list (event T R)) t :
  in_flight (tr ++ [EStart t]) = in_flight tr + 1.
Proof. rewrite in_flight_app. reflexivity. Qed.

Lemma in_flight_settle (tr : list (event T R)) t v :
  in_flight (tr ++ [ESettle t v]) = in_flight tr - 1.
Proof. rewrite in_flight_app. reflexivity. Qed.

Lemma in_flight_op (tr : list (event T R)) t o r :
  in_flight (tr ++ [EOp t o r]) = in_flight tr.
Proof. rewrite in_flight_app. unfold in_flight at 2. simpl. lia. Qed.

(** One more event keeps the bound when the bound holds after it. *)
Lemma bounded_prefix_snoc (tr : list (event T R)) ev :
  (forall p, p `prefix_of` tr -> in_flight p <= Z.of_nat K) ->
  in_flight (tr ++ [ev]) <= Z.of_nat K ->
  forall p, p `prefix_of` tr ++ [ev] -> in_flight p <= Z.of_nat K.
Proof.
  intros Hp Hev p Hpre.
  apply prefix_snoc_inv in Hpre as [Hpre | ->]; auto.
Qed.

Lemma bounded_start_task slice st tp :
  bounded K (tp :: slice) st -> bounded K slice (start_task st tp).
Proof.
  intros [Hp Hn Hr]. simpl in Hr. unfold start_task.
  destruct (settled_result tp.2) as [v|]; constructor; simpl.
  - change [EStart tp.1; ESettle tp.1 v]
      with ([EStart (R := R) tp.1] ++ [ESettle tp.1 v]).
    rewrite app_assoc. apply bounded_prefix_snoc.
    + apply bounded_prefix_snoc; [exact Hp|].
      rewrite in_flight_start. lia.
    + rewrite in_flight_settle, in_flight_start. lia.
  - change [EStart tp.1; ESettle tp.1 v]
      with ([EStart (R := R) tp.1] ++ [ESettle tp.1 v]).
    rewrite app_assoc, in_flight_settle, in_flight_start. lia.
  - lia.
  - apply bounded_prefix_snoc; [exact Hp|].
    rewrite in_flight_start. lia.
  - rewrite in_flight_start, length_app. simpl. lia.
  - rewrite length_app. simpl. lia.
Qed.

Lemma bounded_launch slice :
  forall rest st,
    bounded K (slice ++ rest) st -> bounded K rest (launch st slice).
Proof.
  induction slice as [|tp slice IH]; intros rest st B; [exact B|].
  simpl. apply IH, bounded_start_task, B.
Qed.

Lemma bounded_step_task c st :
  bounded K [] st -> bounded K [] (step_task c st).
Proof.
  intros B. unfold step_task.
  destruct (batch st !! (pick c mod length (batch st))%nat)
    as [[t p]|] eqn:Hi; [|exact B].
  destruct p as [a | e | o k]; try exact B.
  destruct B as [Hp Hn Hr].
  destruct (perform c (env st) o) as [w' r].
  destruct (settled_result (k r)) as [v|]; constructor; simpl.
  - change [EOp t o r; ESettle t v]
      with ([EOp (R := R) t o r] ++ [ESettle t v]).
    rewrite app_assoc. apply bounded_prefix_snoc.
    + apply bounded_prefix_snoc; [exact Hp|].
      rewrite in_flight_op. simpl in Hr. lia.
    + rewrite in_flight_settle, in_flight_op. simpl in Hr. lia.
  - change [EOp t o r; ESettle t v]
      with ([EOp (R := R) t o r] ++ [ESettle t v]).
    rewrite app_assoc, in_flight_settle, in_flight_op.
    rewrite length_delete by (rewrite Hi; eauto).
    apply lookup_lt_Some in Hi. lia.
  - rewrite length_delete by (rewrite Hi; eauto). simpl in Hr. lia.
  - apply bounded_prefix_snoc; [exact Hp|].
    rewrite in_flight_op. simpl in Hr. lia.
  - rewrite in_flight_op, length_insert. exact Hn.
  - rewrite length_insert. exact Hr.
Qed.

Lemma bounded_step c st :
  bounded K [] st -> bounded K [] (step K job c st).
Proof.
  intros B. unfold step.
  destruct (batch st) as [|tp b] eqn:Eb.
  - destruct (pending st) as [|tp pend] eqn:Epend.
    + destruct (docs st) as [|d ds]; [exact B|].
      destruct B as [Hp Hn Hr]. rewrite Eb in Hn, Hr.
      constructor; simpl; auto.
    + apply (bounded_launch (take K (tp :: pend)) []).
      rewrite app_nil_r.
      destruct B as [Hp Hn Hr]. rewrite Eb in Hn, Hr.
      constructor; simpl; auto.
      rewrite length_take. simpl. lia.
  - apply bounded_step_task, B.
Qed.

Lemma bounded_run cs st :
  batch st = [] -> trace st = [] ->
  forall n, bounded K [] (run K job cs n st).
Proof.
  intros Hb Htr. induction n as [|n IH].
  - simpl. constructor; rewrite ?Hb, ?Htr; simpl; try lia; try reflexivity.
    intros p Hp. apply prefix_nil_inv in Hp as ->.
    unfold in_flight. simpl. lia.
  - simpl. apply bounded_step, IH.
Qed.

End MachineBounded.

(** * Facts about the scheduler: the barrier between the groups *)

Lemma snoc_eq_middle {A : Type} (tr p rest : list A) (ev x : A) :
  tr ++ [ev] = p ++ x :: rest ->
  (rest = [] /\ p = tr /\ x = ev) \/
  (exists rest', rest = rest' ++ [ev] /\ tr = p ++ x :: rest').
Proof.
  intros H. destruct (decide (rest = [])) as [-> | Hne].
  - left. change (p ++ [x]) with (p ++ [x]) in H.
    apply app_inj_tail in H as [-> ->]. auto.
  - right. destruct (exists_last Hne) as (rest' & y & ->).
    exists rest'.
    change (p ++ x :: rest' ++ [y]) with (p ++ (x :: rest') ++ [y]) in H.
    rewrite app_assoc in H. apply app_inj_tail in H as [-> ->]. auto.
Qed.

Section SchedulerBarrier.

Context {R : Type}.
Variable K : nat.
Hypothesis K_pos : (0 < K)%nat.
Variable tasks : list (prog R).
Implicit Types (st : machine nat R Empty_set) (tr : list (event nat R)).

Lemma barrier_snoc_other tr ev :
  barrier K tr -> (forall t, ev <> EStart t) -> barrier K (tr ++ [ev]).
Proof.
  intros B Hev p t rest Heq t' Ht'.
  apply snoc_eq_middle in Heq as [(_ & _ & Heq) | (rest' & _ & Heq)].
  - exfalso. apply (Hev t). auto.
  - eapply B; eassumption.
Qed.

Lemma barrier_snoc_start tr t :
  barrier K tr ->
  (forall t', (t' / K < t / K)%nat -> t' ∈ (settles tr).*1) ->
  barrier K (tr ++ [EStart t]).
Proof.
  intros B Ht p t0 rest Heq t' Ht'.
  apply snoc_eq_middle in Heq as [(_ & -> & Heq) | (rest' & _ & Heq)].
  - injection Heq as ->. apply Ht, Ht'.
  - eapply B; eassumption.
Qed.

(** In the group that starts at the multiple [j0] of [K], earlier
    groups are the positions below [j0]. *)
Lemma earlier_group j0 t t' :
  (j0 mod K = 0)%nat -> (j0 <= t < j0 + K)%nat ->
  (t' / K < t / K)%nat -> (t' < j0)%nat.
Proof.
  intros Hmod Ht Hlt.
  apply Nat.Div0.div_exact in Hmod.
  assert (Htq : (t / K = j0 / K)%nat).
  { symmetry. apply (Nat.div_unique t K (j0 / K) (t - j0)); lia. }
  rewrite Htq in Hlt.
  pose proof (Nat.Div0.mul_div_le t' K).
  pose proof (Nat.mod_upper_bound t' K ltac:(lia)).
  pose proof (Nat.div_mod_eq t' K). nia.
Qed.

Lemma settles_mono tr tr' t :
  t ∈ (settles tr).*1 -> t ∈ (settles (tr ++ tr')).*1.
Proof.
  intros H. rewrite settles_app, fmap_app. apply elem_of_app. auto.
Qed.

Lemma barrier_launch slice :
  forall st j0,
    barrier K (trace st) ->
    (j0 mod K = 0)%nat ->
    (forall t', (t' < j0)%nat -> t' ∈ (settles (trace st)).*1) ->
    (j0 <= length (starts (trace st)))%nat ->
    (length (starts (trace st)) + length slice <= j0 + K)%nat ->
    (forall i tp, slice !! i = Some tp ->
                  tp.1 = (length (starts (trace st)) + i)%nat) ->
    (forall t', (t' < length (starts (trace st)))%nat ->
                t' ∈ (batch st).*1 \/ t' ∈ (settles (trace st)).*1) ->
    barrier K (trace (launch st slice)) /\
    length (starts (trace (launch st slice)))
      = (length (starts (trace st)) + length slice)%nat /\
    (forall t', (t' < length (starts (trace (launch st slice))))%nat ->
                t' ∈ (batch (launch st slice)).*1 \/
                t' ∈ (settles (trace (launch st slice))).*1).
Proof.
  induction slice as [|tp slice IH];
    intros st j0 B Hmod Hold Hj0 Hroom Hids Hcalled.
  - simpl. repeat split; auto.
  - simpl.
    assert (Htid : tp.1 = length (starts (trace st))).
    { rewrite (Hids O tp eq_refl). lia. }
    assert (Hbar : barrier K (trace st ++ [EStart tp.1])).
    { apply barrier_snoc_start; [exact B|]. intros t' Ht'.
      apply Hold. apply (earlier_group j0 tp.1); auto.
      simpl in Hroom. lia. }
    assert (Hlen : length (starts (trace (start_task st tp)))
                   = S (length (starts (trace st)))).
    { unfold start_task. destruct (settled_result tp.2); simpl;
        rewrite starts_app, length_app; simpl; lia. }
    destruct (IH (start_task st tp) j0) as (B' & Hl' & Hc').
    + unfold start_task. destruct (settled_result tp.2) as [v|]; simpl;
        [|exact Hbar].
      change [EStart tp.1; ESettle tp.1 v]
        with ([EStart (R := R) tp.1] ++ [ESettle tp.1 v]).
      rewrite app_assoc. apply barrier_snoc_other; [exact Hbar|].
      discriminate.
    + exact Hmod.
    + intros t' Ht'. unfold start_task.
      destruct (settled_result tp.2); simpl; apply settles_mono, Hold, Ht'.
    + lia.
    + rewrite Hlen. simpl in Hroom. lia.
    + intros i tp' Hi. rewrite Hlen, (Hids (S i) tp' Hi). lia.
    + intros t' Ht'. rewrite Hlen in Ht'.
      destruct (decide (t' = length (starts (trace st)))) as [-> | Hne].
      * unfold start_task. destruct (settled_result tp.2) as [v|]; simpl.
        -- right. rewrite settles_app, fmap_app. apply elem_of_app.
           right. simpl. rewrite Htid. left.
        -- left. rewrite fmap_app. apply elem_of_app. right.
           simpl. rewrite Htid. left.
      * destruct (Hcalled t' ltac:(lia)) as [Hb | Hs].
        -- left. unfold start_task.
           destruct (settled_result tp.2); simpl; [exact Hb|].
           rewrite fmap_app. apply elem_of_app. auto.
        -- right. unfold start_task.
           destruct (settled_result tp.2); simpl; apply settles_mono, Hs.
    + split; [exact B'|]. split; [|exact Hc'].
      rewrite Hl', Hlen. simpl. lia.
Qed.

Lemma grouped_step_task c st :
  grouped K tasks st -> grouped K tasks (step_task c st).
Proof.
  intros G. unfold step_task.
  destruct (batch st !! (pick c mod length (batch st))%nat)
    as [[t p]|] eqn:Hi; [|exact G].
  destruct p as [a | e | o k]; try exact G.
  destruct G as [GB GD GP GA GC].
  destruct (perform c (env st) o) as [w' r].
  destruct (settled_result (k r)) as [v|]; constructor; simpl;
    rewrite ?starts_app; simpl; rewrite ?app_nil_r; auto.
  - change [EOp t o r; ESettle t v]
      with ([EOp (R := R) t o r] ++ [ESettle t v]).
    rewrite app_assoc.
    apply barrier_snoc_other; [apply barrier_snoc_other|]; auto;
      discriminate.
  - intros t' Ht'. destruct (GC t' Ht') as [Hb | Hs].
    + destruct (keyed_delete_keys _ _ _ _ _ Hi Hb) as [-> | Hb'].
      * right. rewrite settles_app, fmap_app. apply elem_of_app.
        right. simpl. left.
      * left. exact Hb'.
    + right. apply settles_mono, Hs.
  - apply barrier_snoc_other; [exact GB | discriminate].
  - intros t' Ht'. rewrite (keyed_insert_keys _ _ _ _ _ Hi).
    destruct (GC t' Ht') as [Hb | Hs]; [left; exact Hb|].
    right. apply settles_mono, Hs.
Qed.

Lemma numbered_lookup_drop j i (tp : nat * prog R) :
  drop j (numbered tasks) !! i = Some tp -> tp.1 = (j + i)%nat.
Proof.
  rewrite lookup_drop. unfold numbered. rewrite list_lookup_imap.
  destruct (tasks !! (j + i)%nat); simpl; [|discriminate].
  intros [= <-]. reflexivity.
Qed.

Lemma grouped_step c st :
  grouped K tasks st -> grouped K tasks (step K no_job c st).
Proof.
  intros G. unfold step.
  destruct (batch st) as [|tp0 b] eqn:Eb; [|apply grouped_step_task, G].
  destruct (pending st) as [|tp pend] eqn:Epend.
  { rewrite (grouped_docs _ _ _ G). exact G. }
  destruct G as [GB GD GP GA GC]. rewrite Epend in GA, GP.
  specialize (GA ltac:(discriminate)).
  set (j0 := length (starts (trace st))) in *.
  set (st0 := Machine (docs st) (drop K (tp :: pend)) [] (trace st) (env st)).
  destruct (barrier_launch (take K (tp :: pend)) st0 j0)
    as (B' & Hl' & Hc'); simpl; auto.
  - intros t' Ht'. destruct (GC t' Ht') as [Hb | Hs]; [|exact Hs].
    rewrite Eb in Hb. inversion Hb.
  - rewrite length_take. lia.
  - intros i tp' Hi. apply lookup_take_Some in Hi as [Hi _].
    rewrite GP in Hi. apply (numbered_lookup_drop _ _ _ Hi).
  - intros t' Ht'. right.
    destruct (GC t' Ht') as [Hb | Hs]; [|exact Hs].
    rewrite Eb in Hb. inversion Hb.
  - destruct (launch_fields (take K (tp :: pend)) st0) as (Hd & Hp & _).
    simpl in Hl'. fold j0 in Hl'.
    constructor; auto.
    + rewrite Hd. exact GD.
    + rewrite Hp, Hl'. simpl pending. rewrite length_take.
      destruct (le_lt_dec K (length (tp :: pend))) as [Hle | Hgt].
      * rewrite Nat.min_l by lia. rewrite GP, drop_drop. reflexivity.
      * rewrite Nat.min_r by lia.
        rewrite drop_ge by lia. symmetry. apply drop_ge.
        assert (Hlen : length (tp :: pend)
                       = (length (numbered tasks) - j0)%nat).
        { rewrite GP, length_drop. reflexivity. }
        lia.
    + rewrite Hp, Hl'. simpl pending. intros Hne.
      rewrite length_take.
      destruct (le_lt_dec (length (tp :: pend)) K) as [Hle | Hgt].
      * exfalso. apply Hne. apply drop_ge. lia.
      * rewrite Nat.min_l by lia.
        replace (j0 + K)%nat with (j0 + 1 * K)%nat by lia.
        rewrite Nat.Div0.mod_add. exact GA.
Qed.

Lemma grouped_run cs w n :
  grouped K tasks (run K no_job cs n (scheduler_init tasks w)).
Proof.
  induction n as [|n IH]; [|simpl; apply grouped_step, IH].
  simpl. constructor; simpl; auto.
  - intros p t rest Heq. destruct p; discriminate.
  - intros _. apply Nat.Div0.mod_0_l.
  - intros t' Ht'. lia.
Qed.

End SchedulerBarrier.

(** * Properties of the scheduler *)

Lemma numbered_fst {R : Type} (tasks : list (prog R)) :
  (numbered tasks).*1 = seq 0 (length tasks).
Proof.
  unfold numbered. rewrite fmap_imap.
  rewrite <- (list_fmap_id (seq 0 (length tasks))).
  apply (imap_seq_0 tasks id).
Qed.

Lemma numbered_elem {R : Type} (tasks : list (prog R)) i p :
  tasks !! i = Some p -> (i, p) ∈ numbered tasks.
Proof.
  intros H. unfold numbered.
  apply (elem_of_lookup_imap_2 (fun i p => (i, p)) _ _ _ H).
Qed.

Lemma no_job_stable {R : Type} c w o d :
  no_job (R := R) (perform c w o).1 d = no_job w d.
Proof. reflexivity. Qed.

(** C7 (batches): for every list of tasks, every positive limit [K] and
    every behaviour of the environment,
    - at every moment of the history at most [K] tasks are in flight;
    - the tasks are called in the order of the list;
    - when a task is called, every task of an earlier group of [K]
      consecutive positions has settled;
    - the loop comes to its end, and then every task has been called and
      has settled, fulfilled or rejected, to the result of a complete
      execution of its own function along its own history, and the
      outcome report has as many entries as there are tasks. *)
Theorem scheduler_batches {R : Type} (K : nat) (tasks : list (prog R))
    (w : world) (cs : nat -> choice) :
  (0 < K)%nat ->
  let st n := run K no_job cs n (scheduler_init tasks w) in
  (forall n,
     (forall tr, tr `prefix_of` trace (st n) -> in_flight tr <= Z.of_nat K) /\
     starts (trace (st n)) `prefix_of` seq 0 (length tasks) /\
     barrier K (trace (st n))) /\
  (exists n,
     final (st n) /\
     starts (trace (st n)) = seq 0 (length tasks) /\
     length (settles (trace (st n))) = length tasks /\
     forall i p, tasks !! i = Some p ->
       exists v, exec p (history i (trace (st n))) v /\
                 (i, v) ∈ settles (trace (st n))).
Proof.
  intros HK st.
  assert (Hnd : NoDup (numbered tasks).*1).
  { rewrite numbered_fst. apply NoDup_seq. }
  assert (HL : forall n, exists started,
               linked no_job (numbered tasks) started [] (st n)).
  { intros n. apply (linked_run K no_job (numbered tasks) Hnd no_job_stable);
      [|reflexivity..].
    unfold todo. simpl. rewrite app_nil_r. reflexivity. }
  assert (HB : forall n, bounded K [] (st n)).
  { intros n. apply bounded_run; reflexivity. }
  split.
  - intros n. split; [apply (bounded_prefix _ _ _ (HB n))|]. split.
    + destruct (HL n) as [started L].
      rewrite (linked_starts _ _ _ _ _ L), <- numbered_fst.
      pose proof (linked_tasks _ _ _ _ _ L) as Ht.
      apply (f_equal (fmap fst)) in Ht. rewrite fmap_app in Ht.
      rewrite Ht. apply prefix_app_r. reflexivity.
    + apply (grouped_barrier _ _ _ (grouped_run K HK tasks cs w n)).
  - destruct (machine_terminates K no_job HK [] (numbered tasks) [] [] w cs)
      as [n Hn]; [constructor|].
    exists n. split; [exact Hn|].
    destruct (HL n) as [started L].
    destruct (linked_final no_job (numbered tasks) started _ L Hn)
      as [Hs Hall].
    split; [rewrite Hs; apply numbered_fst|]. split.
    + pose proof (bounded_now _ _ _ (HB n)) as Hnow.
      assert (Hb : batch (st n) = []) by apply Hn. rewrite Hb in Hnow.
      unfold in_flight in Hnow. rewrite Hs, numbered_fst, length_seq in Hnow.
      simpl in Hnow. lia.
    + intros i p Hi. apply Hall, numbered_elem, Hi.
Qed.

Lemma scheduler_batches_witness :
  let tasks : list (prog nat) :=
    [Ret 1%nat; Throw (js "boom");
     do _ <- await (Mkdir (js "fr")); Ret 2%nat] in
  let cs := fun n : nat => Choice n (Rejected (js "EACCES")) None in
  (0 < 2)%nat /\
  exists n,
    final (run 2 no_job cs n (scheduler_init tasks (World ∅ ∅ ∅))) /\
    length (settles (trace (run 2 no_job cs n
                              (scheduler_init tasks (World ∅ ∅ ∅))))) = 3%nat.
Proof.
  intros tasks cs. split; [lia|].
  destruct (scheduler_batches 2 tasks (World ∅ ∅ ∅) cs ltac:(lia))
    as [_ (n & Hf & _ & Hl & _)].
  exists n. split; [exact Hf | exact Hl].
Defined.

(** * Facts about the environment *)

Lemma write_file_spec c w p data w' r :
  write_file c w p data = (w', r) ->
  sources w' = sources w /\ dirs w' = dirs w /\
  (forall q, is_Some (files w !! q) -> is_Some (files w' !! q)) /\
  (is_rejected r = false -> is_Some (files w' !! p)).
Proof.
  unfold write_file. intros H.
  destruct (bool_decide (p.1 ∈ dirs w)).
  - destruct (answer c) as [v|e].
    + injection H as <- <-. simpl. repeat split; auto.
      * intros q Hq. destruct (decide (p = q)) as [->|Hne].
        -- rewrite lookup_insert_eq. eauto.
        -- rewrite lookup_insert_ne by assumption. exact Hq.
      * intros _. rewrite lookup_insert_eq. eauto.
    + injection H as <- <-. destruct (partial c) as [d|]; simpl;
        repeat split; auto; try discriminate.
      intros q Hq. destruct (decide (p = q)) as [->|Hne].
      * rewrite lookup_insert_eq. eauto.
      * rewrite lookup_insert_ne by assumption. exact Hq.
  - injection H as <- <-. repeat split; auto. discriminate.
Qed.

Lemma perform_spec c w o w' r :
  perform c w o = (w', r) -> perform_spec_of w o w' r.
Proof.
  unfold perform_spec_of.
  intros H. destruct o as [d | p | src dst | text l i ft | p data]; simpl in H.
  - destruct (bool_decide (d ∈ dirs w)) eqn:Ed.
    + apply bool_decide_eq_true in Ed. injection H as <- <-.
      split_and!; auto; try discriminate.
      intros d' [= <-] _. exact Ed.
    + apply bool_decide_eq_false in Ed.
      destruct (answer c) as [v|e]; injection H as <- <-; simpl;
        split_and!; auto; try discriminate; try set_solver.
  - destruct (files w !! p) as [x|] eqn:Ep; injection H as <- <-;
      split_and!; auto; try discriminate.
    + intros p' [= <-] _. rewrite Ep. eauto.
    + intros p' [= <-] [x Hx]. congruence.
  - destruct (sources w !! src) as [data|].
    + apply write_file_spec in H as (Hs & Hd & Hf & Hp).
      split_and!; auto; try discriminate; try set_solver;
        try (intros p' [= <-]; exact Hp).
    + injection H as <- <-. split_and!; auto; discriminate.
  - injection H as <- <-. split_and!; auto; discriminate.
  - apply write_file_spec in H as (Hs & Hd & Hf & Hp).
    split_and!; auto; try discriminate; try set_solver;
      try (intros p' [= <-]; exact Hp).
Qed.

Lemma perform_sources c w o : sources (perform c w o).1 = sources w.
Proof.
  destruct (perform c w o) as [w' r] eqn:E.
  apply perform_spec in E as (Hs & _). exact Hs.
Qed.

Section MachineRecorded.

Context {T R D : Type}.
Variable K : nat.
Variable job : world -> D -> list (T * prog R).
Variable w0 : world.
Implicit Types (st : machine T R D).

Lemma recorded_start_task st tp :
  recorded w0 st -> recorded w0 (start_task st tp).
Proof.
  intros [H1 H2 H3 H4 H5 H6 H7]. unfold start_task.
  destruct (settled_result tp.2); constructor; simpl; auto.
  - intros t d r Hin. apply (H4 t). set_solver.
  - intros t p r Hin. apply (H5 t). set_solver.
  - intros t d r Hin. apply (H6 t). set_solver.
  - intros t o r p Hin. apply (H7 t). set_solver.
  - intros t d r Hin. apply (H4 t). set_solver.
  - intros t p r Hin. apply (H5 t). set_solver.
  - intros t d r Hin. apply (H6 t). set_solver.
  - intros t o r p Hin. apply (H7 t). set_solver.
Qed.

Lemma recorded_launch slice :
  forall st, recorded w0 st -> recorded w0 (launch st slice).
Proof.
  induction slice as [|tp slice IH]; intros st H; [exact H|].
  simpl. apply IH, recorded_start_task, H.
Qed.

Lemma recorded_extend st t o r w' tr' (ds : list D) pend b :
  recorded w0 st ->
  perform_spec_of (env st) o w' r ->
  (forall ev, ev ∈ tr' -> ev = EOp t o r \/ exists v, ev = ESettle t v) ->
  recorded w0 (Machine ds pend b (trace st ++ tr') w').
Proof.
  intros [H1 H2 H3 H4 H5 H6 H7] (Hs & Hd & Hf & Hm & Ha & Hem & Hef) Htr'.
  assert (Hnew : forall t' o' r', EOp t' o' r' ∈ trace st ++ tr' ->
            EOp t' o' r' ∈ trace st \/ (o' = o /\ r' = r)).
  { intros t' o' r' Hin. apply elem_of_app in Hin as [Hin | Hin]; auto.
    destruct (Htr' _ Hin) as [Heq | [v Heq]]; [|discriminate].
    injection Heq as -> -> ->. auto. }
  constructor; simpl.
  - congruence.
  - set_solver.
  - auto.
  - intros t' d r' Hin Hd0.
    destruct (Hnew _ _ _ Hin) as [Hold | [<- <-]]; [eapply H4; eauto|].
    apply (Hm d); auto.
  - intros t' p r' Hin Hp0.
    destruct (Hnew _ _ _ Hin) as [Hold | [<- <-]]; [eapply H5; eauto|].
    apply (Ha p); auto.
  - intros t' d r' Hin Hr'.
    destruct (Hnew _ _ _ Hin) as [Hold | [<- <-]].
    + apply Hd. eapply H6; eauto.
    + apply (Hem d); auto.
  - intros t' o' r' p Hin Hr' Ht.
    destruct (Hnew _ _ _ Hin) as [Hold | [-> ->]].
    + apply Hf. eapply H7; eauto.
    + apply (Hef p); auto.
Qed.

Lemma recorded_step_task c st :
  recorded w0 st -> recorded w0 (step_task c st).
Proof.
  intros H. unfold step_task.
  destruct (batch st !! (pick c mod length (batch st))%nat)
    as [[t p]|]; [|exact H].
  destruct p as [a | e | o k]; try exact H.
  destruct (perform c (env st) o) as [w' r] eqn:Ep.
  apply perform_spec in Ep.
  destruct (settled_result (k r)) as [v|].
  - apply (recorded_extend st t o r); auto.
    intros ev Hin. apply elem_of_cons in Hin as [-> | Hin]; auto.
    apply list_elem_of_singleton in Hin as ->. eauto.
  - apply (recorded_extend st t o r); auto.
    intros ev Hin. apply list_elem_of_singleton in Hin as ->. auto.
Qed.

Lemma recorded_step c st :
  recorded w0 st -> recorded w0 (step K job c st).
Proof.
  intros H. unfold step.
  destruct (batch st); [|apply recorded_step_task, H].
  destruct (pending st).
  - destruct (docs st); [exact H|].
    destruct H as [H1 H2 H3 H4 H5 H6 H7]. constructor; auto.
  - apply recorded_launch.
    destruct H as [H1 H2 H3 H4 H5 H6 H7]. constructor; auto.
Qed.

Lemma recorded_run cs st :
  env st = w0 -> trace st = [] ->
  forall n, recorded w0 (run K job cs n st).
Proof.
  intros He Htr. induction n as [|n IH]; [|simpl; apply recorded_step, IH].
  simpl. constructor; rewrite ?He, ?Htr; auto;
    intros; match goal with H : _ ∈ [] |- _ => inversion H end.
Qed.

End MachineRecorded.

(** * Consequences of the histories of a task *)

Lemma translated_elem ts o r :
  Forall translated ts -> (o, r) ∈ ts ->
  is_translate o = true /\ is_rejected r = false /\ is_write o = false.
Proof.
  intros Hall Hin.
  destruct (proj1 (Forall_forall _ _) Hall _ Hin) as [Ht Hr]. simpl in *.
  repeat split; auto. destruct o; simpl in *; congruence.
Qed.

Ltac elem_cases H :=
  repeat (apply elem_of_cons in H as [H | H]);
  try (apply elem_of_nil in H; contradiction).

Section HistoryFacts.

Variables (s : bool) (l f : jsstring).
Implicit Types (h : list (op * result)) (st : option (outcome + error)).

(** A refused translation ends the task as [Failed], with nothing
    written. *)
Lemma work_history_rejected h st o e :
  work_history l f h st ->
  (o, Rejected e) ∈ h -> is_translate o = true ->
  st = Some (inl (Failed e)) /\
  (forall o' r', (o', r') ∈ h -> is_write o' = false).
Proof.
  intros H Hin Ho.
  destruct H as [ts Hts | ts o1 e1 Hts Ho1 | ts d v Hts | ts d e1 Hts].
  - destruct (translated_elem _ _ _ Hts Hin) as (_ & Hr & _). discriminate.
  - apply elem_of_app in Hin as [Hin | Hin].
    { destruct (translated_elem _ _ _ Hts Hin) as (_ & Hr & _).
      discriminate. }
    apply list_elem_of_singleton in Hin. simplify_eq/=.
    split; [reflexivity|]. intros o' r' Hin'.
    apply elem_of_app in Hin' as [Hin' | Hin'].
    + apply (translated_elem _ _ _ Hts Hin').
    + apply list_elem_of_singleton in Hin'. simplify_eq/=.
      match goal with
      | |- is_write ?x = false => destruct x; simpl in *; congruence
      end.
  - apply elem_of_app in Hin as [Hin | Hin].
    { destruct (translated_elem _ _ _ Hts Hin) as (_ & Hr & _).
      discriminate. }
    apply list_elem_of_singleton in Hin. discriminate.
  - apply elem_of_app in Hin as [Hin | Hin].
    { destruct (translated_elem _ _ _ Hts Hin) as (_ & Hr & _).
      discriminate. }
    apply list_elem_of_singleton in Hin. simplify_eq/=.
Qed.

Lemma task_history_rejected h st o e :
  task_history s l f h st ->
  (o, Rejected e) ∈ h -> is_translate o = true ->
  st = Some (inl (Failed e)) /\
  (forall o' r', (o', r') ∈ h -> is_write o' = false).
Proof.
  intros H Hin Ho.
  destruct H as [| | | | | | | | v0 e0 ws st Hs Hl Hwork];
    elem_cases Hin; simplify_eq/=.
  destruct (work_history_rejected _ _ _ _ Hwork Hin Ho) as [-> Hw].
  split; [reflexivity|]. intros o' r' Hin'.
  apply elem_of_cons in Hin' as [Hin' | Hin']; [simplify_eq/=; auto|].
  apply elem_of_cons in Hin' as [Hin' | Hin']; [simplify_eq/=; auto|].
  eapply Hw, Hin'.
Qed.

(** A task never throws: its promise is never rejected. *)
Lemma task_history_fulfilled h e :
  ~ task_history s l f h (Some (inr e)).
Proof.
  intros H. remember (Some (inr e)) as st eqn:E.
  destruct H as [| | | | | | | | v e0 ws st Hs Hl Hwork];
    try discriminate E.
  destruct Hwork; discriminate E.
Qed.

(** The target file is there: the task stops at the existence test. *)
Lemma task_history_exists h st :
  task_history s l f h st ->
  (forall r, (Mkdir l, r) ∈ h -> is_rejected r = false) ->
  (forall r, (Access (l, f), r) ∈ h -> is_rejected r = false) ->
  (forall o r, (o, r) ∈ h -> is_translate o = false /\ is_write o = false)
  /\ (forall v, st = Some v -> v = inl SkippedExists).
Proof.
  intros H Hm Ha.
  destruct H;
    try (specialize (Hm (Rejected e) ltac:(set_solver)); discriminate);
    try (specialize (Ha (Rejected e) ltac:(set_solver)); discriminate).
  - split; [|discriminate]. intros o r Hin. inversion Hin.
  - split; [|discriminate]. intros o r Hin. elem_cases Hin.
    simplify_eq/=. auto.
  - split; [|intros v0 [= <-]; reflexivity].
    intros o r Hin. elem_cases Hin; simplify_eq/=; auto.
Qed.

(** The instruction is the sentinel: the task stops at the latest after
    the existence test. *)
Lemma task_history_sentinel h st :
  task_history s l f h st -> s = true ->
  (forall r, (Mkdir l, r) ∈ h -> is_rejected r = false) ->
  (forall o r, (o, r) ∈ h -> is_translate o = false /\ is_write o = false)
  /\ (forall v, st = Some v ->
                v = inl SkippedExists \/ v = inl SkippedNoTranslate).
Proof.
  intros H Hs Hm.
  destruct H; try congruence;
    try (specialize (Hm (Rejected e) ltac:(set_solver)); discriminate).
  - split; [|discriminate]. intros o r Hin. inversion Hin.
  - split; [|discriminate]. intros o r Hin. elem_cases Hin.
    simplify_eq/=. auto.
  - split; [|intros v0 [= <-]; auto].
    intros o r Hin. elem_cases Hin; simplify_eq/=; auto.
  - split; [|intros v0 [= <-]; auto].
    intros o r Hin. elem_cases Hin; simplify_eq/=; auto.
Qed.

(** A task that did not fail made its directory, and found, copied or
    wrote its target file unless its instruction is the sentinel. *)
Lemma task_history_success h o :
  task_history s l f h (Some (inl o)) ->
  (forall e, o <> Failed e) ->
  (exists r, (Mkdir l, r) ∈ h /\ is_rejected r = false) /\
  (s = true \/
   exists o' r, (o', r) ∈ h /\ is_rejected r = false /\
                target o' = Some (l, f)).
Proof.
  intros H Ho. remember (Some (inl o)) as st eqn:E.
  destruct H as [| e | v | v v' | v e Hs | v e Hs Hl | v e v' Hs Hl
                 | v e e' Hs Hl | v e ws st Hs Hl Hwork];
    try discriminate E;
    try (injection E as <-);
    try (exfalso; eapply Ho; reflexivity).
  - split; [exists (Fulfilled v); split; [set_solver | reflexivity]|].
    right. exists (Access (l, f)), (Fulfilled v').
    split; [set_solver | split; reflexivity].
  - split; [exists (Fulfilled v); split; [set_solver | reflexivity]|].
    left. exact Hs.
  - split; [exists (Fulfilled v); split; [set_solver | reflexivity]|].
    right. exists (CopyFile f (l, f)), (Fulfilled v').
    split; [set_solver | split; reflexivity].
  - split; [exists (Fulfilled v); split; [set_solver | reflexivity]|].
    destruct Hwork as [ts Hts | ts o1 e1 Hts Ho1 | ts d v1 Hts
                       | ts d e1 Hts];
      try discriminate E;
      try (injection E as <-);
      try (exfalso; eapply Ho; reflexivity).
    right. exists (WriteFile (l, f) d), (Fulfilled v1).
    split; [set_solver | split; reflexivity].
Qed.

Lemma task_history_no_translate h :
  task_history s l f h (Some (inl SkippedNoTranslate)) -> s = true.
Proof.
  intros H. remember (Some (inl SkippedNoTranslate)) as st eqn:E.
  destruct H as [| | | | v e Hs | | | | v e ws st Hs Hl Hwork];
    try discriminate E; [exact Hs|].
  destruct Hwork; discriminate E.
Qed.

End HistoryFacts.

(** * Facts about the main loop *)

Section MainFacts.

Variable toLowerCase : jsstring -> jsstring.
Variable formats : list (jsstring * jsstring).
Variable pfiles : list (jsstring * file_type).
Hypothesis files_nodup : NoDup pfiles.*1.
Hypothesis formats_nodup : NoDup formats.*1.

Let job := translationTasks toLowerCase formats.

Lemma translationTasks_stable c w o d :
  job (perform c w o).1 d = job w d.
Proof.
  unfold job, translationTasks. rewrite perform_sources. reflexivity.
Qed.

Lemma translationTasks_sources w w' d :
  sources w' = sources w -> job w' d = job w d.
Proof. intros H. unfold job, translationTasks. rewrite H. reflexivity. Qed.

Lemma job_elem w d t p :
  (t, p) ∈ job w d <->
  exists text l i,
    sources w !! d.1 = Some text /\ (l, i) ∈ formats /\
    t = (d.1, l) /\ p = task toLowerCase d.1 text d.2 l i.
Proof.
  unfold job, translationTasks.
  destruct (sources w !! d.1) as [text|]; split.
  - intros Hin. apply list_elem_of_fmap in Hin as ([l i] & Heq & Hin).
    simpl in Heq. injection Heq as -> ->. exists text, l, i. auto.
  - intros (text' & l & i & [= <-] & Hin & -> & ->).
    apply list_elem_of_fmap. exists (l, i). auto.
  - intros Hin. inversion Hin.
  - intros (text' & l & i & Hs & _). discriminate.
Qed.

Lemma main_tasks_elem w t p :
  (t, p) ∈ main_tasks toLowerCase formats pfiles w <->
  exists file ft text l i,
    (file, ft) ∈ pfiles /\ sources w !! file = Some text /\
    (l, i) ∈ formats /\
    t = (file, l) /\ p = task toLowerCase file text ft l i.
Proof.
  unfold main_tasks, todo, main_init. simpl. fold job.
  rewrite list_elem_of_In, in_concat. split.
  - intros (ts & Hts & Hin). apply list_elem_of_In in Hts, Hin.
    apply list_elem_of_fmap in Hts as ([file ft] & -> & Hd).
    apply job_elem in Hin as (text & l & i & Hs & Hf & -> & ->).
    exists file, ft, text, l, i. auto.
  - intros (file & ft & text & l & i & Hd & Hs & Hf & -> & ->).
    exists (job w (file, ft)). split; apply list_elem_of_In.
    + apply list_elem_of_fmap. exists (file, ft). auto.
    + apply job_elem. exists text, l, i. auto.
Qed.

Lemma job_keys w d t :
  t ∈ (job w d).*1 -> t.1 = d.1 /\ t.2 ∈ formats.*1.
Proof.
  intros Hin. apply list_elem_of_fmap in Hin as ([t' p] & -> & Hin).
  apply job_elem in Hin as (text & l & i & _ & Hf & -> & _). simpl.
  split; [reflexivity|]. apply list_elem_of_fmap. exists (l, i). auto.
Qed.

Lemma job_nodup w d : NoDup (job w d).*1.
Proof.
  unfold job, translationTasks.
  destruct (sources w !! d.1) as [text|]; [|constructor].
  rewrite <- list_fmap_compose.
  rewrite (list_fmap_ext _ (pair d.1 ∘ fst) formats)
    by (intros; reflexivity).
  rewrite list_fmap_compose. apply NoDup_fmap_2; [|exact formats_nodup].
  intros x y [= ->]. reflexivity.
Qed.

Lemma main_tasks_nodup w :
  NoDup (main_tasks toLowerCase formats pfiles w).*1.
Proof.
  unfold main_tasks, todo, main_init. simpl. fold job.
  clear -files_nodup formats_nodup.
  induction pfiles as [|d ds IH]; [constructor|].
  simpl. rewrite fmap_app. simpl in files_nodup.
  apply NoDup_cons in files_nodup as [Hd Hds].
  apply NoDup_app. split; [apply job_nodup|]. split; [|apply IH, Hds].
  intros t Hin Hin'. apply job_keys in Hin as [Ht _].
  apply list_elem_of_fmap in Hin' as ([t' p] & -> & Hin').
  apply list_elem_of_In, in_concat in Hin' as (ts & Hts & Hin').
  apply list_elem_of_In in Hts, Hin'.
  apply list_elem_of_fmap in Hts as (d' & -> & Hd').
  apply job_elem in Hin' as (text & l & i & _ & _ & -> & _).
  simpl in Ht. apply Hd. rewrite <- Ht.
  apply list_elem_of_fmap. exists d'. auto.
Qed.

End MainFacts.

(** * Properties of the orchestrator *)

Section MainLinked.

Variable toLowerCase : jsstring -> jsstring.
Variable formats : list (jsstring * jsstring).
Variable pfiles : list (jsstring * file_type).
Hypothesis files_nodup : NoDup pfiles.*1.
Hypothesis formats_nodup : NoDup formats.*1.
Variable w : world.
Variable cs : nat -> choice.

Let st (n : nat) := main_run toLowerCase formats pfiles w cs n.
Let tasks := main_tasks toLowerCase formats pfiles w.

Lemma main_linked n :
  exists started,
    linked (translationTasks toLowerCase formats) tasks started [] (st n).
Proof.
  apply linked_run; try reflexivity.
  - apply main_tasks_nodup; assumption.
  - apply translationTasks_stable.
Qed.

(** The history of a started task of [main] is a history of its
    function; the task is suspended while it is in the batch, and it
    has settled, in the outcome report, once it is not. *)
Lemma main_task_history n t :
  t ∈ starts (trace (st n)) ->
  exists file ft text l i,
    (file, ft) ∈ pfiles /\ sources w !! file = Some text /\
    (l, i) ∈ formats /\ t = (file, l) /\
    ((t ∈ (batch (st n)).*1 /\
      task_history (bool_decide (toLowerCase i = DONT_TRANSLATE)) l file
        (history t (trace (st n))) None) \/
     (exists v, (t, v) ∈ settles (trace (st n)) /\
        exec (task toLowerCase file text ft l i)
          (history t (trace (st n))) v /\
        task_history (bool_decide (toLowerCase i = DONT_TRANSLATE)) l file
          (history t (trace (st n))) (Some v))).
Proof.
  intros Hstart. destruct (main_linked n) as [started L].
  rewrite (linked_starts _ _ _ _ _ L) in Hstart.
  apply list_elem_of_fmap in Hstart as ([t' p] & -> & Hp). simpl.
  assert (Hin : (t', p) ∈ tasks).
  { rewrite (linked_tasks _ _ _ _ _ L). apply elem_of_app. auto. }
  apply main_tasks_elem in Hin
    as (file & ft & text & l & i & Hf & Hs & Hl & -> & ->).
  exists file, ft, text, l, i. do 4 (split; [auto|]).
  destruct (decide ((file, l) ∈ (batch (st n)).*1)) as [Hb | Hnb].
  - left. split; [exact Hb|].
    apply list_elem_of_fmap in Hb as ([t' q] & Heq & Hq).
    simpl in Heq. subst t'.
    destruct (linked_batch _ _ _ _ _ L _ _ Hq) as (Hq' & p' & Hp' & Hr).
    assert (p' = task toLowerCase file text ft l i) as ->
      by (eapply started_function; eauto using main_tasks_nodup).
    rewrite <- Hq'. apply (task_runs_history _ _ _ _ _ _ _ _ Hr).
  - right.
    destruct (linked_settled _ _ _ _ _ L _ _ Hp Hnb) as (v & He & Hv).
    exists v. do 2 (split; [auto|]).
    destruct He as (q & Hr & Hq). rewrite <- Hq.
    apply (task_runs_history _ _ _ _ _ _ _ _ Hr).
Qed.

(** Every entry of the outcome report of [main] is the result of a
    complete execution of the function of its task. *)
Lemma main_report n t v :
  (t, v) ∈ settles (trace (st n)) ->
  exists file ft text l i,
    (file, ft) ∈ pfiles /\ sources w !! file = Some text /\
    (l, i) ∈ formats /\ t = (file, l) /\
    task_history (bool_decide (toLowerCase i = DONT_TRANSLATE)) l file
      (history t (trace (st n))) (Some v).
Proof.
  intros Hv. destruct (main_linked n) as [started L].
  destruct (linked_report _ _ _ _ _ L _ _ Hv) as (_ & p & Hp & He).
  assert (Hin : (t, p) ∈ tasks).
  { rewrite (linked_tasks _ _ _ _ _ L). apply elem_of_app. auto. }
  apply main_tasks_elem in Hin
    as (file & ft & text & l & i & Hf & Hs & Hl & -> & ->).
  exists file, ft, text, l, i. do 4 (split; [auto|]).
  destruct He as (q & Hr & Hq). rewrite <- Hq.
  apply (task_runs_history _ _ _ _ _ _ _ _ Hr).
Qed.

Lemma main_op_started n t o r :
  EOp t o r ∈ trace (st n) -> t ∈ starts (trace (st n)).
Proof.
  intros Hin. destruct (main_linked n) as [started L].
  rewrite (linked_starts _ _ _ _ _ L). eapply linked_ops; eassumption.
Qed.

(** At the end every task of every readable file has been called and
    has settled. *)
Lemma main_final n :
  final (st n) ->
  forall file ft text l i,
    (file, ft) ∈ pfiles -> sources w !! file = Some text ->
    (l, i) ∈ formats ->
    (file, l) ∈ starts (trace (st n)) /\
    exists o, ((file, l), inl o) ∈ settles (trace (st n)) /\
              exec (task toLowerCase file text ft l i)
                (history (file, l) (trace (st n))) (inl o).
Proof.
  intros Hn file ft text l i Hf Hs Hl.
  destruct (main_linked n) as [started L].
  destruct (linked_final _ _ _ _ L Hn) as [Hst Hall].
  assert (Hin : ((file, l), task toLowerCase file text ft l i) ∈ tasks).
  { apply main_tasks_elem. exists file, ft, text, l, i. auto. }
  split.
  - fold (st n) in Hst. rewrite Hst.
    apply list_elem_of_fmap. eexists. split; [|exact Hin]. reflexivity.
  - destruct (Hall _ _ Hin) as (v & He & Hv).
    destruct v as [o | e]; [exists o; auto|].
    exfalso. destruct He as (q & Hr & Hq).
    apply task_runs_history in Hr. rewrite Hq in Hr.
    eapply task_history_fulfilled, Hr.
Qed.

(** Whatever fails, the run comes to its end. *)
Lemma main_terminates : exists n, final (st n).
Proof.
  apply (machine_terminates CONCURRENCY_LIMIT
           (translationTasks toLowerCase formats)
           ltac:(unfold CONCURRENCY_LIMIT; lia)
           pfiles [] [] [] w cs).
  constructor.
Qed.

Lemma main_completes :
  exists n, final (st n) /\
    forall file ft text l i,
      (file, ft) ∈ pfiles -> sources w !! file = Some text ->
      (l, i) ∈ formats ->
      (file, l) ∈ starts (trace (st n)) /\
      exists o, ((file, l), inl o) ∈ settles (trace (st n)) /\
                exec (task toLowerCase file text ft l i)
                  (history (file, l) (trace (st n))) (inl o).
Proof.
  destruct main_terminates as [n Hn]. exists n.
  split; [exact Hn | apply main_final, Hn].
Qed.

Lemma main_recorded n : recorded w (st n).
Proof. apply recorded_run; reflexivity. Qed.

(** The answers to a task whose language directory exists at the
    start, and whose target file exists at the start. *)
Lemma main_mkdir_fulfilled n file l r :
  l ∈ dirs w ->
  (Mkdir l, r) ∈ history (file, l) (trace (st n)) -> is_rejected r = false.
Proof.
  intros Hd Hin. apply elem_of_history in Hin.
  eapply (ans_mkdir _ _ (main_recorded n)); eassumption.
Qed.

Lemma main_access_fulfilled n file l r :
  is_Some (files w !! (l, file)) ->
  (Access (l, file), r) ∈ history (file, l) (trace (st n)) ->
  is_rejected r = false.
Proof.
  intros Hd Hin. apply elem_of_history in Hin.
  eapply (ans_access _ _ (main_recorded n)); eassumption.
Qed.

(** A task whose target file exists at the start is skipped. *)
Lemma main_skips_present n file l :
  l ∈ dirs w -> is_Some (files w !! (l, file)) ->
  (forall o r, EOp (file, l) o r ∈ trace (st n) ->
               is_translate o = false /\ is_write o = false) /\
  (forall v, ((file, l), v) ∈ settles (trace (st n)) ->
             v = inl SkippedExists).
Proof.
  intros Hd Hp. split.
  - intros o r Hin.
    destruct (main_task_history n _ (main_op_started _ _ _ _ Hin))
      as (file' & ft & text & l' & i & _ & _ & _ & [= <- <-] & Hcase).
    apply elem_of_history in Hin.
    destruct Hcase as [[_ Hh] | (v & _ & _ & Hh)];
      eapply (task_history_exists _ _ _ _ _ Hh);
      eauto using main_mkdir_fulfilled, main_access_fulfilled.
  - intros v Hv.
    destruct (main_report n _ _ Hv)
      as (file' & ft & text & l' & i & _ & _ & _ & [= <- <-] & Hh).
    eapply (task_history_exists _ _ _ _ _ Hh);
      eauto using main_mkdir_fulfilled, main_access_fulfilled.
Qed.

(** A task whose language directory exists at the start and whose
    instruction is the sentinel is skipped. *)
Lemma main_skips_sentinel n file l i :
  l ∈ dirs w -> (l, i) ∈ formats -> toLowerCase i = DONT_TRANSLATE ->
  (forall o r, EOp (file, l) o r ∈ trace (st n) ->
               is_translate o = false /\ is_write o = false) /\
  (forall v, ((file, l), v) ∈ settles (trace (st n)) ->
             v = inl SkippedExists \/ v = inl SkippedNoTranslate).
Proof.
  intros Hd Hl Hi.
  assert (Hsame : forall i', (l, i') ∈ formats ->
            bool_decide (toLowerCase i' = DONT_TRANSLATE) = true).
  { intros i' Hl'. apply bool_decide_eq_true.
    assert (i' = i) as ->; [|exact Hi].
    apply list_elem_of_lookup in Hl as [a Ha].
    apply list_elem_of_lookup in Hl' as [b Hb].
    assert (b = a) as -> by (eapply keyed_lookup_inj; eassumption).
    congruence. }
  split.
  - intros o r Hin.
    destruct (main_task_history n _ (main_op_started _ _ _ _ Hin))
      as (file' & ft & text & l' & i' & _ & _ & Hl' & [= <- <-] & Hcase).
    apply elem_of_history in Hin.
    destruct Hcase as [[_ Hh] | (v & _ & _ & Hh)];
      eapply (task_history_sentinel _ _ _ _ _ Hh);
      eauto using main_mkdir_fulfilled.
  - intros v Hv.
    destruct (main_report n _ _ Hv)
      as (file' & ft & text & l' & i' & _ & _ & Hl' & [= <- <-] & Hh).
    eapply (task_history_sentinel _ _ _ _ _ Hh);
      eauto using main_mkdir_fulfilled.
Qed.

(** What a run without a failed task leaves behind. *)
Lemma main_success_leaves n file ft text l i :
  final (st n) ->
  (forall t e, (t, inl (Failed e)) ∉ settles (trace (st n))) ->
  (file, ft) ∈ pfiles -> sources w !! file = Some text ->
  (l, i) ∈ formats ->
  l ∈ dirs (env (st n)) /\
  (toLowerCase i = DONT_TRANSLATE \/
   is_Some (files (env (st n)) !! (l, file))).
Proof.
  intros Hn Hok Hf Hs Hl.
  destruct (main_final n Hn _ _ _ _ _ Hf Hs Hl) as (_ & o & Hv & He).
  destruct He as (q & Hr & Hq).
  apply task_runs_history in Hr. rewrite Hq in Hr.
  apply task_history_success in Hr as ((r & Hm & Hmr) & Hcase).
  2:{ intros e ->. eapply Hok, Hv. }
  split.
  - apply elem_of_history in Hm.
    eapply (eff_mkdir _ _ (main_recorded n)); eassumption.
  - destruct Hcase as [Hsent | (o' & r' & Hin & Hr' & Ht)].
    + left. apply bool_decide_eq_true in Hsent. exact Hsent.
    + right. apply elem_of_history in Hin.
      eapply (eff_file _ _ (main_recorded n)); eassumption.
Qed.

End MainLinked.

(** C6 (isolation of a failed translation): in every run of [main], at
    every moment, a task one of whose translation requests was rejected
    has awaited no write and no copy of an output file, before or after,
    and has settled on the [catch] path with the error of that request;
    and, whatever fails, the run comes to its end with every task of
    every readable file called and settled (fulfilled: a task never
    throws) to the result of a complete execution of its own function
    along its own history. *)
Theorem translation_failure_isolated
    (toLowerCase : jsstring -> jsstring)
    (formats : list (jsstring * jsstring))
    (pfiles : list (jsstring * file_type))
    (w : world) (cs : nat -> choice) :
  NoDup pfiles.*1 -> NoDup formats.*1 ->
  let st := main_run toLowerCase formats pfiles w cs in
  (forall n t o e,
     EOp t o (Rejected e) ∈ trace (st n) -> is_translate o = true ->
     (forall o' r', EOp t o' r' ∈ trace (st n) -> is_write o' = false) /\
     (t, inl (Failed e)) ∈ settles (trace (st n))) /\
  (exists n, final (st n) /\
     forall file ft text l i,
       (file, ft) ∈ pfiles -> sources w !! file = Some text ->
       (l, i) ∈ formats ->
       (file, l) ∈ starts (trace (st n)) /\
       exists o, ((file, l), inl o) ∈ settles (trace (st n)) /\
                 exec (task toLowerCase file text ft l i)
                   (history (file, l) (trace (st n))) (inl o)).
Proof.
  intros Hfiles Hformats st. split.
  - intros n t o e Hin Ho.
    pose proof (main_op_started _ _ _ Hfiles Hformats w cs n _ _ _ Hin)
      as Hstart.
    destruct (main_task_history _ _ _ Hfiles Hformats w cs n t Hstart)
      as (file & ft & text & l & i & _ & _ & _ & -> & Hcase).
    apply elem_of_history in Hin.
    destruct Hcase as [[_ Hh] | (v & Hv & _ & Hh)].
    + destruct (task_history_rejected _ _ _ _ _ _ _ Hh Hin Ho) as [Heq _].
      discriminate.
    + destruct (task_history_rejected _ _ _ _ _ _ _ Hh Hin Ho) as [Heq Hw].
      injection Heq as ->. split; [|exact Hv].
      intros o' r' Hin'. apply elem_of_history in Hin'. eapply Hw, Hin'.
  - apply main_completes; assumption.
Qed.

Lemma translation_failure_isolated_witness :
  let formats := [(js "de", js "formal"); (js "fr", js "formal")] in
  let pfiles := [(js "a.md", markdown); (js "b.html", html)] in
  let w := World {[ js "a.md" := js "hello"; js "b.html" := js "<p>hi</p>" ]}
             ∅ ∅ in
  let cs := fun n : nat =>
    Choice n (if Nat.even n then Rejected (js "503")
              else Fulfilled (js "salut")) None in
  NoDup pfiles.*1 /\ NoDup formats.*1 /\
  exists n,
    final (main_run ascii_toLowerCase formats pfiles w cs n).
Proof.
  intros formats pfiles w cs.
  assert (H1 : NoDup pfiles.*1) by (apply (bool_decide_unpack _); vm_compute; exact I).
  assert (H2 : NoDup formats.*1) by (apply (bool_decide_unpack _); vm_compute; exact I).
  split; [exact H1|]. split; [exact H2|].
  destruct (translation_failure_isolated ascii_toLowerCase formats pfiles w
              cs H1 H2) as [_ (n & Hf & _)].
  exists n. exact Hf.
Defined.

(** C5 (resumability), as the code has it.
    - In every run, a task whose target file exists at the start (in an
      existing language directory) awaits no translation, no write and no
      copy, and is reported as skipped because the file exists.
    - After a run that reached its end without a failed task, a second
      run on the same files and formats, started in the world the first
      run left, awaits no translation, no write and no copy at any
      moment; every entry of its outcome report is a skip, because the
      file exists or because the instruction is the sentinel; it comes
      to its end, and then every task is reported, as skipped because
      the file exists, or as skipped by the sentinel instruction. *)
Theorem resumable_second_run
    (toLowerCase : jsstring -> jsstring)
    (formats : list (jsstring * jsstring))
    (pfiles : list (jsstring * file_type)) :
  NoDup pfiles.*1 -> NoDup formats.*1 ->
  (forall w cs n file l,
     well_formed w -> is_Some (files w !! (l, file)) ->
     let st := main_run toLowerCase formats pfiles w cs n in
     (forall o r, EOp (file, l) o r ∈ trace st ->
                  is_translate o = false /\ is_write o = false) /\
     (forall v, ((file, l), v) ∈ settles (trace st) ->
                v = inl SkippedExists)) /\
  (forall w0 cs1 n1 cs2,
     let st1 := main_run toLowerCase formats pfiles w0 cs1 n1 in
     final st1 ->
     (forall t e, (t, inl (Failed e)) ∉ settles (trace st1)) ->
     let st2 := main_run toLowerCase formats pfiles (env st1) cs2 in
     (forall n t o r, EOp t o r ∈ trace (st2 n) ->
                      is_translate o = false /\ is_write o = false) /\
     (forall n t v, (t, v) ∈ settles (trace (st2 n)) ->
                    v = inl SkippedExists \/ v = inl SkippedNoTranslate) /\
     (exists n, final (st2 n) /\
        forall file ft text l i,
          (file, ft) ∈ pfiles -> sources w0 !! file = Some text ->
          (l, i) ∈ formats ->
          ((file, l), inl SkippedExists) ∈ settles (trace (st2 n)) \/
          (((file, l), inl SkippedNoTranslate) ∈ settles (trace (st2 n)) /\
           toLowerCase i = DONT_TRANSLATE))).
Proof.
  intros Hfiles Hformats. split.
  - intros w cs n file l Hwf Hp st.
    apply (main_skips_present toLowerCase formats pfiles Hfiles Hformats); [|exact Hp].
    apply (Hwf _ Hp).
  - intros w0 cs1 n1 cs2 st1 Hfin Hok st2.
    pose proof (rec_sources _ _
                  (main_recorded toLowerCase formats pfiles w0 cs1 n1))
      as Hsrc.
    fold st1 in Hsrc.
    assert (Hleft : forall file ft text l i,
              (file, ft) ∈ pfiles -> sources (env st1) !! file = Some text ->
              (l, i) ∈ formats ->
              l ∈ dirs (env st1) /\
              (toLowerCase i = DONT_TRANSLATE \/
               is_Some (files (env st1) !! (l, file)))).
    { intros file ft text l i Hf Hs Hl. rewrite Hsrc in Hs.
      apply (main_success_leaves toLowerCase formats pfiles Hfiles Hformats w0 cs1 n1
               file ft text l i); assumption. }
    assert (Hskip : forall n file ft text l i,
              (file, ft) ∈ pfiles -> sources (env st1) !! file = Some text ->
              (l, i) ∈ formats ->
              (forall o r, EOp (file, l) o r ∈ trace (st2 n) ->
                           is_translate o = false /\ is_write o = false) /\
              (forall v, ((file, l), v) ∈ settles (trace (st2 n)) ->
                 v = inl SkippedExists \/ v = inl SkippedNoTranslate)).
    { intros n file ft text l i Hf Hs Hl.
      destruct (Hleft _ _ _ _ _ Hf Hs Hl) as [Hd [Hsent | Hp]].
      - apply (main_skips_sentinel toLowerCase formats pfiles Hfiles Hformats _ _ _ _ _ i);
          assumption.
      - destruct (main_skips_present toLowerCase formats pfiles Hfiles Hformats (env st1) cs2
                    n file l Hd Hp) as [H1 H2].
        split; [exact H1|]. intros v Hv. left. apply H2, Hv. }
    split; [|split].
    + intros n t o r Hin.
      destruct (main_task_history toLowerCase formats pfiles Hfiles Hformats (env st1) cs2 n t
                  (main_op_started toLowerCase formats pfiles Hfiles Hformats _ _ _ _ _ _ Hin))
        as (file & ft & text & l & i & Hf & Hs & Hl & -> & _).
      eapply (proj1 (Hskip n _ _ _ _ _ Hf Hs Hl)), Hin.
    + intros n t v Hv.
      destruct (main_report toLowerCase formats pfiles Hfiles Hformats (env st1) cs2 n t v Hv)
        as (file & ft & text & l & i & Hf & Hs & Hl & -> & _).
      eapply (proj2 (Hskip n _ _ _ _ _ Hf Hs Hl)), Hv.
    + destruct (main_terminates toLowerCase formats pfiles (env st1) cs2)
        as [n Hn].
      exists n. split; [exact Hn|].
      intros file ft text l i Hf Hs Hl. rewrite <- Hsrc in Hs.
      destruct (main_final toLowerCase formats pfiles Hfiles Hformats (env st1) cs2 n Hn
                  _ _ _ _ _ Hf Hs Hl) as (_ & o & Hv & He).
      destruct (proj2 (Hskip n _ _ _ _ _ Hf Hs Hl) _ Hv) as [Ho | Ho];
        injection Ho as ->; [left; exact Hv|].
      right. split; [exact Hv|].
      destruct He as (q & Hr & Hq).
      apply task_runs_history in Hr. rewrite Hq in Hr.
      apply task_history_no_translate in Hr.
      apply bool_decide_eq_true in Hr. exact Hr.
Qed.

Lemma none_failed_spec report :
  none_failed report = true ->
  forall t e, (t, inl (Failed e)) ∉ report.
Proof.
  unfold none_failed. rewrite forallb_forall. intros H t e Hin.
  apply list_elem_of_In in Hin. apply H in Hin. discriminate.
Qed.

Lemma resumable_second_run_witness :
  let formats := [(js "fr", js "formal"); (js "de", js "Don't Translate")] in
  NoDup one_file.*1 /\ NoDup formats.*1 /\
  let st1 := main_run ascii_toLowerCase formats one_file one_file_world
               all_fulfilled 8%nat in
  forall n t o r,
    EOp t o r ∈ trace (main_run ascii_toLowerCase formats one_file (env st1)
                         all_fulfilled n) ->
    is_translate o = false /\ is_write o = false.
Proof.
  intros formats.
  assert (H1 : NoDup one_file.*1)
    by (apply (bool_decide_unpack _); vm_compute; exact I).
  assert (H2 : NoDup formats.*1)
    by (apply (bool_decide_unpack _); vm_compute; exact I).
  split; [exact H1|]. split; [exact H2|]. intros st1.
  refine (proj1 (proj2 (resumable_second_run ascii_toLowerCase formats
                          one_file H1 H2) one_file_world all_fulfilled 8%nat
                   all_fulfilled _ _)).
  - repeat split; vm_compute; reflexivity.
  - apply none_failed_spec. vm_compute. reflexivity.
Defined.

(** C5 as it is stated fails on the code, in two ways.  After a first
    run in which a translation request was refused, the second run calls
    the translation service again; and a task whose instruction is the
    sentinel never has a target file, so that in the second run it is
    again reported as skipped by the instruction, not as skipped because
    its file exists. *)
Lemma second_run_counterexample :
  ~ (forall formats pfiles w0 cs1 n1 cs2 n2,
       NoDup pfiles.*1 -> NoDup formats.*1 ->
       let st1 := main_run ascii_toLowerCase formats pfiles w0 cs1 n1 in
       final st1 ->
       let st2 := main_run ascii_toLowerCase formats pfiles (env st1) cs2 n2 in
       final st2 ->
       forall t o r, EOp t o r ∈ trace st2 -> is_translate o = false) /\
  ~ (forall formats pfiles w0 cs1 n1 cs2 n2,
       NoDup pfiles.*1 -> NoDup formats.*1 ->
       let st1 := main_run ascii_toLowerCase formats pfiles w0 cs1 n1 in
       final st1 ->
       let st2 := main_run ascii_toLowerCase formats pfiles (env st1) cs2 n2 in
       final st2 ->
       forall t v, (t, v) ∈ settles (trace st2) -> v = inl SkippedExists).
Proof.
  split; intros H.
  - specialize (H [(js "fr", js "formal")] one_file one_file_world
                  translation_refused 5%nat all_fulfilled 6%nat).
    assert (Hcall : is_translate
              (TranslateText (js "hello") (js "fr") (js "formal") markdown)
            = false).
    { eapply (H ltac:(apply (bool_decide_unpack _); vm_compute; exact I)
                ltac:(apply (bool_decide_unpack _); vm_compute; exact I)).
      - repeat split; vm_compute; reflexivity.
      - repeat split; vm_compute; reflexivity.
      - apply (list_elem_of_lookup_2 _ 3%nat). vm_compute. reflexivity. }
    discriminate.
  - specialize (H [(js "de", js "Don't Translate")] one_file one_file_world
                  all_fulfilled 4%nat all_fulfilled 4%nat).
    assert (Hskip : @inl outcome error SkippedNoTranslate = inl SkippedExists).
    { eapply (H ltac:(apply (bool_decide_unpack _); vm_compute; exact I)
                ltac:(apply (bool_decide_unpack _); vm_compute; exact I)).
      - repeat split; vm_compute; reflexivity.
      - repeat split; vm_compute; reflexivity.
      - apply (list_elem_of_lookup_2 _ 0%nat). vm_compute. reflexivity. }
    discriminate.
Qed.

(** * Facts about the pattern *)

Lemma canonicalize_fixed (c p : char) :
  (p < 65)%N -> canonicalize c = canonicalize p -> c = p.
Proof.
  unfold canonicalize. intros Hp.
  destruct ((97 <=? c) && (c <=? 122))%N eqn:Ec;
    destruct ((97 <=? p) && (p <=? 122))%N eqn:Ep;
    rewrite ?andb_true_iff, ?andb_false_iff, ?N.leb_le, ?N.leb_gt in *;
    lia.
Qed.

Lemma ci_eqb_true c p : ci_eqb c p = true <-> ci c p.
Proof. unfold ci_eqb, ci. apply bool_decide_eq_true. Qed.

Lemma ci_eqb_false c p : ci_eqb c p = false <-> ~ ci c p.
Proof. unfold ci_eqb, ci. apply bool_decide_eq_false. Qed.

Lemma ci_refl c : ci c c.
Proof. reflexivity. Qed.

Lemma ci_sym c p : ci c p -> ci p c.
Proof. unfold ci. congruence. Qed.

Lemma ci_trans a b c : ci a b -> ci b c -> ci a c.
Proof. unfold ci. congruence. Qed.

Lemma ci_eqb_refl c : ci_eqb c c = true.
Proof. apply ci_eqb_true, ci_refl. Qed.

(** Code units that are equal for the pattern are equal to the same
    characters of the pattern. *)
Lemma ci_eqb_ci c c' p : ci c c' -> ci_eqb c p = ci_eqb c' p.
Proof.
  intros H. unfold ci_eqb, ci in *. rewrite H. reflexivity.
Qed.

Lemma ci_eqb_quote c : ci_eqb c DQUOTE = true -> c = DQUOTE.
Proof.
  intros H%ci_eqb_true. apply canonicalize_fixed; [reflexivity | exact H].
Qed.

Lemma ci_eqb_gt c : ci_eqb c GT = true -> c = GT.
Proof.
  intros H%ci_eqb_true. apply canonicalize_fixed; [reflexivity | exact H].
Qed.

Lemma inert_prefixes :
  Forall inert EN_PREFIX /\ Forall inert EN_DIR.
Proof.
  split; repeat constructor.
Qed.

(** The second capture is the text up to the first double quote. *)
Lemma more_not_quote attributes s :
  forall acc,
    more_not DQUOTE acc s (match_close attributes) =
    match split_quote s with
    | Some (v, r) => Some (attributes, acc ++ v, r)
    | None => None
    end.
Proof.
  induction s as [|x s IH]; intros acc; simpl.
  - reflexivity.
  - unfold match_close at 1 3. simpl.
    destruct (ci_eqb x DQUOTE) eqn:Ex; simpl.
    + rewrite app_nil_r. reflexivity.
    + rewrite IH. destruct (split_quote s) as [[v r]|]; simpl.
      * rewrite <- app_assoc. reflexivity.
      * reflexivity.
Qed.

Lemma plus_not_quote attributes s :
  plus_not DQUOTE s (match_close attributes) =
  match value_split s with
  | Some (v, r) => Some (attributes, v, r)
  | None => None
  end.
Proof.
  destruct s as [|x s]; simpl; [reflexivity|].
  destruct (ci_eqb x DQUOTE); [reflexivity|].
  rewrite more_not_quote. destruct (split_quote s) as [[v r]|]; reflexivity.
Qed.

Lemma match_src_cand attributes s :
  match_src attributes s =
  match cand_at s with
  | Some (v, r) => Some (attributes, v, r)
  | None => None
  end.
Proof.
  unfold match_src, cand_at.
  destruct (lit_ci SRC_ATTR s) as [s3|]; simpl; [|reflexivity].
  apply plus_not_quote.
Qed.

Lemma cand_at_gt s : cand_at (GT :: s) = None.
Proof. reflexivity. Qed.

Lemma cand_at_not_s x s : ci_eqb x 115%N = false -> cand_at (x :: s) = None.
Proof. intros H. unfold cand_at. simpl. rewrite H. reflexivity. Qed.

(** The greedy first capture fails exactly when there is no candidate. *)
Lemma more_not_gt_none s :
  forall acc, more_not GT acc s match_src = None <-> has_cand s = false.
Proof.
  induction s as [|x s IH]; intros acc; simpl.
  - rewrite match_src_cand. simpl. tauto.
  - destruct (ci_eqb x GT) eqn:Ex.
    + apply ci_eqb_gt in Ex as ->. rewrite match_src_cand, cand_at_gt. tauto.
    + rewrite match_src_cand.
      destruct (more_not GT (acc ++ [x]) s match_src) eqn:Em.
      * assert (has_cand s = true) as ->.
        { destruct (has_cand s) eqn:Eh; [reflexivity|].
          assert (more_not GT (acc ++ [x]) s match_src = None)
            by (apply IH; reflexivity).
          congruence. }
        simpl. split; discriminate.
      * apply IH in Em. rewrite Em. simpl.
        destruct (cand_at (x :: s)) as [[v r]|]; simpl.
        -- split; discriminate.
        -- tauto.
Qed.

(** The result of the greedy first capture: it ends at a candidate, with
    no greater-than sign in it, and no candidate lies further on. *)
Lemma more_not_gt_some s :
  forall acc a v r,
    more_not GT acc s match_src = Some (a, v, r) ->
    exists a' x s2,
      a = acc ++ a' /\ s = a' ++ x :: s2 /\
      Forall (fun c => ci_eqb c GT = false) a' /\
      cand_at (x :: s2) = Some (v, r) /\
      has_cand s2 = false.
Proof.
  induction s as [|x s IH]; intros acc a v r; simpl.
  - rewrite match_src_cand. simpl. discriminate.
  - destruct (ci_eqb x GT) eqn:Ex.
    { apply ci_eqb_gt in Ex as ->. rewrite match_src_cand, cand_at_gt.
      discriminate. }
    destruct (more_not GT (acc ++ [x]) s match_src) as [[[a1 v1] r1]|] eqn:Em.
    + intros [= -> -> ->].
      destruct (IH _ _ _ _ Em) as (a' & y & s2 & -> & -> & Ha & Hc & Hn).
      exists (x :: a'), y, s2. rewrite <- app_assoc.
      repeat split; auto.
    + apply more_not_gt_none in Em.
      rewrite match_src_cand.
      destruct (cand_at (x :: s)) as [[v1 r1]|] eqn:Ec; [|discriminate].
      intros [= <- <- <-].
      exists [], x, s. rewrite app_nil_r. repeat split; auto.
Qed.

(** Conversely, such a candidate is where the greedy first capture
    ends. *)
Lemma more_not_gt_found a' :
  forall acc x s2 v r,
    Forall (fun c => ci_eqb c GT = false) a' ->
    cand_at (x :: s2) = Some (v, r) ->
    has_cand s2 = false ->
    more_not GT acc (a' ++ x :: s2) match_src = Some (acc ++ a', v, r).
Proof.
  induction a' as [|y a' IH]; intros acc x s2 v r Ha Hc Hn; simpl.
  - assert (Ex : ci_eqb x GT = false).
    { destruct (ci_eqb x GT) eqn:Ex; [|reflexivity].
      apply ci_eqb_gt in Ex as ->. rewrite cand_at_gt in Hc. discriminate. }
    rewrite Ex.
    rewrite (proj2 (more_not_gt_none s2 (acc ++ [x])) Hn).
    rewrite match_src_cand, Hc, app_nil_r. reflexivity.
  - apply Forall_cons in Ha as [Hy Ha]. rewrite Hy.
    rewrite (IH (acc ++ [y]) x s2 v r Ha Hc Hn), <- app_assoc.
    reflexivity.
Qed.

Lemma lit_ci_split p :
  forall s s', lit_ci p s = Some s' -> exists m, s = m ++ s' /\ Forall2 ci m p.
Proof.
  induction p as [|a p IH]; intros s s'; simpl.
  - intros [= ->]. exists []. split; [reflexivity | constructor].
  - destruct s as [|c s]; [discriminate|].
    destruct (ci_eqb c a) eqn:Ec; [|discriminate].
    intros H. destruct (IH _ _ H) as (m & -> & Hm).
    exists (c :: m). split; [reflexivity|].
    constructor; [apply ci_eqb_true, Ec | exact Hm].
Qed.

Lemma lit_ci_app m p s : Forall2 ci m p -> lit_ci p (m ++ s) = Some s.
Proof.
  induction 1 as [|c a m p Hc Hm IH]; simpl; [reflexivity|].
  rewrite (proj2 (ci_eqb_true _ _) Hc). exact IH.
Qed.

Lemma split_quote_spec s :
  forall v r, split_quote s = Some (v, r) ->
              s = v ++ DQUOTE :: r /\ Forall no_quote v.
Proof.
  induction s as [|x s IH]; intros v r; simpl; [discriminate|].
  destruct (ci_eqb x DQUOTE) eqn:Ex.
  - intros [= <- <-]. apply ci_eqb_quote in Ex as ->.
    split; [reflexivity | constructor].
  - destruct (split_quote s) as [[v1 r1]|]; [|discriminate].
    intros [= <- <-]. destruct (IH _ _ eq_refl) as [-> Hv].
    split; [reflexivity | constructor; assumption].
Qed.

Lemma split_quote_found v r :
  Forall no_quote v -> split_quote (v ++ DQUOTE :: r) = Some (v, r).
Proof.
  induction 1 as [|x v Hx Hv IH]; simpl; [reflexivity|].
  unfold no_quote in Hx. rewrite Hx, IH. reflexivity.
Qed.

Lemma value_split_spec s v r :
  value_split s = Some (v, r) ->
  s = v ++ DQUOTE :: r /\ Forall no_quote v /\ v <> [].
Proof.
  destruct s as [|x s]; simpl; [discriminate|].
  destruct (ci_eqb x DQUOTE) eqn:Ex; [discriminate|].
  destruct (split_quote s) as [[v1 r1]|] eqn:Es; [|discriminate].
  intros [= <- <-]. apply split_quote_spec in Es as [-> Hv].
  split; [reflexivity|]. split; [constructor; assumption | discriminate].
Qed.

Lemma value_split_found v r :
  v <> [] -> Forall no_quote v -> value_split (v ++ DQUOTE :: r) = Some (v, r).
Proof.
  intros Hne Hv. destruct Hv as [|x v Hx Hv]; [congruence|]. simpl.
  unfold no_quote in Hx. rewrite Hx, (split_quote_found _ _ Hv). reflexivity.
Qed.

(** The shape of a match: the tag name, the first capture, the attribute
    name with its opening quote, the second capture, the closing quote;
    and no candidate after the one chosen. *)
Lemma match_img_some s a v r :
  match_img s = Some (a, v, r) ->
  exists I x S,
    s = I ++ a ++ (x :: S) ++ v ++ DQUOTE :: r /\
    Forall2 ci I IMG_OPEN /\ Forall2 ci (x :: S) SRC_ATTR /\
    a <> [] /\ Forall no_gt a /\ v <> [] /\ Forall no_quote v /\
    has_cand (S ++ v ++ DQUOTE :: r) = false.
Proof.
  unfold match_img.
  destruct (lit_ci IMG_OPEN s) as [s1|] eqn:E1; [|discriminate]. simpl.
  apply lit_ci_split in E1 as (I & -> & HI).
  destruct s1 as [|y s1]; [discriminate|]. simpl.
  destruct (ci_eqb y GT) eqn:Ey; [discriminate|].
  intros Hm. apply more_not_gt_some in Hm
    as (a' & x & s2 & -> & -> & Ha & Hc & Hn).
  unfold cand_at in Hc.
  destruct (lit_ci SRC_ATTR (x :: s2)) as [s3|] eqn:E3; [|discriminate].
  apply lit_ci_split in E3 as (S & HS & HSci).
  apply value_split_spec in Hc as (-> & Hv & Hne).
  destruct S as [|x' S]; [inversion HSci|].
  simpl in HS. injection HS as <- ->.
  exists I, x, S. split_and!; auto.
  constructor; assumption.
Qed.

Lemma match_img_found I a x S v r :
  Forall2 ci I IMG_OPEN -> Forall2 ci (x :: S) SRC_ATTR ->
  a <> [] -> Forall no_gt a -> v <> [] -> Forall no_quote v ->
  has_cand (S ++ v ++ DQUOTE :: r) = false ->
  match_img (I ++ a ++ (x :: S) ++ v ++ DQUOTE :: r) = Some (a, v, r).
Proof.
  intros HI HS Hane Ha Hvne Hv Hn. unfold match_img.
  rewrite (lit_ci_app _ _ _ HI). simpl.
  destruct Ha as [|y a Hy Ha]; [congruence|]. simpl.
  unfold no_gt in Hy. rewrite Hy.
  change (x :: S ++ v ++ DQUOTE :: r) with (x :: (S ++ v ++ DQUOTE :: r)).
  apply (more_not_gt_found a [y]); auto.
  unfold cand_at.
  change (x :: (S ++ v ++ DQUOTE :: r))
    with ((x :: S) ++ v ++ DQUOTE :: r).
  rewrite (lit_ci_app _ _ _ HS). apply value_split_found; assumption.
Qed.

(** * Facts about the rewriter *)

Lemma replace_img_skip m r :
  replace_img (m ++ r) (length m) = replace_img r 0.
Proof.
  induction m as [|c m IH]; simpl; [reflexivity | exact IH].
Qed.

Lemma replace_img_cons c s :
  replace_img (c :: s) 0 =
  match match_img (c :: s) with
  | Some (attributes, src, rest) =>
      let matched := take (length (c :: s) - length rest) (c :: s) in
      replacer matched attributes src ++ replace_img s (length matched - 1)
  | None => c :: replace_img s 0
  end.
Proof. reflexivity. Qed.

Lemma adjust_nomatch c s :
  match_img (c :: s) = None ->
  adjustHtmlImagePaths (c :: s) = c :: adjustHtmlImagePaths s.
Proof.
  intros H. unfold adjustHtmlImagePaths. simpl replace_img.
  rewrite H. reflexivity.
Qed.

(** A match is replaced by what the callback returns for it, and the
    scan goes on after it. *)
Lemma adjust_match s a v r :
  match_img s = Some (a, v, r) ->
  exists m,
    s = m ++ r /\ take (length s - length r) s = m /\
    adjustHtmlImagePaths s = replacer m a v ++ adjustHtmlImagePaths r.
Proof.
  intros H. pose proof H as Hs.
  apply match_img_some in Hs
    as (I & x & S & Hs & HI & HS & Hane & Ha & Hvne & Hv & Hn).
  set (m := I ++ a ++ (x :: S) ++ v ++ [DQUOTE]).
  assert (Hm : s = m ++ r).
  { rewrite Hs. unfold m. rewrite <- ?app_assoc. simpl.
    rewrite <- ?app_assoc. reflexivity. }
  assert (Htake : take (length s - length r) s = m).
  { rewrite Hm, length_app.
    replace (length m + length r - length r)%nat with (length m) by lia.
    apply take_app_length. }
  exists m. split; [exact Hm|]. split; [exact Htake|].
  unfold adjustHtmlImagePaths.
  destruct s as [|c s'].
  { apply (f_equal length) in Hm. unfold m in Hm.
    rewrite !length_app in Hm. apply Forall2_length in HI.
    simpl in Hm, HI. lia. }
  rewrite replace_img_cons, H. cbv zeta. rewrite Htake.
  f_equal. clear Htake. clearbody m.
  destruct m as [|c' m'];
    [exfalso; simpl in Hm; subst r;
     apply (f_equal length) in Hs; rewrite !length_app in Hs;
     apply Forall2_length in HI; simpl in Hs, HI; lia|].
  simpl in Hm. injection Hm as -> ->. simpl. rewrite Nat.sub_0_r.
  apply replace_img_skip.
Qed.

Lemma keeps_src_prefixed v :
  keeps_src (if startsWith [SLASH] v then EN_DIR ++ v else EN_PREFIX ++ v)
  = true.
Proof.
  unfold keeps_src.
  assert (H : startsWith EN_PREFIX
                (if startsWith [SLASH] v then EN_DIR ++ v
                 else EN_PREFIX ++ v) = true).
  { destruct (startsWith [SLASH] v) eqn:Ev.
    - unfold startsWith in Ev. apply bool_decide_eq_true in Ev.
      destruct v as [|c v]; [discriminate|]. simpl in Ev.
      rewrite take_0 in Ev. injection Ev as ->.
      unfold startsWith. apply bool_decide_eq_true. reflexivity.
    - unfold startsWith. apply bool_decide_eq_true.
      apply take_app_length. }
  rewrite H. rewrite !orb_true_r. reflexivity.
Qed.

(** The callback returns a match whose path it has rewritten as it
    is. *)
Lemma replacer_fixed m a v :
  keeps_src v = true -> replacer m a v = m.
Proof. intros H. unfold replacer. rewrite H. reflexivity. Qed.

(** * The output of the rewriter embeds its input *)

Lemma emb_refl t : emb t t.
Proof. induction t; constructor; auto using ci_refl. Qed.

Lemma emb_app_ci m m' t y :
  Forall2 ci m m' -> emb t y -> emb (m ++ t) (m' ++ y).
Proof.
  induction 1 as [|c c' m m' Hc Hm IH]; intros He; simpl; [exact He|].
  constructor; auto.
Qed.

Lemma emb_app_same m t y : emb t y -> emb (m ++ t) (m ++ y).
Proof.
  apply emb_app_ci. apply Forall_Forall2_diag, Forall_forall.
  intros c _. apply ci_refl.
Qed.

Lemma inert_no_quote w : Forall inert w -> Forall no_quote w.
Proof.
  intros H. eapply Forall_impl; [exact H|]. intros c (Hq & _). exact Hq.
Qed.

Lemma split_quote_cons_no_quote x s :
  ci_eqb x DQUOTE = false ->
  is_Some (split_quote (x :: s)) <-> is_Some (split_quote s).
Proof.
  intros Hx. simpl. rewrite Hx.
  destruct (split_quote s) as [[v r]|]; split; intros [? ?];
    eauto; discriminate.
Qed.

Lemma split_quote_app_no_quote w s :
  Forall no_quote w ->
  is_Some (split_quote (w ++ s)) <-> is_Some (split_quote s).
Proof.
  induction 1 as [|x w Hx Hw IH]; simpl app; [tauto|].
  rewrite split_quote_cons_no_quote by exact Hx. exact IH.
Qed.

Lemma value_split_has_quote s :
  is_Some (value_split s) -> is_Some (split_quote s).
Proof.
  destruct s as [|x s]; simpl; [intros [? ?]; discriminate|].
  destruct (ci_eqb x DQUOTE); [eauto|].
  destruct (split_quote s) as [[v r]|]; [eauto|].
  intros [? ?]; discriminate.
Qed.

Lemma emb_has_quote t y :
  emb t y -> is_Some (split_quote y) -> is_Some (split_quote t).
Proof.
  induction 1 as [|c c' t y Hc He IH | w x t y Hw Hx He IH]; intros Hq.
  - exact Hq.
  - simpl in *. rewrite (ci_eqb_ci _ _ DQUOTE Hc).
    destruct (ci_eqb c' DQUOTE); [eauto|].
    destruct (split_quote y) as [[v r]|]; [|destruct Hq; discriminate].
    destruct (IH ltac:(eauto)) as [[v' r'] ->]. eauto.
  - simpl. eauto.
Qed.

Lemma emb_value_split t y :
  emb t y -> is_Some (value_split y) -> is_Some (value_split t).
Proof.
  intros He Hv.
  destruct He as [|c c' t y Hc He | w x t y Hw Hx He].
  - exact Hv.
  - simpl in *. rewrite (ci_eqb_ci _ _ DQUOTE Hc).
    destruct (ci_eqb c' DQUOTE); [exact Hv|].
    destruct (split_quote y) as [[v r]|] eqn:Ey; [|destruct Hv; discriminate].
    destruct (emb_has_quote _ _ He) as [[v' r'] Ht];
      [rewrite Ey; eauto|].
    rewrite Ht. eauto.
  - simpl in Hv. destruct Hv; discriminate.
Qed.

(** A literal of the pattern without double quote matches in the input
    where it matches in the output. *)
Lemma emb_lit p :
  Forall (fun a => ci_eqb DQUOTE a = false) p ->
  forall t y y2,
    emb t y -> lit_ci p y = Some y2 ->
    exists t2, lit_ci p t = Some t2 /\ emb t2 y2.
Proof.
  induction 1 as [|a p Ha Hp IH]; intros t y y2 He Hl; simpl in *.
  - injection Hl as <-. eauto.
  - destruct y as [|c' y]; [discriminate|].
    destruct (ci_eqb c' a) eqn:Ec; [|discriminate].
    inversion He as [|c ? t1 ? Hc He1 | w x t1 y1 Hw Hx He1]; subst.
    + rewrite (ci_eqb_ci _ _ a Hc), Ec. eapply IH; eassumption.
    + congruence.
Qed.

Lemma lit_ci_cat p q s :
  lit_ci (p ++ q) s =
  match lit_ci p s with
  | Some s' => lit_ci q s'
  | None => None
  end.
Proof.
  revert s. induction p as [|a p IH]; intros s; simpl; [reflexivity|].
  destruct s as [|c s]; [reflexivity|].
  destruct (ci_eqb c a); [apply IH | reflexivity].
Qed.

Lemma emb_cand_at t y :
  emb t y -> is_Some (cand_at y) -> is_Some (cand_at t).
Proof.
  intros He. unfold cand_at.
  change SRC_ATTR with ([115; 114; 99; 61]%N ++ [DQUOTE]).
  rewrite !lit_ci_cat.
  destruct (lit_ci [115; 114; 99; 61]%N y) as [y4|] eqn:E4;
    [|intros [? ?]; discriminate].
  destruct (emb_lit [115; 114; 99; 61]%N ltac:(repeat constructor)
              _ _ _ He E4) as (t4 & -> & He4).
  simpl. destruct y4 as [|q y3]; [intros [? ?]; discriminate|].
  destruct (ci_eqb q DQUOTE) eqn:Eq; [|intros [? ?]; discriminate].
  apply ci_eqb_quote in Eq as ->.
  inversion He4 as [|c ? t3 ? Hc He3 | w x t3 y3' Hw Hx He3]; subst.
  - rewrite (ci_eqb_ci _ _ DQUOTE Hc), ci_eqb_refl.
    apply emb_value_split, He3.
  - rewrite ci_eqb_refl. intros Hv.
    apply value_split_has_quote in Hv.
    apply split_quote_app_no_quote in Hv; [|apply inert_no_quote, Hw].
    apply (emb_has_quote _ _ He3) in Hv.
    simpl in *. rewrite Hx in *.
    destruct (split_quote t3) as [[v r]|]; [eauto | exact Hv].
Qed.

Lemma has_cand_inert w y :
  Forall inert w -> has_cand (w ++ y) = has_cand y.
Proof.
  induction 1 as [|c w (Hq & Hg & Hs) Hw IH]; simpl; [reflexivity|].
  rewrite Hg, IH, (cand_at_not_s _ _ Hs). simpl.
  apply orb_false_r.
Qed.

Lemma has_cand_cons c s :
  ci_eqb c GT = false ->
  has_cand (c :: s) = has_cand s || bool_decide (is_Some (cand_at (c :: s))).
Proof. intros H. simpl. rewrite H. reflexivity. Qed.

(** A candidate of the output is a candidate of the input. *)
Lemma emb_has_cand t y :
  emb t y -> has_cand y = true -> has_cand t = true.
Proof.
  induction 1 as [|c c' t y Hc He IH | w x t y Hw Hx He IH]; intros Hy.
  - exact Hy.
  - simpl in Hy. destruct (ci_eqb c' GT) eqn:Eg; [discriminate|].
    rewrite has_cand_cons by (rewrite (ci_eqb_ci _ _ GT Hc); exact Eg).
    apply orb_true_iff in Hy as [Hy | Hy].
    + rewrite (IH Hy). reflexivity.
    + apply bool_decide_eq_true in Hy.
      apply (emb_cand_at (c :: t)) in Hy; [|constructor; assumption].
      rewrite (bool_decide_eq_true_2 _ Hy). apply orb_true_r.
  - rewrite has_cand_cons in Hy by reflexivity.
    rewrite (cand_at_not_s DQUOTE) in Hy by reflexivity.
    rewrite has_cand_inert in Hy by exact Hw.
    rewrite has_cand_cons by reflexivity.
    apply orb_true_iff in Hy as [Hy | Hy].
    + rewrite (IH Hy). reflexivity.
    + apply bool_decide_eq_true in Hy. destruct Hy; discriminate.
Qed.

(** Where the pattern matches the output at its start, it matches the
    input at its start. *)
Lemma emb_match_img t y :
  emb t y -> is_Some (match_img y) -> is_Some (match_img t).
Proof.
  intros He. unfold match_img.
  destruct (lit_ci IMG_OPEN y) as [y1|] eqn:E1;
    [|intros [? ?]; discriminate].
  destruct (emb_lit IMG_OPEN ltac:(repeat constructor) _ _ _ He E1)
    as (t1 & -> & He1).
  simpl. destruct y1 as [|x' y1]; [intros [? ?]; discriminate|]. simpl.
  destruct (ci_eqb x' GT) eqn:Eg; [intros [? ?]; discriminate|].
  intros Hm.
  assert (Hy : has_cand y1 = true).
  { destruct (has_cand y1) eqn:Eh; [reflexivity|].
    apply (more_not_gt_none y1 [x']) in Eh. rewrite Eh in Hm.
    destruct Hm; discriminate. }
  assert (Hfound : forall x s, ci_eqb x GT = false -> has_cand s = true ->
                     is_Some (plus_not GT (x :: s) match_src)).
  { intros x s Hx Hs. simpl. rewrite Hx.
    destruct (more_not GT [x] s match_src) eqn:Em; [eauto|].
    apply more_not_gt_none in Em. congruence. }
  inversion He1 as [|c ? t2 ? Hc He2 | w x t2 y2 Hw Hx He2]; subst.
  - apply Hfound.
    + rewrite (ci_eqb_ci _ _ GT Hc). exact Eg.
    + apply (emb_has_cand _ _ He2 Hy).
  - apply Hfound; [reflexivity|].
    rewrite has_cand_inert in Hy by exact Hw.
    apply (emb_has_cand _ _ He2 Hy).
Qed.

Lemma src_attr_shape xs :
  Forall2 ci xs SRC_ATTR ->
  exists c1 c2 c3 c4,
    xs = [c1; c2; c3; c4; DQUOTE] /\
    Forall2 ci [c2; c3; c4] [114; 99; 61]%N /\ ci c1 115%N.
Proof.
  intros H. unfold SRC_ATTR in H.
  repeat match goal with
         | H : Forall2 _ _ (_ :: _) |- _ =>
             apply Forall2_cons_inv_r in H as (? & ? & ? & H & ->)
         | H : Forall2 _ _ [] |- _ => apply Forall2_nil_inv_r in H as ->
         end.
  match goal with
  | H : ci ?q 34%N |- _ =>
      apply (canonicalize_fixed q 34%N ltac:(reflexivity)) in H; subst q
  end.
  do 4 eexists. split; [reflexivity|]. split; [|eassumption].
  repeat constructor; assumption.
Qed.

(** The value of an attribute with a prefix put before it. *)
Lemma emb_value v r r' w :
  v <> [] -> Forall no_quote v -> Forall inert w -> emb r r' ->
  emb (DQUOTE :: v ++ DQUOTE :: r) (DQUOTE :: (w ++ v) ++ DQUOTE :: r').
Proof.
  intros Hne Hv Hw He. destruct Hv as [|x v Hx Hv]; [congruence|].
  rewrite <- app_assoc. simpl.
  apply emb_insert; [exact Hw | exact Hx |].
  apply (emb_app_same (x :: v)). constructor; [apply ci_refl | exact He].
Qed.

(** A rewritten match, followed by the rewritten rest, embeds the match
    followed by the rest. *)
Lemma emb_rewritten I a xs v r r' w :
  Forall2 ci I IMG_OPEN -> Forall2 ci xs SRC_ATTR ->
  v <> [] -> Forall no_quote v -> Forall inert w -> emb r r' ->
  emb (I ++ a ++ xs ++ v ++ DQUOTE :: r)
      (IMG_OPEN ++ a ++ SRC_ATTR ++ (w ++ v) ++ [DQUOTE] ++ r').
Proof.
  intros HI Hxs Hne Hv Hw He.
  apply emb_app_ci; [exact HI|]. apply emb_app_same.
  apply src_attr_shape in Hxs as (c1 & c2 & c3 & c4 & -> & H3 & H1).
  change ([c1; c2; c3; c4; DQUOTE] ++ v ++ DQUOTE :: r)
    with ([c1; c2; c3; c4] ++ DQUOTE :: v ++ DQUOTE :: r).
  change (SRC_ATTR ++ (w ++ v) ++ [DQUOTE] ++ r')
    with ([115; 114; 99; 61]%N ++ DQUOTE :: (w ++ v) ++ DQUOTE :: r').
  apply emb_app_ci; [constructor; assumption|].
  apply emb_value; assumption.
Qed.

Lemma adjust_nil : adjustHtmlImagePaths [] = [].
Proof. reflexivity. Qed.

Lemma inert_new_src v :
  exists w, Forall inert w /\
    (if startsWith [SLASH] v then EN_DIR ++ v else EN_PREFIX ++ v) = w ++ v.
Proof.
  destruct (startsWith [SLASH] v).
  - exists EN_DIR. split; [apply inert_prefixes | reflexivity].
  - exists EN_PREFIX. split; [apply inert_prefixes | reflexivity].
Qed.

(** The output of the rewriter embeds its input. *)
Lemma emb_adjust_bounded n :
  forall t, (length t <= n)%nat -> emb t (adjustHtmlImagePaths t).
Proof.
  induction n as [|n IH]; intros t Hlen.
  - destruct t; [rewrite adjust_nil; constructor | simpl in Hlen; lia].
  - destruct t as [|c t]; [rewrite adjust_nil; constructor|].
    destruct (match_img (c :: t)) as [[[a v] r]|] eqn:Em.
    + destruct (adjust_match _ _ _ _ Em) as (m & Hm & _ & ->).
      destruct (match_img_some _ _ _ _ Em)
        as (I & x & S & Hs & HI & HS & Hane & Ha & Hvne & Hv & Hn).
      assert (Hr : (length r <= n)%nat).
      { apply (f_equal length) in Hs. rewrite !length_app in Hs.
        simpl in Hs, Hlen. lia. }
      specialize (IH r Hr).
      unfold replacer. destruct (keeps_src v).
      * rewrite Hm. apply emb_app_same, IH.
      * rewrite Hs.
        destruct (inert_new_src v) as (w & Hw & ->).
        rewrite <- !app_assoc. rewrite (app_assoc w v).
        apply (emb_rewritten I a (x :: S) v r _ w); assumption.
    + rewrite (adjust_nomatch _ _ Em).
      constructor; [apply ci_refl|]. apply IH. simpl in Hlen. lia.
Qed.

Lemma emb_adjust t : emb t (adjustHtmlImagePaths t).
Proof. apply (emb_adjust_bounded (length t)). lia. Qed.

(** * The rewriter applied to its own output *)

Lemma Forall2_ci_refl l : Forall2 ci l l.
Proof. induction l; constructor; [apply ci_refl | assumption]. Qed.

Lemma has_cand_emb_false t y :
  emb t y -> has_cand t = false -> has_cand y = false.
Proof.
  intros He Ht. destruct (has_cand y) eqn:Ey; [|reflexivity].
  rewrite (emb_has_cand _ _ He Ey) in Ht. discriminate.
Qed.

(** Where the pattern matched in the input, it matches again in the
    output, at the replacement: with the same attributes, a source that
    the callback leaves alone, and the rewritten rest after it. *)
Lemma match_img_again s a v r m :
  match_img s = Some (a, v, r) -> s = m ++ r ->
  exists v',
    match_img (replacer m a v ++ adjustHtmlImagePaths r)
    = Some (a, v', adjustHtmlImagePaths r) /\
    keeps_src v' = true.
Proof.
  intros Em Hm.
  destruct (match_img_some _ _ _ _ Em)
    as (I & x & S & Hs & HI & HS & Hane & Ha & Hvne & Hv & Hn).
  pose proof (emb_adjust r) as Hr.
  unfold replacer. destruct (keeps_src v) eqn:Ek.
  - exists v. split; [|exact Ek].
    assert (m = I ++ a ++ (x :: S) ++ v ++ [DQUOTE]) as ->.
    { apply (app_inv_tail r). rewrite <- Hm, Hs.
      rewrite <- !app_assoc. reflexivity. }
    rewrite <- !app_assoc.
    apply match_img_found; try assumption.
    apply (has_cand_emb_false (S ++ v ++ DQUOTE :: r)); [|exact Hn].
    apply emb_app_same, emb_app_same.
    constructor; [apply ci_refl | exact Hr].
  - destruct (inert_new_src v) as (w & Hw & Ew).
    exists (w ++ v). split; [|rewrite <- Ew; apply keeps_src_prefixed].
    rewrite Ew. rewrite <- !app_assoc. rewrite (app_assoc w v).
    apply (match_img_found IMG_OPEN a 115%N [114; 99; 61; 34]%N (w ++ v)).
    + apply Forall2_ci_refl.
    + apply (Forall2_ci_refl SRC_ATTR).
    + exact Hane.
    + exact Ha.
    + destruct v; [congruence|]. destruct w; discriminate.
    + apply Forall_app. split; [apply inert_no_quote, Hw | exact Hv].
    + apply (has_cand_emb_false (S ++ v ++ DQUOTE :: r)); [|exact Hn].
      apply src_attr_shape in HS as (c1 & c2 & c3 & c4 & E & H3 & H1).
      injection E as -> ->.
      change ([c2; c3; c4; DQUOTE] ++ v ++ DQUOTE :: r)
        with ([c2; c3; c4] ++ DQUOTE :: v ++ DQUOTE :: r).
      change ([114; 99; 61; 34]%N ++ (w ++ v)
              ++ DQUOTE :: adjustHtmlImagePaths r)
        with ([114; 99; 61]%N
              ++ DQUOTE :: (w ++ v) ++ DQUOTE :: adjustHtmlImagePaths r).
      apply emb_app_ci; [exact H3|].
      apply emb_value; assumption.
Qed.

(** Where the pattern did not match in the input, it does not match in
    the output either. *)
Lemma match_img_none_again c t :
  match_img (c :: t) = None ->
  match_img (c :: adjustHtmlImagePaths t) = None.
Proof.
  intros Em.
  destruct (match_img (c :: adjustHtmlImagePaths t)) eqn:E; [|reflexivity].
  assert (He : emb (c :: t) (c :: adjustHtmlImagePaths t))
    by (constructor; [apply ci_refl | apply emb_adjust]).
  destruct (emb_match_img _ _ He) as [q Hq]; [rewrite E; eauto|].
  rewrite Em in Hq. discriminate.
Qed.

Lemma adjust_idempotent_bounded n :
  forall t, (length t <= n)%nat ->
    adjustHtmlImagePaths (adjustHtmlImagePaths t) = adjustHtmlImagePaths t.
Proof.
  induction n as [|n IH]; intros t Hlen.
  - destruct t; [reflexivity | simpl in Hlen; lia].
  - destruct t as [|c t]; [reflexivity|].
    destruct (match_img (c :: t)) as [[[a v] r]|] eqn:Em.
    + destruct (adjust_match _ _ _ _ Em) as (m & Hm & _ & ->).
      destruct (match_img_again _ _ _ _ _ Em Hm) as (v' & Em' & Hk).
      destruct (adjust_match _ _ _ _ Em') as (m' & Hm' & _ & ->).
      apply app_inv_tail in Hm'. subst m'.
      rewrite (replacer_fixed _ _ _ Hk). f_equal. apply IH.
      destruct (match_img_some _ _ _ _ Em)
        as (I & x & S & Hs & _).
      apply (f_equal length) in Hs. rewrite !length_app in Hs.
      simpl in Hs, Hlen. lia.
    + rewrite (adjust_nomatch _ _ Em).
      rewrite (adjust_nomatch _ _ (match_img_none_again _ _ Em)).
      f_equal. apply IH. simpl in Hlen. lia.
Qed.

(** The rewriter on concrete markup: a relative source is prefixed, a
    source in upper case tags too, a source with a leading slash gets
    the directory only, and an absolute source is left as it is. *)
Example adjust_relative :
  adjustHtmlImagePaths
    (js "<p><IMG alt='x' SRC=" ++ [DQUOTE] ++ js "a/b.png" ++ [DQUOTE]
     ++ js "> and <img src=" ++ [DQUOTE] ++ js "/c.png" ++ [DQUOTE]
     ++ js "> and <img src=" ++ [DQUOTE] ++ js "https://h/d.png"
     ++ [DQUOTE] ++ js "></p>")
  = js "<p><img alt='x' src=" ++ [DQUOTE] ++ js "../en/a/b.png" ++ [DQUOTE]
    ++ js "> and <img src=" ++ [DQUOTE] ++ js "../en/c.png" ++ [DQUOTE]
    ++ js "> and <img src=" ++ [DQUOTE] ++ js "https://h/d.png"
    ++ [DQUOTE] ++ js "></p>".
Proof. vm_compute. reflexivity. Qed.

(** C9.  Applying the rewriter twice equals applying it once, for every
    text.  And every reference the scan finds whose source starts with
    http://, https:// or data: is left unchanged: the output is the
    matched text as it stands, followed by the rewriting of what comes
    after the match. *)
Theorem adjust_idempotent :
  (forall x : jsstring,
     adjustHtmlImagePaths (adjustHtmlImagePaths x) = adjustHtmlImagePaths x)
  /\
  (forall (s attributes src rest : jsstring),
     match_img s = Some (attributes, src, rest) ->
     startsWith HTTP src = true \/ startsWith HTTPS src = true
     \/ startsWith DATA src = true ->
     replacer (take (length s - length rest) s) attributes src
     = take (length s - length rest) s /\
     adjustHtmlImagePaths s
     = take (length s - length rest) s ++ adjustHtmlImagePaths rest).
Proof.
  split.
  - intros x. apply (adjust_idempotent_bounded (length x)). lia.
  - intros s a v r Em Habs.
    assert (Hk : keeps_src v = true).
    { unfold keeps_src. destruct Habs as [-> | [-> | ->]];
        rewrite ?orb_true_r; reflexivity. }
    destruct (adjust_match _ _ _ _ Em) as (m & _ & -> & ->).
    rewrite (replacer_fixed _ _ _ Hk). split; reflexivity.
Qed.

Lemma adjust_idempotent_witness :
  match_img (js "<img src=" ++ [DQUOTE] ++ js "data:x" ++ [DQUOTE] ++ js ">")
  = Some (js " ", js "data:x", js ">") /\
  adjustHtmlImagePaths
    (js "<img src=" ++ [DQUOTE] ++ js "data:x" ++ [DQUOTE] ++ js ">")
  = (js "<img src=" ++ [DQUOTE] ++ js "data:x" ++ [DQUOTE])
    ++ adjustHtmlImagePaths (js ">").
Proof.
  split; [reflexivity|].
  exact (proj2 (proj2 adjust_idempotent
                  (js "<img src=" ++ [DQUOTE] ++ js "data:x" ++ [DQUOTE]
                   ++ js ">")
                  (js " ") (js "data:x") (js ">") eq_refl
                  (or_intror (or_intror eq_refl)))).
Defined.

(** * Further properties of the splitter *)

Lemma split_chunk_bound_witness :
  0 < 2 /\
  splitTextIntoChunks (js "ab" ++ [LF; LF] ++ js "cd") 2
    = Some [js "ab" ++ [LF; LF]; js "cd"] /\
  Forall (fun c => len c <= 2 + 2) [js "ab" ++ [LF; LF]; js "cd"].
Proof.
  split; [lia|]. split; [reflexivity|].
  apply (split_chunk_bound (js "ab" ++ [LF; LF] ++ js "cd") 2);
    [lia | reflexivity].
Defined.

(** X2.  The empty text gives no chunk, whatever the size asked for, and a
    text that is not longer than the size is returned as the only
    chunk. *)
Theorem split_short_text :
  (forall maxSize, splitTextIntoChunks [] maxSize = Some []) /\
  (forall text maxSize,
     text <> [] -> len text <= maxSize ->
     splitTextIntoChunks text maxSize = Some [text]).
Proof.
  split; [reflexivity|].
  intros text maxSize Hne Hlen. unfold splitTextIntoChunks.
  rewrite split_loop_unfold.
  assert (Hpos : 0 < len text)
    by (destruct text; [congruence | unfold len; simpl; lia]).
  rewrite (proj2 (Z.ltb_lt _ _) Hpos).
  rewrite (proj2 (Z.leb_le (len text) (0 + maxSize))) by lia.
  rewrite substring_from_drop by lia. reflexivity.
Qed.

Lemma split_short_text_witness :
  js "abc" <> [] /\ len (js "abc") <= 3 /\
  splitTextIntoChunks (js "abc") 3 = Some [js "abc"].
Proof.
  split; [discriminate|]. split; [unfold len; simpl; lia|].
  apply (proj2 split_short_text); [discriminate | unfold len; simpl; lia].
Defined.

Lemma lastIndexOf_at_zero pat text : lastIndexOf pat text 0 <= 0.
Proof.
  unfold lastIndexOf. destruct (len text <? len pat) eqn:E; [lia|].
  apply Z.ltb_ge in E.
  replace (Z.min (Z.max 0 0) (len text - len pat)) with 0 by lia.
  simpl. destruct (occurs_at pat text 0); lia.
Qed.

Lemma split_position_zero text : split_position text 0 0 = 0.
Proof.
  unfold split_position.
  rewrite !(proj2 (Z.leb_le _ 0) (lastIndexOf_at_zero _ text)).
  reflexivity.
Qed.

(** X3.  With the size zero the loop never ends on a text that is not empty:
    the cursor stays at the start and an empty chunk is pushed at every
    iteration, so no amount of fuel gives a result. *)
Theorem split_zero_size_never_returns (text : jsstring) :
  text <> [] ->
  (forall fuel chunks, split_loop fuel text 0 0 chunks = None) /\
  next_cursor text 0 0 = 0 /\
  splitTextIntoChunks text 0 = None.
Proof.
  intros Hne.
  assert (Hpos : 0 < len text)
    by (destruct text; [congruence | unfold len; simpl; lia]).
  assert (H : forall fuel chunks, split_loop fuel text 0 0 chunks = None).
  { induction fuel as [|fuel IH]; intros chunks;
      rewrite split_loop_unfold;
      rewrite (proj2 (Z.ltb_lt _ _) Hpos);
      rewrite (proj2 (Z.leb_gt (len text) (0 + 0))) by lia;
      [reflexivity|].
    change (0 + 0) with 0. rewrite split_position_zero. apply IH. }
  split; [exact H|]. split; [apply split_position_zero | apply H].
Qed.

Lemma split_zero_size_never_returns_witness :
  js "a" <> [] /\ splitTextIntoChunks (js "a") 0 = None.
Proof.
  split; [discriminate|].
  exact (proj2 (proj2 (split_zero_size_never_returns (js "a")
                         ltac:(discriminate)))).
Defined.

Lemma lastIndexOf_absent pat text position :
  (forall k, occurs_at pat text k = false) ->
  lastIndexOf pat text position = -1.
Proof.
  intros Hno. unfold lastIndexOf.
  destruct (len text <? len pat); [reflexivity|].
  destruct (lastIndexOf_from_spec pat text
              (Z.to_nat (Z.min (Z.max position 0) (len text - len pat))))
    as [[H _] | (i & _ & _ & Hi & _)]; [exact H|].
  rewrite Hno in Hi. discriminate.
Qed.

Lemma paragraph_break_line_break text k :
  occurs_at PARAGRAPH_BREAK text k = true ->
  occurs_at LINE_BREAK text k = true.
Proof.
  unfold occurs_at, PARAGRAPH_BREAK, LINE_BREAK. simpl length.
  intros H. apply bool_decide_eq_true in H as [Hk Ht].
  apply bool_decide_eq_true. split; [lia|].
  destruct (drop k text) as [|a [|b r]]; simpl in *; congruence.
Qed.

Lemma split_position_absent text startIndex endIndex :
  (forall k, occurs_at LINE_BREAK text k = false) ->
  (forall k, occurs_at SENTENCE_BREAK text k = false) ->
  -1 <= startIndex ->
  split_position text startIndex endIndex = endIndex.
Proof.
  intros Hl Hs Hstart.
  assert (Hp : forall k, occurs_at PARAGRAPH_BREAK text k = false).
  { intros k. destruct (occurs_at PARAGRAPH_BREAK text k) eqn:E;
      [|reflexivity].
    apply paragraph_break_line_break in E. rewrite Hl in E. discriminate. }
  unfold split_position.
  rewrite (lastIndexOf_absent _ _ _ Hp), (lastIndexOf_absent _ _ _ Hs),
    (lastIndexOf_absent _ _ _ Hl).
  rewrite (proj2 (Z.leb_le (-1) startIndex)) by lia. reflexivity.
Qed.

Lemma substring_to_end s a b :
  0 <= a -> len s <= b -> substring_from s a = substring s a b.
Proof.
  intros Ha Hb. unfold substring_from, substring.
  pose proof (len_nonneg s).
  replace (Z.min (Z.max b 0) (len s)) with (len s) by lia.
  replace (Z.min (Z.max (len s) 0) (len s)) with (len s) by lia.
  reflexivity.
Qed.

Lemma split_loop_absent text maxSize :
  0 < maxSize ->
  (forall k, occurs_at LINE_BREAK text k = false) ->
  (forall k, occurs_at SENTENCE_BREAK text k = false) ->
  forall fuel startIndex chunks,
    0 <= startIndex ->
    len text - startIndex <= Z.of_nat fuel ->
    exists cs,
      split_loop fuel text maxSize startIndex chunks = Some (chunks ++ cs) /\
      forall (i : nat) c, cs !! i = Some c ->
        c = substring text (startIndex + Z.of_nat i * maxSize)
              (startIndex + (Z.of_nat i + 1) * maxSize).
Proof.
  intros HM Hl Hs. induction fuel as [|fuel IH]; intros start chunks H0 Hf;
    rewrite split_loop_unfold.
  - destruct (start <? len text) eqn:E1.
    + apply Z.ltb_lt in E1. lia.
    + exists []. rewrite app_nil_r. split; [reflexivity|].
      intros i c Hi. rewrite lookup_nil in Hi. discriminate.
  - destruct (start <? len text) eqn:E1.
    2:{ exists []. rewrite app_nil_r. split; [reflexivity|].
        intros i c Hi. rewrite lookup_nil in Hi. discriminate. }
    destruct (len text <=? start + maxSize) eqn:E2.
    + apply Z.leb_le in E2. eexists [_]. split; [reflexivity|].
      intros [|i] c Hi; simpl in Hi; [|rewrite lookup_nil in Hi;
                                       discriminate].
      injection Hi as <-.
      rewrite (substring_to_end text start (start + maxSize)) by lia.
      f_equal; lia.
    + apply Z.leb_gt in E2.
      rewrite (split_position_absent text start _ Hl Hs) by lia.
      destruct (IH (start + maxSize)
                  (chunks ++ [substring text start (start + maxSize)]))
        as (cs & Hcs & Hall); [lia | lia |].
      exists (substring text start (start + maxSize) :: cs).
      rewrite Hcs, <- app_assoc. split; [reflexivity|].
      intros [|i] c Hi; simpl in Hi.
      * injection Hi as <-. f_equal; lia.
      * rewrite (Hall i c Hi). f_equal; lia.
Qed.

(** X4.  A text in which no line feed occurs and no full stop is followed by
    a space is cut at the multiples of the size: chunk number [i] is
    the substring from [i * maxSize] to [(i + 1) * maxSize]. *)
Theorem split_without_boundaries (text : jsstring) (maxSize : Z) :
  0 < maxSize ->
  (forall k, occurs_at LINE_BREAK text k = false) ->
  (forall k, occurs_at SENTENCE_BREAK text k = false) ->
  exists chunks,
    splitTextIntoChunks text maxSize = Some chunks /\
    forall (i : nat) c, chunks !! i = Some c ->
      c = substring text (Z.of_nat i * maxSize)
            ((Z.of_nat i + 1) * maxSize).
Proof.
  intros HM Hl Hs.
  destruct (split_loop_absent text maxSize HM Hl Hs (length text) 0 [])
    as (cs & Hcs & Hall); [lia | unfold len; lia |].
  exists cs. split; [exact Hcs|].
  intros i c Hi. rewrite (Hall i c Hi). f_equal; lia.
Qed.

Lemma split_without_boundaries_witness :
  0 < 3 /\
  exists chunks,
    splitTextIntoChunks (js "abcdefgh") 3 = Some chunks /\
    forall (i : nat) c, chunks !! i = Some c ->
      c = substring (js "abcdefgh") (Z.of_nat i * 3) ((Z.of_nat i + 1) * 3).
Proof.
  split; [lia|].
  apply (split_without_boundaries (js "abcdefgh") 3);
    [lia | apply occurs_nowhere; reflexivity
         | apply occurs_nowhere; reflexivity].
Defined.

(** * Further properties of the rewriter *)

Lemma match_img_needs s a v r :
  match_img s = Some (a, v, r) ->
  (exists s', s = LT :: s') /\ DQUOTE ∈ s.
Proof.
  intros H.
  destruct (match_img_some _ _ _ _ H)
    as (I & x & S & -> & HI & _).
  split.
  - unfold IMG_OPEN in HI.
    apply Forall2_cons_inv_r in HI as (c & I' & Hc & _ & ->).
    apply (canonicalize_fixed c 60%N ltac:(reflexivity)) in Hc. subst c.
    eexists. reflexivity.
  - rewrite !elem_of_app. right. right. right. right. apply elem_of_cons.
    left. reflexivity.
Qed.

(** X6.  A text without a less-than sign, or without a double quote, holds no
    reference and is returned as it is. *)
Theorem adjust_without_reference (x : jsstring) :
  LT ∉ x \/ DQUOTE ∉ x -> adjustHtmlImagePaths x = x.
Proof.
  induction x as [|c x IH]; intros H; [reflexivity|].
  destruct (match_img (c :: x)) as [[[a v] r]|] eqn:Em.
  - exfalso. destruct (match_img_needs _ _ _ _ Em) as [[s' Es] Hq].
    destruct H as [H | H]; [|exact (H Hq)].
    apply H. rewrite Es. apply elem_of_cons. left. reflexivity.
  - rewrite (adjust_nomatch _ _ Em). f_equal. apply IH.
    destruct H as [H | H]; [left | right]; intros Hin; apply H;
      apply elem_of_cons; right; exact Hin.
Qed.

Lemma adjust_without_reference_witness :
  adjustHtmlImagePaths (js "# Title: a > b, 'img'") = js "# Title: a > b, 'img'".
Proof.
  apply adjust_without_reference. left. vm_compute.
  intros H. repeat (apply elem_of_cons in H as [H | H]; [discriminate|]).
  inversion H.
Defined.

(** X7.  A reference the scan finds whose source is relative is replaced by
    the tag and the attribute name in lower case, the attributes as
    they were and the source under the directory of the source
    language; the scan goes on after the closing quote. *)
Theorem adjust_relative_reference (s attributes src rest : jsstring) :
  match_img s = Some (attributes, src, rest) ->
  startsWith HTTP src = false -> startsWith HTTPS src = false ->
  startsWith DATA src = false -> startsWith EN_PREFIX src = false ->
  adjustHtmlImagePaths s
  = js "<img" ++ attributes ++ js "src=" ++ [DQUOTE]
    ++ (if startsWith [SLASH] src then js "../en" ++ src
        else js "../en/" ++ src)
    ++ [DQUOTE] ++ adjustHtmlImagePaths rest.
Proof.
  intros Em H1 H2 H3 H4.
  destruct (adjust_match _ _ _ _ Em) as (m & _ & _ & ->).
  unfold replacer, keeps_src. rewrite H1, H2, H3, H4. cbn [orb].
  change (js "<img") with IMG_OPEN.
  change (js "../en") with EN_DIR. change (js "../en/") with EN_PREFIX.
  rewrite <- !app_assoc. reflexivity.
Qed.

Lemma adjust_relative_reference_witness :
  adjustHtmlImagePaths
    (js "<IMG Src=" ++ [DQUOTE] ++ js "/a.png" ++ [DQUOTE] ++ js ">")
  = js "<img" ++ js " " ++ js "src=" ++ [DQUOTE]
    ++ js "../en" ++ js "/a.png"
    ++ [DQUOTE] ++ adjustHtmlImagePaths (js ">").
Proof.
  exact (adjust_relative_reference
           (js "<IMG Src=" ++ [DQUOTE] ++ js "/a.png" ++ [DQUOTE] ++ js ">")
           (js " ") (js "/a.png") (js ">")
           eq_refl eq_refl eq_refl eq_refl eq_refl).
Defined.

Lemma scan_sources_skip m r :
  scan_sources (m ++ r) (length m) = scan_sources r 0.
Proof.
  induction m as [|c m IH]; simpl; [reflexivity | exact IH].
Qed.

Lemma sources_nomatch c s :
  match_img (c :: s) = None -> img_sources (c :: s) = img_sources s.
Proof.
  intros H. unfold img_sources. simpl scan_sources. rewrite H. reflexivity.
Qed.

Lemma sources_match s a v r :
  match_img s = Some (a, v, r) -> img_sources s = v :: img_sources r.
Proof.
  intros H. destruct (adjust_match _ _ _ _ H) as (m & Hm & Htake & _).
  destruct (match_img_needs _ _ _ _ H) as [[s' ->] _].
  unfold img_sources.
  change (scan_sources (LT :: s') 0)
    with (match match_img (LT :: s') with
          | Some (attributes, src, rest) =>
              let matched :=
                take (length (LT :: s') - length rest) (LT :: s') in
              src :: scan_sources s' (length matched - 1)
          | None => scan_sources s' 0
          end).
  rewrite H. cbv zeta. rewrite Htake. f_equal.
  destruct m as [|c m'].
  - exfalso. simpl in Hm. subst r.
    destruct (match_img_some _ _ _ _ H) as (I & x & S & Hs & _).
    apply (f_equal length) in Hs. rewrite !length_app in Hs.
    simpl in Hs. lia.
  - simpl in Hm. injection Hm as <- ->. simpl. rewrite Nat.sub_0_r.
    apply scan_sources_skip.
Qed.

(** Where the pattern matched in the input it matches again in the
    output, and the source it captures there is the rewritten one. *)
Lemma match_img_rewritten s a v r m :
  match_img s = Some (a, v, r) -> s = m ++ r ->
  match_img (replacer m a v ++ adjustHtmlImagePaths r)
  = Some (a, rewritten_src v, adjustHtmlImagePaths r).
Proof.
  intros Em Hm.
  destruct (match_img_some _ _ _ _ Em)
    as (I & x & S & Hs & HI & HS & Hane & Ha & Hvne & Hv & Hn).
  pose proof (emb_adjust r) as Hr.
  unfold replacer, rewritten_src. destruct (keeps_src v) eqn:Ek.
  - assert (m = I ++ a ++ (x :: S) ++ v ++ [DQUOTE]) as ->.
    { apply (app_inv_tail r). rewrite <- Hm, Hs.
      rewrite <- !app_assoc. reflexivity. }
    rewrite <- !app_assoc.
    apply match_img_found; try assumption.
    apply (has_cand_emb_false (S ++ v ++ DQUOTE :: r)); [|exact Hn].
    apply emb_app_same, emb_app_same.
    constructor; [apply ci_refl | exact Hr].
  - assert (Hgen : forall w, Forall inert w ->
              match_img (IMG_OPEN ++ a ++ SRC_ATTR ++ (w ++ v) ++ [DQUOTE]
                         ++ adjustHtmlImagePaths r)
              = Some (a, w ++ v, adjustHtmlImagePaths r)).
    { intros w Hw.
      apply (match_img_found IMG_OPEN a 115%N [114; 99; 61; 34]%N (w ++ v)).
      + apply Forall2_ci_refl.
      + apply (Forall2_ci_refl SRC_ATTR).
      + exact Hane.
      + exact Ha.
      + destruct v; [congruence|]. destruct w; discriminate.
      + apply Forall_app. split; [apply inert_no_quote, Hw | exact Hv].
      + apply (has_cand_emb_false (S ++ v ++ DQUOTE :: r)); [|exact Hn].
        apply src_attr_shape in HS as (c1 & c2 & c3 & c4 & E & H3 & H1).
        injection E as -> ->.
        change ([c2; c3; c4; DQUOTE] ++ v ++ DQUOTE :: r)
          with ([c2; c3; c4] ++ DQUOTE :: v ++ DQUOTE :: r).
        change ([114; 99; 61; 34]%N ++ (w ++ v)
                ++ DQUOTE :: adjustHtmlImagePaths r)
          with ([114; 99; 61]%N
                ++ DQUOTE :: (w ++ v) ++ DQUOTE :: adjustHtmlImagePaths r).
        apply emb_app_ci; [exact H3|].
        apply emb_value; assumption. }
    cbv zeta. rewrite <- !app_assoc.
    destruct (startsWith [SLASH] v).
    + apply Hgen, inert_prefixes.
    + apply Hgen, inert_prefixes.
Qed.

Lemma keeps_rewritten_src v : keeps_src (rewritten_src v) = true.
Proof.
  unfold rewritten_src. destruct (keeps_src v) eqn:E; [exact E|].
  apply keeps_src_prefixed.
Qed.

Lemma sources_adjust_bounded n :
  forall t, (length t <= n)%nat ->
    img_sources (adjustHtmlImagePaths t) = rewritten_src <$> img_sources t.
Proof.
  induction n as [|n IH]; intros t Hlen.
  - destruct t; [reflexivity | simpl in Hlen; lia].
  - destruct t as [|c t]; [reflexivity|].
    destruct (match_img (c :: t)) as [[[a v] r]|] eqn:Em.
    + destruct (adjust_match _ _ _ _ Em) as (m & Hm & _ & ->).
      rewrite (sources_match _ _ _ _
                 (match_img_rewritten _ _ _ _ _ Em Hm)).
      rewrite (sources_match _ _ _ _ Em). rewrite fmap_cons. f_equal.
      apply IH.
      destruct (match_img_some _ _ _ _ Em) as (I & x & S & Hs & _).
      apply (f_equal length) in Hs. rewrite !length_app in Hs.
      simpl in Hs, Hlen. lia.
    + rewrite (adjust_nomatch _ _ Em).
      rewrite (sources_nomatch _ _ (match_img_none_again _ _ Em)).
      rewrite (sources_nomatch _ _ Em).
      apply IH. simpl in Hlen. lia.
Qed.

(** X8.  The references of the output are those of the input, one for one
    and in the same order, each with its source rewritten; so every
    source in the output starts with http://, https://, data: or
    ../en/. *)
Theorem adjust_sources (x : jsstring) :
  img_sources (adjustHtmlImagePaths x) = rewritten_src <$> img_sources x /\
  Forall (fun src => keeps_src src = true)
    (img_sources (adjustHtmlImagePaths x)).
Proof.
  assert (H : img_sources (adjustHtmlImagePaths x)
              = rewritten_src <$> img_sources x)
    by (apply (sources_adjust_bounded (length x)); lia).
  split; [exact H|]. rewrite H.
  apply Forall_fmap, Forall_forall. intros v _. apply keeps_rewritten_src.
Qed.

(** The references of a text, evaluated: the two sources are found in
    order, and the second capture of the first match stops at the first
    closing quote. *)
Example img_sources_example :
  img_sources
    (js "<img alt=1 src=" ++ [DQUOTE] ++ js "a.png" ++ [DQUOTE]
     ++ js "><IMG SRC=" ++ [DQUOTE] ++ js "data:b" ++ [DQUOTE] ++ js ">")
  = [js "a.png"; js "data:b"].
Proof. vm_compute. reflexivity. Qed.

(** * Further properties of one task *)

(** X9.  The promise of a task is never rejected: whatever the file system
    and the translation service answer, a task that has run to its end
    has returned, and has not thrown. *)
Theorem task_never_rejects
    (toLowerCase : jsstring -> jsstring)
    (baseName sourceText : jsstring) (fileType : file_type)
    (langCode instructions : jsstring) tr v :
  exec (task toLowerCase baseName sourceText fileType langCode
          instructions) tr v ->
  exists o : outcome, v = inl o.
Proof.
  intros (q & Hr & Hq). destruct v as [o | e]; [eauto|].
  exfalso. apply task_runs_history in Hr. rewrite Hq in Hr.
  eapply task_history_fulfilled, Hr.
Qed.

Lemma task_never_rejects_witness :
  exec (task ascii_toLowerCase (js "a.md") (js "hello") markdown
          (js "de") (js "to German"))
       [(Mkdir (js "de"), Rejected (js "EACCES"))]
       (inl (Failed (js "EACCES"))) /\
  exists o : outcome, inl (B := error) (Failed (js "EACCES")) = inl o.
Proof.
  assert (H : exec (task ascii_toLowerCase (js "a.md") (js "hello")
                      markdown (js "de") (js "to German"))
                [(Mkdir (js "de"), Rejected (js "EACCES"))]
                (inl (Failed (js "EACCES")))).
  { eexists. split; [apply runs_cons, runs_nil | reflexivity]. }
  split; [exact H|].
  exact (task_never_rejects ascii_toLowerCase (js "a.md") (js "hello")
           markdown (js "de") (js "to German") _ _ H).
Defined.

Lemma work_history_fails_fast l f ws s ws1 o e ws2 :
  work_history l f ws s ->
  ws = ws1 ++ (o, Rejected e) :: ws2 ->
  ws2 = [] /\ s = Some (inl (Failed e)).
Proof.
  intros H E.
  assert (Hno : forall ts, Forall translated ts ->
                           (o, Rejected e) ∉ ts).
  { intros ts Hts Hin. rewrite Forall_forall in Hts.
    destruct (Hts _ Hin) as [_ Hr]. discriminate. }
  assert (Hlast : forall ts x,
            Forall translated ts ->
            ts ++ [x] = ws1 ++ (o, Rejected e) :: ws2 ->
            ws2 = [] /\ x = (o, Rejected e)).
  { intros ts x Hts Eq.
    destruct ws2 as [|z ws2 _] using rev_ind.
    - apply app_inj_tail in Eq as [_ ->]. split; reflexivity.
    - exfalso.
      change (ws1 ++ (o, Rejected e) :: ws2 ++ [z])
        with (ws1 ++ ((o, Rejected e) :: ws2) ++ [z]) in Eq.
      rewrite app_assoc in Eq.
      apply app_inj_tail in Eq as [-> _].
      apply (Hno _ Hts). apply elem_of_app. right.
      apply elem_of_cons. left. reflexivity. }
  destruct H as [ts Hts | ts o1 e1 Hts Ho1 | ts d v Hts | ts d e1 Hts].
  - exfalso. apply (Hno _ Hts). rewrite E. apply elem_of_app. right.
    apply elem_of_cons. left. reflexivity.
  - destruct (Hlast _ _ Hts E) as [-> Hx]. injection Hx as -> ->.
    split; reflexivity.
  - destruct (Hlast _ _ Hts E) as [_ Hx]. discriminate.
  - destruct (Hlast _ _ Hts E) as [-> Hx]. injection Hx as <- ->.
    split; reflexivity.
Qed.

(** X10.  A task fails fast.  Apart from the existence test of the target
    file, whose rejection means that the file is missing, an operation
    that is rejected is the last one of the task: the task awaits
    nothing after it and ends on the [catch] path with the reason of
    the rejection. *)
Theorem task_fails_fast
    (toLowerCase : jsstring -> jsstring)
    (baseName sourceText : jsstring) (fileType : file_type)
    (langCode instructions : jsstring) tr q tr1 o e tr2 :
  runs (task toLowerCase baseName sourceText fileType langCode
          instructions) tr q ->
  tr = tr1 ++ (o, Rejected e) :: tr2 ->
  o <> Access (langCode, baseName) ->
  tr2 = [] /\ q = Ret (Failed e).
Proof.
  intros Hr E Ho.
  assert (Hq : tr2 = [] /\ settled_result q = Some (inl (Failed e))).
  { apply task_runs_history in Hr.
    remember (settled_result q) as s eqn:Es. clear Es.
    destruct Hr as [ | e0 | v | v v' | v e0 Hs | v e0 Hs Hl
                     | v e0 v' Hs Hl | v e0 e' Hs Hl
                     | v e0 ws s Hs Hl Hw];
      try (destruct tr1 as [|? [|? [|? [|? tr1]]]]; simplify_eq/=;
           split; reflexivity).
    destruct tr1 as [|? [|? tr1]]; simplify_eq/=.
    eapply work_history_fails_fast; [exact Hw | reflexivity]. }
  destruct Hq as [-> Hq]. split; [reflexivity|].
  destruct q as [a | e' | o' k]; simpl in Hq; congruence.
Qed.

Lemma task_fails_fast_witness :
  runs (task ascii_toLowerCase (js "a.md") (js "hello") markdown
          (js "de") (js "to German"))
       [(Mkdir (js "de"), Fulfilled []);
        (Access (js "de", js "a.md"), Rejected ENOENT);
        (TranslateText (js "hello") (js "de") (js "to German") markdown,
         Rejected (js "503"))]
       (Ret (Failed (js "503"))) /\
  Ret (Failed (js "503")) = Ret (A := outcome) (Failed (js "503")).
Proof.
  assert (H : runs (task ascii_toLowerCase (js "a.md") (js "hello") markdown
                      (js "de") (js "to German"))
                [(Mkdir (js "de"), Fulfilled []);
                 (Access (js "de", js "a.md"), Rejected ENOENT);
                 (TranslateText (js "hello") (js "de") (js "to German")
                    markdown, Rejected (js "503"))]
                (Ret (Failed (js "503"))))
    by (do 3 apply runs_cons; apply runs_nil).
  split; [exact H|].
  exact (eq_sym (proj2 (task_fails_fast ascii_toLowerCase (js "a.md")
                   (js "hello") markdown (js "de") (js "to German")
                   _ _ [(Mkdir (js "de"), Fulfilled []);
                        (Access (js "de", js "a.md"), Rejected ENOENT)]
                   _ (js "503") [] H eq_refl ltac:(discriminate)))).
Defined.

Lemma issues_bind {A B : Type} (p : prog A) (f : A -> prog B) o :
  issues (bind p f) o -> issues p o \/ exists a, issues (f a) o.
Proof.
  induction p as [a | e | o' k IH]; simpl; intros H.
  - right. exists a. exact H.
  - inversion H.
  - inversion H as [|? ? r ? H1]; subst.
    + left. apply issues_now.
    + destruct (IH r H1) as [H2 | H2]; [left | right; exact H2].
      eapply issues_later, H2.
Qed.

Lemma issues_try_catch {A : Type} (p : prog A) (h : error -> prog A) o :
  issues (try_catch p h) o -> issues p o \/ exists e, issues (h e) o.
Proof.
  induction p as [a | e | o' k IH]; simpl; intros H.
  - inversion H.
  - right. exists e. exact H.
  - inversion H as [|? ? r ? H1]; subst.
    + left. apply issues_now.
    + destruct (IH r H1) as [H2 | H2]; [left | right; exact H2].
      eapply issues_later, H2.
Qed.

Lemma issues_await (o' o : op) : issues (await o') o -> o = o'.
Proof.
  unfold await. intros H. inversion H as [|? ? r ? H1]; subst;
    [reflexivity|]. destruct r; inversion H1.
Qed.

Lemma issues_ret {A : Type} (a : A) o : ~ issues (Ret a) o.
Proof. intros H. inversion H. Qed.

Lemma issues_translate_chunks chunks l i ft :
  forall acc o,
    issues (translate_chunks chunks l i ft acc) o ->
    exists chunk, chunk ∈ chunks /\ o = TranslateText chunk l i ft.
Proof.
  induction chunks as [|c chunks IH]; intros acc o H;
    cbn [translate_chunks] in H.
  - inversion H.
  - apply issues_bind in H as [H | [v H]].
    + apply issues_await in H. exists c. split; [|exact H].
      apply elem_of_cons. left. reflexivity.
    + destruct (IH _ _ H) as (chunk & Hin & ->).
      exists chunk. split; [|reflexivity].
      apply elem_of_cons. right. exact Hin.
Qed.

(** X11.  The operations of a task, on every path: it makes its own language
    directory, tests its own target file, and then, unless the
    instruction is the sentinel, either copies the source file to the
    target (language en) or sends the whole text (a file of at most
    [LARGE_FILE_THRESHOLD] code units) or chunks of it (a larger file)
    to the translation service and writes the target.  It awaits
    nothing else. *)
Theorem task_operations
    (toLowerCase : jsstring -> jsstring)
    (baseName sourceText : jsstring) (fileType : file_type)
    (langCode instructions : jsstring) (o : op) :
  issues (task toLowerCase baseName sourceText fileType langCode
            instructions) o ->
  o = Mkdir langCode \/
  o = Access (langCode, baseName) \/
  toLowerCase instructions <> DONT_TRANSLATE /\
  ((langCode = EN /\ o = CopyFile baseName (langCode, baseName)) \/
   (langCode <> EN /\
    ((exists chunk,
        o = TranslateText chunk langCode instructions fileType /\
        if LARGE_FILE_THRESHOLD <? len sourceText
        then chunk ∈ chunks_of sourceText else chunk = sourceText) \/
     exists data, o = WriteFile (langCode, baseName) data))).
Proof.
  unfold task. intros H.
  apply issues_try_catch in H as [H | [e H]]; [|destruct (issues_ret _ _ H)].
  apply issues_bind in H as [H | [_ H]];
    [left; apply (issues_await _ _ H)|].
  apply issues_bind in H as [H | [found H]].
  { right. left.
    apply issues_try_catch in H as [H | [e H]];
      [|destruct (issues_ret _ _ H)].
    apply issues_bind in H as [H | [_ H]];
      [apply (issues_await _ _ H) | destruct (issues_ret _ _ H)]. }
  destruct found; [destruct (issues_ret _ _ H)|].
  destruct (bool_decide (toLowerCase instructions = DONT_TRANSLATE)) eqn:Es;
    [destruct (issues_ret _ _ H)|].
  apply bool_decide_eq_false in Es.
  right. right. split; [exact Es|].
  destruct (bool_decide (langCode = EN)) eqn:El.
  - apply bool_decide_eq_true in El. left. split; [exact El|].
    apply issues_bind in H as [H | [_ H]];
      [apply (issues_await _ _ H) | destruct (issues_ret _ _ H)].
  - apply bool_decide_eq_false in El. right. split; [exact El|].
    apply issues_bind in H as [H | [final H]].
    + left. destruct (LARGE_FILE_THRESHOLD <? len sourceText).
      * apply issues_bind in H as [H | [tc H]];
          [|destruct (issues_ret _ _ H)].
        destruct (issues_translate_chunks _ _ _ _ _ _ H)
          as (chunk & Hin & ->).
        exists chunk. split; [reflexivity | exact Hin].
      * apply issues_await in H. exists sourceText.
        split; [exact H | reflexivity].
    + right. apply issues_bind in H as [H | [_ H]];
        [|destruct (issues_ret _ _ H)].
      apply issues_await in H. eexists. exact H.
Qed.

Lemma task_operations_witness :
  issues (task ascii_toLowerCase (js "a.md") (js "hello") markdown
            (js "de") (js "to German"))
         (TranslateText (js "hello") (js "de") (js "to German") markdown)
  /\
  (TranslateText (js "hello") (js "de") (js "to German") markdown
   = Mkdir (js "de") \/
   TranslateText (js "hello") (js "de") (js "to German") markdown
   = Access (js "de", js "a.md") \/
   ascii_toLowerCase (js "to German") <> DONT_TRANSLATE /\
   ((js "de" = EN /\
     TranslateText (js "hello") (js "de") (js "to German") markdown
     = CopyFile (js "a.md") (js "de", js "a.md")) \/
    (js "de" <> EN /\
     ((exists chunk,
         TranslateText (js "hello") (js "de") (js "to German") markdown
         = TranslateText chunk (js "de") (js "to German") markdown /\
         if LARGE_FILE_THRESHOLD <? len (js "hello")
         then chunk ∈ chunks_of (js "hello") else chunk = js "hello") \/
      exists data,
        TranslateText (js "hello") (js "de") (js "to German") markdown
        = WriteFile (js "de", js "a.md") data)))).
Proof.
  assert (H : issues (task ascii_toLowerCase (js "a.md") (js "hello")
                        markdown (js "de") (js "to German"))
                (TranslateText (js "hello") (js "de") (js "to German")
                   markdown)).
  { apply (issues_later _ _ (Fulfilled [])).
    apply (issues_later _ _ (Rejected ENOENT)).
    apply issues_now. }
  split; [exact H|].
  exact (task_operations ascii_toLowerCase (js "a.md") (js "hello")
           markdown (js "de") (js "to German") _ H).
Defined.

Lemma exec_await_inv {A : Type} o (k : result -> prog A) tr v :
  exec (Await o k) tr v ->
  exists r tr', tr = (o, r) :: tr' /\ exec (k r) tr' v.
Proof.
  intros (q & Hr & Hq). inversion Hr as [|? ? r tr' ? H1]; subst.
  - discriminate.
  - exists r, tr'. split; [reflexivity|]. exists q. split; assumption.
Qed.

Lemma exec_settled_inv {A : Type} (p : prog A) tr v w :
  settled_result p = Some w -> exec p tr v -> tr = [] /\ v = w.
Proof.
  intros Hs (q & Hr & Hq).
  destruct (runs_settled_nil _ _ _ _ Hs Hr) as [-> ->].
  split; [reflexivity | congruence].
Qed.

Lemma exec_ret_inv {A : Type} (a : A) tr v :
  exec (Ret a) tr v -> tr = [] /\ v = inl a.
Proof. apply (exec_settled_inv (Ret a) tr v (inl a) eq_refl). Qed.

Lemma exec_await {A : Type} o (k : result -> prog A) r tr v :
  exec (k r) tr v -> exec (Await o k) ((o, r) :: tr) v.
Proof.
  intros (q & Hr & Hq). exists q. split; [|exact Hq].
  apply runs_cons, Hr.
Qed.

Lemma exec_ret {A : Type} (a : A) : exec (Ret a) [] (inl a).
Proof. exists (Ret a). split; [apply runs_nil | reflexivity]. Qed.

(** The write at the end of a successful task. *)
Lemma writing_done p data tr :
  exec (guarded (do _ <- await (WriteFile p data); Ret Done)) tr (inl Done)
  <-> exists v', tr = [(WriteFile p data, Fulfilled v')].
Proof.
  unfold guarded. cbn. split.
  - intros H. apply exec_await_inv in H as (r & tr' & -> & H).
    destruct r as [v'|e]; cbn in H.
    + apply exec_ret_inv in H as [-> _]. exists v'. reflexivity.
    + apply exec_ret_inv in H as [_ H]. discriminate.
  - intros (v' & ->). apply exec_await. cbn. apply exec_ret.
Qed.

(** The sequential translation of the chunks of a successful task: one
    call per chunk, in order, each fulfilled, and then the write of the
    translations joined by a blank line. *)
Lemma chunks_done (g : jsstring -> jsstring) p l i ft chunks :
  forall acc tr,
    exec (guarded
            (do finalTranslation <-
               (do tc <- translate_chunks chunks l i ft acc;
                Ret (join [LF; LF] tc));
             do _ <- await (WriteFile p (g finalTranslation));
             Ret Done)) tr (inl Done)
    <-> exists vs v',
          length vs = length chunks /\
          tr = zip_with (fun chunk t =>
                           (TranslateText chunk l i ft, Fulfilled t))
                 chunks vs
               ++ [(WriteFile p (g (join [LF; LF] (acc ++ vs))),
                    Fulfilled v')].
Proof.
  induction chunks as [|c chunks IH]; intros acc tr.
  - cbn [translate_chunks bind].
    rewrite (writing_done p (g (join [LF; LF] acc)) tr). split.
    + intros (v' & ->). exists [], v'. rewrite app_nil_r.
      split; reflexivity.
    + intros (vs & v' & Hl & ->). destruct vs; [|discriminate].
      rewrite app_nil_r. exists v'. reflexivity.
  - split.
    + intros H. unfold guarded in H. cbn in H.
      apply exec_await_inv in H as (r & tr' & -> & H).
      destruct r as [v|e]; cbn in H.
      * apply (IH (acc ++ [v]) tr') in H as (vs & v' & Hl & ->).
        exists (v :: vs), v'. split; [simpl; lia|].
        rewrite <- app_assoc. reflexivity.
      * apply exec_ret_inv in H as [_ H]. discriminate.
    + intros (vs & v' & Hl & ->). destruct vs as [|v vs]; [discriminate|].
      unfold guarded. cbn. apply exec_await. cbn.
      apply (IH (acc ++ [v])). exists vs, v'.
      split; [simpl in Hl; lia|]. rewrite <- app_assoc. reflexivity.
Qed.

(** A successful translation task: the directory is made, the target
    file is found missing, and the rest is the translation and the
    write. *)
Lemma task_done
    (toLowerCase : jsstring -> jsstring)
    (baseName sourceText : jsstring) (fileType : file_type)
    (langCode instructions : jsstring) tr :
  toLowerCase instructions <> DONT_TRANSLATE -> langCode <> EN ->
  let g := fun t : jsstring =>
             match fileType with
             | html => adjustHtmlImagePaths t
             | markdown => t
             end in
  exec (task toLowerCase baseName sourceText fileType langCode
          instructions) tr (inl Done)
  <-> exists v e ws,
        tr = (Mkdir langCode, Fulfilled v)
             :: (Access (langCode, baseName), Rejected e) :: ws /\
        exec (guarded
                (do finalTranslation <-
                   (if LARGE_FILE_THRESHOLD <? len sourceText then
                      do tc <- translate_chunks (chunks_of sourceText)
                                 langCode instructions fileType [];
                      Ret (join [LF; LF] tc)
                    else
                      await (TranslateText sourceText langCode instructions
                               fileType));
                 do _ <- await (WriteFile (langCode, baseName)
                                  (g finalTranslation));
                 Ret Done)) ws (inl Done).
Proof.
  intros Hs Hl g. unfold task. split.
  - intros H. cbn in H.
    apply exec_await_inv in H as (r & tr1 & -> & H).
    destruct r as [v|e]; cbn in H;
      [|apply exec_ret_inv in H as [_ H]; discriminate].
    apply exec_await_inv in H as (r & tr2 & -> & H).
    destruct r as [v'|e]; cbn in H;
      [apply exec_ret_inv in H as [_ H]; discriminate|].
    rewrite (bool_decide_eq_false_2 _ Hs) in H.
    rewrite (bool_decide_eq_false_2 _ Hl) in H.
    exists v, e, tr2. split; [reflexivity|].
    unfold g. destruct fileType; exact H.
  - intros (v & e & ws & -> & H). cbn.
    apply exec_await. cbn. apply exec_await. cbn.
    rewrite (bool_decide_eq_false_2 _ Hs).
    rewrite (bool_decide_eq_false_2 _ Hl).
    unfold g in H. destruct fileType; exact H.
Qed.

(** X12.  A file of at most [LARGE_FILE_THRESHOLD] code units (the bound
    included) is translated in one call.  The histories of a task that
    ends with the translation saved are exactly these: the directory is
    made, the target file is found missing, the whole source text is
    sent once, and what is written to the target is the answer, with
    its image paths adjusted when the file is an HTML file. *)
Theorem small_file_done
    (toLowerCase : jsstring -> jsstring)
    (baseName sourceText : jsstring) (fileType : file_type)
    (langCode instructions : jsstring) tr :
  len sourceText <= LARGE_FILE_THRESHOLD ->
  toLowerCase instructions <> DONT_TRANSLATE -> langCode <> EN ->
  exec (task toLowerCase baseName sourceText fileType langCode
          instructions) tr (inl Done)
  <-> exists v e translation v',
        tr = [(Mkdir langCode, Fulfilled v);
              (Access (langCode, baseName), Rejected e);
              (TranslateText sourceText langCode instructions fileType,
               Fulfilled translation);
              (WriteFile (langCode, baseName)
                 match fileType with
                 | html => adjustHtmlImagePaths translation
                 | markdown => translation
                 end,
               Fulfilled v')].
Proof.
  intros Hlen Hs Hl.
  rewrite (task_done toLowerCase baseName sourceText fileType langCode
             instructions tr Hs Hl).
  cbv zeta. rewrite (proj2 (Z.ltb_ge _ _) Hlen). split.
  - intros (v & e & ws & -> & H). unfold guarded in H. cbn in H.
    apply exec_await_inv in H as (r & ws' & -> & H).
    destruct r as [t|e']; cbn in H;
      [|apply exec_ret_inv in H as [_ H]; discriminate].
    apply (writing_done (langCode, baseName)) in H as (v' & ->).
    exists v, e, t, v'. reflexivity.
  - intros (v & e & t & v' & ->). exists v, e. eexists. split; [reflexivity|].
    unfold guarded. cbn. apply exec_await. cbn.
    apply (writing_done (langCode, baseName)). exists v'. reflexivity.
Qed.

Lemma small_file_done_witness :
  len (js "hello") <= LARGE_FILE_THRESHOLD /\
  exec (task ascii_toLowerCase (js "a.html") (js "hello") html (js "de")
          (js "to German"))
       [(Mkdir (js "de"), Fulfilled []);
        (Access (js "de", js "a.html"), Rejected ENOENT);
        (TranslateText (js "hello") (js "de") (js "to German") html,
         Fulfilled (js "hallo"));
        (WriteFile (js "de", js "a.html")
           (adjustHtmlImagePaths (js "hallo")), Fulfilled [])]
       (inl Done).
Proof.
  split; [unfold len, LARGE_FILE_THRESHOLD; simpl; lia|].
  apply (proj2 (small_file_done ascii_toLowerCase (js "a.html")
                  (js "hello") html (js "de") (js "to German") _
                  ltac:(unfold len, LARGE_FILE_THRESHOLD; simpl; lia)
                  ltac:(discriminate) ltac:(discriminate))).
  exists [], ENOENT, (js "hallo"), []. reflexivity.
Defined.

(** X13.  A file of more than [LARGE_FILE_THRESHOLD] code units is translated
    chunk by chunk.  The chunks put together are the source text, and
    the histories of a task that ends with the translation saved are
    exactly these: the directory is made, the target file is found
    missing, every chunk is sent once, in order, and what is written to
    the target is the answers joined by a blank line, with the image
    paths adjusted when the file is an HTML file. *)
Theorem large_file_done
    (toLowerCase : jsstring -> jsstring)
    (baseName sourceText : jsstring) (fileType : file_type)
    (langCode instructions : jsstring) tr :
  LARGE_FILE_THRESHOLD < len sourceText ->
  toLowerCase instructions <> DONT_TRANSLATE -> langCode <> EN ->
  concat (chunks_of sourceText) = sourceText /\
  (exec (task toLowerCase baseName sourceText fileType langCode
           instructions) tr (inl Done)
   <-> exists v e translations v',
         length translations = length (chunks_of sourceText) /\
         tr = (Mkdir langCode, Fulfilled v)
              :: (Access (langCode, baseName), Rejected e)
              :: zip_with (fun chunk t =>
                             (TranslateText chunk langCode instructions
                                fileType, Fulfilled t))
                   (chunks_of sourceText) translations
              ++ [(WriteFile (langCode, baseName)
                     match fileType with
                     | html =>
                         adjustHtmlImagePaths (join [LF; LF] translations)
                     | markdown => join [LF; LF] translations
                     end,
                   Fulfilled v')]).
Proof.
  intros Hlen Hs Hl. split.
  { destruct (splitTextIntoChunks_spec sourceText CHUNK_SIZE)
      as (cs & Hcs & Hc & _); [reflexivity|].
    rewrite chunks_of_spec in Hcs. injection Hcs as ->. exact Hc. }
  rewrite (task_done toLowerCase baseName sourceText fileType langCode
             instructions tr Hs Hl).
  cbv zeta. rewrite (proj2 (Z.ltb_lt _ _) Hlen).
  set (g := fun t : jsstring =>
              match fileType with
              | html => adjustHtmlImagePaths t
              | markdown => t
              end).
  split.
  - intros (v & e & ws & -> & H).
    apply (chunks_done g (langCode, baseName)) in H
      as (vs & v' & Hlv & ->).
    exists v, e, vs, v'. split; [exact Hlv|]. reflexivity.
  - intros (v & e & vs & v' & Hlv & ->). exists v, e. eexists.
    split; [reflexivity|].
    apply (chunks_done g (langCode, baseName)). exists vs, v'.
    split; [exact Hlv | reflexivity].
Qed.

Lemma large_file_done_witness :
  LARGE_FILE_THRESHOLD < len long_text /\
  concat (chunks_of long_text) = long_text.
Proof.
  assert (H : LARGE_FILE_THRESHOLD < len long_text)
    by (vm_compute; reflexivity).
  split; [exact H|].
  exact (proj1 (large_file_done ascii_toLowerCase (js "a.md") long_text
                  markdown (js "de") (js "to German") [] H
                  ltac:(discriminate) ltac:(discriminate))).
Defined.

(** * What a run changes *)

Lemma write_file_changes c w p data w' r q :
  write_file c w p data = (w', r) ->
  dirs w' = dirs w /\ (files w' !! q = files w !! q \/ q = p).
Proof.
  unfold write_file. intros H.
  assert (Hq : forall d, dirs (set_file w p d) = dirs w /\
                         (files (set_file w p d) !! q = files w !! q \/
                          q = p)).
  { intros d. split; [reflexivity|].
    destruct (decide (q = p)) as [->|Hne]; [auto|].
    left. simpl. apply lookup_insert_ne. congruence. }
  destruct (bool_decide (p.1 ∈ dirs w)).
  - destruct (answer c).
    + injection H as <- <-. apply Hq.
    + destruct (partial c); injection H as <- <-; [apply Hq | auto].
  - injection H as <- <-. auto.
Qed.

Lemma perform_changes c w o w' r :
  perform c w o = (w', r) ->
  (forall q, files w' !! q = files w !! q \/
             (is_write o = true /\ target o = Some q)) /\
  (forall d, d ∈ dirs w' -> d ∈ dirs w \/ o = Mkdir d).
Proof.
  intros H. destruct o as [d | p | src dst | text l i ft | p data];
    simpl in H.
  - destruct (bool_decide (d ∈ dirs w)).
    + injection H as <- <-. auto.
    + destruct (answer c); injection H as <- <-; simpl; [|auto].
      split; [auto|]. intros d' Hd'.
      apply elem_of_union in Hd' as [Hd' | Hd']; [|auto].
      apply elem_of_singleton in Hd'. subst d'. auto.
  - destruct (files w !! p); injection H as <- <-; auto.
  - destruct (sources w !! src) as [data|].
    + split.
      * intros q. destruct (write_file_changes _ _ _ _ _ _ q H)
          as [_ [Hq | ->]]; auto.
      * intros d Hd. destruct (write_file_changes _ _ _ _ _ _ dst H)
          as [Hdirs _]. rewrite Hdirs in Hd. auto.
    + injection H as <- <-. auto.
  - injection H as <- <-. auto.
  - split.
    + intros q. destruct (write_file_changes _ _ _ _ _ _ q H)
        as [_ [Hq | ->]]; auto.
    + intros d Hd. destruct (write_file_changes _ _ _ _ _ _ p H)
        as [Hdirs _]. rewrite Hdirs in Hd. auto.
Qed.

Section MachineExplained.

Context {T R D : Type}.
Variable K : nat.
Variable job : world -> D -> list (T * prog R).
Variable w0 : world.
Implicit Types (st : machine T R D).

Lemma explained_more st (ds : list D) (pend b : list (T * prog R)) tr' :
  explained w0 st ->
  explained w0 (Machine ds pend b (trace st ++ tr') (env st)).
Proof.
  intros [Hf Hd]. split; simpl.
  - intros p. destruct (Hf p) as [H | (t & o & r & Hin & H)]; [auto|].
    right. exists t, o, r. split; [|exact H]. apply elem_of_app. auto.
  - intros d Hin. destruct (Hd d Hin) as [H | (t & r & H)]; [auto|].
    right. exists t, r. apply elem_of_app. auto.
Qed.

Lemma explained_start_task st tp :
  explained w0 st -> explained w0 (start_task st tp).
Proof.
  intros H. unfold start_task.
  destruct (settled_result tp.2); apply (explained_more st), H.
Qed.

Lemma explained_launch slice :
  forall st, explained w0 st -> explained w0 (launch st slice).
Proof.
  induction slice as [|tp slice IH]; intros st H; [exact H|].
  simpl. apply IH, explained_start_task, H.
Qed.

Lemma explained_perform st c t o w' r (ds : list D)
    (pend b : list (T * prog R)) tr' :
  explained w0 st ->
  perform c (env st) o = (w', r) ->
  explained w0 (Machine ds pend b (trace st ++ EOp t o r :: tr') w').
Proof.
  intros [Hf Hd] Hp. apply perform_changes in Hp as [Hpf Hpd].
  assert (Hnow : EOp t o r ∈ trace st ++ EOp t o r :: tr').
  { apply elem_of_app. right. apply elem_of_cons. auto. }
  split; simpl.
  - intros p. destruct (Hpf p) as [Hsame | [Hw Ht]].
    + rewrite Hsame.
      destruct (Hf p) as [H | (t' & o' & r' & Hin & H)]; [auto|].
      right. exists t', o', r'. split; [|exact H]. apply elem_of_app. auto.
    + right. exists t, o, r. auto.
  - intros d Hin. destruct (Hpd d Hin) as [Hold | ->].
    + destruct (Hd d Hold) as [H | (t' & r' & H)]; [auto|].
      right. exists t', r'. apply elem_of_app. auto.
    + right. exists t, r. exact Hnow.
Qed.

Lemma explained_step_task c st :
  explained w0 st -> explained w0 (step_task c st).
Proof.
  intros H. unfold step_task.
  destruct (batch st !! (pick c mod length (batch st))%nat)
    as [[t p]|]; [|exact H].
  destruct p as [a | e | o k]; try exact H.
  destruct (perform c (env st) o) as [w' r] eqn:Ep.
  destruct (settled_result (k r)) as [v|];
    eapply explained_perform; eassumption.
Qed.

Lemma explained_step c st :
  explained w0 st -> explained w0 (step K job c st).
Proof.
  intros H. unfold step.
  destruct (batch st); [|apply explained_step_task, H].
  destruct (pending st).
  - destruct (docs st); exact H.
  - apply explained_launch. exact H.
Qed.

Lemma explained_run cs st :
  env st = w0 -> trace st = [] ->
  forall n, explained w0 (run K job cs n st).
Proof.
  intros He Htr. induction n as [|n IH]; [|simpl; apply explained_step, IH].
  simpl. rewrite <- He. split; auto.
Qed.

End MachineExplained.

(** A write or a copy in a history of a task targets the file of the
    task, after the test that found it missing, and the instruction is
    not the sentinel. *)
Lemma task_history_write s l f h st o r :
  task_history s l f h st -> (o, r) ∈ h -> is_write o = true ->
  target o = Some (l, f) /\ s = false /\
  exists e, (Access (l, f), Rejected e) ∈ h.
Proof.
  intros H Hin Hw.
  assert (Hacc : forall v e ws,
            (Access (l, f), Rejected e)
            ∈ (Mkdir l, Fulfilled v) :: (Access (l, f), Rejected e) :: ws).
  { intros v e ws. apply elem_of_cons. right. apply elem_of_cons. auto. }
  destruct H as [ | e0 | v | v v' | v e0 Hs | v e0 Hs Hl
                 | v e0 v' Hs Hl | v e0 e' Hs Hl
                 | v e0 ws st Hs Hl Hwork];
    try (elem_cases Hin; simplify_eq/=; fail).
  - elem_cases Hin; simplify_eq/=.
    split; [reflexivity|]. split; [reflexivity|]. exists e0. apply Hacc.
  - elem_cases Hin; simplify_eq/=.
    split; [reflexivity|]. split; [reflexivity|]. exists e0. apply Hacc.
  - apply elem_of_cons in Hin as [Hin | Hin]; [simplify_eq/=|].
    apply elem_of_cons in Hin as [Hin | Hin]; [simplify_eq/=|].
    assert (Ht : target o = Some (l, f)).
    { destruct Hwork as [ts Hts | ts o1 e1 Hts Ho1 | ts d v1 Hts
                        | ts d e1 Hts];
        try (apply elem_of_app in Hin as [Hin | Hin];
             [|apply list_elem_of_singleton in Hin; simplify_eq/=;
               try reflexivity;
               match goal with
               | H1 : is_translate ?x = true, H2 : is_write ?x = true |- _ =>
                   destruct x; discriminate
               end]);
        destruct (translated_elem _ _ _ Hts Hin) as (_ & _ & Hnw);
        congruence. }
    split; [exact Ht|]. split; [exact Hs|]. exists e0. apply Hacc.
Qed.

(** The only directory a task makes is that of its language. *)
Lemma task_history_mkdir s l f h st d r :
  task_history s l f h st -> (Mkdir d, r) ∈ h -> d = l.
Proof.
  intros H Hin.
  destruct H as [ | e0 | v | v v' | v e0 Hs | v e0 Hs Hl
                 | v e0 v' Hs Hl | v e0 e' Hs Hl
                 | v e0 ws st Hs Hl Hwork];
    try (elem_cases Hin; simplify_eq/=; reflexivity).
  apply elem_of_cons in Hin as [Hin | Hin]; [simplify_eq/=; auto|].
  apply elem_of_cons in Hin as [Hin | Hin]; [simplify_eq/=|].
  exfalso.
  destruct Hwork as [ts Hts | ts o1 e1 Hts Ho1 | ts d1 v1 Hts
                    | ts d1 e1 Hts];
    try (apply elem_of_app in Hin as [Hin | Hin];
         [|apply list_elem_of_singleton in Hin; simplify_eq/=]);
    destruct (translated_elem _ _ _ Hts Hin) as (Hx & _);
    discriminate.
Qed.

(** X14.  For language codes, file names and a world described with
    plain names, so that a pair of names stands for one output file and
    one only, and the directory of a language lies right under the
    output root: the only
    output files a run of [main] can change are targets that were
    missing at the start, of tasks whose instruction is not the
    sentinel; every other output file, and in particular every output
    file that exists when the run starts, is at every moment as it was
    at the start.  The only directories it can make are those of the
    languages of the translation formats. *)
Theorem main_changes_missing_targets
    (toLowerCase : jsstring -> jsstring)
    (formats : list (jsstring * jsstring))
    (pfiles : list (jsstring * file_type))
    (w : world) (cs : nat -> choice) (n : nat) :
  NoDup pfiles.*1 -> NoDup formats.*1 ->
  Forall (fun file => plain_name file = true) pfiles.*1 ->
  Forall (fun langCode => plain_name langCode = true) formats.*1 ->
  plain_world w ->
  let st := main_run toLowerCase formats pfiles w cs n in
  (forall p,
     files (env st) !! p = files w !! p \/
     (files w !! p = None /\
      exists file ft text l i,
        (file, ft) ∈ pfiles /\ sources w !! file = Some text /\
        (l, i) ∈ formats /\ toLowerCase i <> DONT_TRANSLATE /\
        p = (l, file))) /\
  (forall d, d ∈ dirs (env st) -> d ∈ dirs w \/ d ∈ formats.*1).
Proof.
  intros Hfiles Hformats _ _ _ st.
  destruct (explained_run CONCURRENCY_LIMIT
              (translationTasks toLowerCase formats) w cs
              (main_init pfiles w) eq_refl eq_refl n) as [Hf Hd].
  fold (main_run toLowerCase formats pfiles w cs n) in Hf, Hd.
  fold st in Hf, Hd.
  assert (Hop : forall t o r, EOp t o r ∈ trace st ->
            exists file ft text l i st',
              (file, ft) ∈ pfiles /\ sources w !! file = Some text /\
              (l, i) ∈ formats /\ t = (file, l) /\
              task_history (bool_decide (toLowerCase i = DONT_TRANSLATE))
                l file (history t (trace st)) st').
  { intros t o r Hin.
    pose proof (main_op_started _ _ _ Hfiles Hformats w cs n _ _ _ Hin)
      as Hstart.
    destruct (main_task_history _ _ _ Hfiles Hformats w cs n t Hstart)
      as (file & ft & text & l & i & H1 & H2 & H3 & H4 & Hh).
    exists file, ft, text, l, i.
    destruct Hh as [[_ Hh] | (v & _ & _ & Hh)]; eauto 10. }
  split.
  - intros p. destruct (Hf p) as [H | (t & o & r & Hin & Hw & Ht)];
      [auto|].
    destruct (Hop _ _ _ Hin)
      as (file & ft & text & l & i & st' & H1 & H2 & H3 & -> & Hh).
    apply elem_of_history in Hin.
    destruct (task_history_write _ _ _ _ _ _ _ Hh Hin Hw)
      as (Ht' & Hs & e & Hacc).
    rewrite Ht in Ht'. injection Ht' as ->.
    apply bool_decide_eq_false in Hs.
    destruct (files w !! (l, file)) as [data|] eqn:Ep.
    + exfalso.
      assert (Hr : is_rejected (Rejected e) = false).
      { eapply (main_access_fulfilled toLowerCase formats pfiles w cs n);
          [rewrite Ep; eauto | exact Hacc]. }
      discriminate.
    + right. split; [reflexivity|]. exists file, ft, text, l, i. auto.
  - intros d Hin. destruct (Hd d Hin) as [H | (t & r & Hop')]; [auto|].
    right.
    destruct (Hop _ _ _ Hop')
      as (file & ft & text & l & i & st' & H1 & H2 & H3 & -> & Hh).
    apply elem_of_history in Hop'.
    rewrite (task_history_mkdir _ _ _ _ _ _ _ Hh Hop').
    apply list_elem_of_fmap. exists (l, i). auto.
Qed.

Lemma main_changes_missing_targets_witness :
  let formats := [(js "de", js "formal"); (js "fr", js "formal")] in
  let pfiles := [(js "a.md", markdown); (js "b.html", html)] in
  let w := World {[ js "a.md" := js "hello"; js "b.html" := js "<p>hi</p>" ]}
             {[ js "de" ]} {[ (js "de", js "a.md") := js "hallo" ]} in
  let cs := fun n : nat => Choice n (Fulfilled (js "salut")) None in
  NoDup pfiles.*1 /\ NoDup formats.*1 /\
  Forall (fun file => plain_name file = true) pfiles.*1 /\
  Forall (fun langCode => plain_name langCode = true) formats.*1 /\
  plain_world w /\
  (files (env (main_run ascii_toLowerCase formats pfiles w cs 40))
     !! (js "de", js "a.md") = files w !! (js "de", js "a.md") \/
   (files w !! (js "de", js "a.md") = None /\
    exists file ft text l i,
      (file, ft) ∈ pfiles /\ sources w !! file = Some text /\
      (l, i) ∈ formats /\ ascii_toLowerCase i <> DONT_TRANSLATE /\
      (js "de", js "a.md") = (l, file))) /\
  forall d,
    d ∈ dirs (env (main_run ascii_toLowerCase formats pfiles w cs 40)) ->
    d ∈ dirs w \/ d ∈ formats.*1.
Proof.
  intros formats pfiles w cs.
  assert (H1 : NoDup pfiles.*1)
    by (apply (bool_decide_unpack _); vm_compute; exact I).
  assert (H2 : NoDup formats.*1)
    by (apply (bool_decide_unpack _); vm_compute; exact I).
  assert (H3 : Forall (fun file => plain_name file = true) pfiles.*1)
    by (repeat constructor).
  assert (H4 : Forall (fun langCode => plain_name langCode = true)
                 formats.*1)
    by (repeat constructor).
  assert (H5 : plain_world w)
    by (split; [|split]; apply (bool_decide_unpack _); vm_compute; exact I).
  split; [exact H1|]. split; [exact H2|].
  split; [exact H3|]. split; [exact H4|]. split; [exact H5|].
  destruct (main_changes_missing_targets ascii_toLowerCase formats
              pfiles w cs 40 H1 H2 H3 H4 H5) as [Hf Hd].
  split; [apply Hf | exact Hd].
Defined.

(** * One file at a time *)

Section MachineSequenced.

Context {T R D X : Type}.
Variable key : T -> X.
Variable K : nat.
Variable job : world -> D -> list (T * prog R).
Hypothesis job_key : forall w d t t',
  t ∈ (job w d).*1 -> t' ∈ (job w d).*1 -> key t = key t'.
Implicit Types (st : machine T R D) (tr : list (event T R)).

Lemma settles_more tr tr' t :
  t ∈ (settles tr).*1 -> t ∈ (settles (tr ++ tr')).*1.
Proof.
  intros H. rewrite settles_app, fmap_app. apply elem_of_app. auto.
Qed.

Lemma file_barrier_snoc_other tr ev :
  file_barrier key tr -> (forall t, ev <> EStart t) ->
  file_barrier key (tr ++ [ev]).
Proof.
  intros B Hev p t rest Heq t' Ht' Hk.
  apply snoc_eq_middle in Heq as [(_ & _ & Heq) | (rest' & _ & Heq)].
  - exfalso. apply (Hev t). auto.
  - eapply B; eassumption.
Qed.

Lemma file_barrier_snoc_start tr t :
  file_barrier key tr ->
  (forall t', t' ∈ starts tr -> key t' <> key t -> t' ∈ (settles tr).*1) ->
  file_barrier key (tr ++ [EStart t]).
Proof.
  intros B Ht p t0 rest Heq t' Ht' Hk.
  apply snoc_eq_middle in Heq as [(_ & -> & Heq) | (rest' & _ & Heq)].
  - injection Heq as ->. apply Ht; assumption.
  - eapply B; eassumption.
Qed.

Lemma sequenced_start_task slice st tp :
  sequenced key (tp :: slice) st -> sequenced key slice (start_task st tp).
Proof.
  intros [B Hsame Hcalled].
  assert (Htp : tp.1 ∈ (batch st ++ (tp :: slice) ++ pending st).*1).
  { rewrite !fmap_app. apply elem_of_app. right. apply elem_of_app. left.
    simpl. left. }
  assert (Hbar : file_barrier key (trace st ++ [EStart tp.1])).
  { apply file_barrier_snoc_start; [exact B|]. intros t' Ht' Hk.
    destruct (Hcalled t' Ht') as [Hb | Hs]; [|exact Hs].
    exfalso. apply Hk. apply Hsame; [|exact Htp].
    rewrite fmap_app. apply elem_of_app. auto. }
  unfold start_task. destruct (settled_result tp.2) as [v|];
    constructor; simpl.
  - change [EStart tp.1; ESettle tp.1 v]
      with ([EStart (R := R) tp.1] ++ [ESettle tp.1 v]).
    rewrite app_assoc. apply file_barrier_snoc_other; [exact Hbar|].
    discriminate.
  - intros t t' Hin Hin'. apply Hsame.
    + rewrite !fmap_app in Hin |- *. simpl. set_solver.
    + rewrite !fmap_app in Hin' |- *. simpl. set_solver.
  - intros t Hin. rewrite starts_app in Hin.
    apply elem_of_app in Hin as [Hin | Hin].
    + destruct (Hcalled t Hin) as [Hb | Hs]; [left; exact Hb|].
      right. apply settles_more, Hs.
    + simpl in Hin. apply list_elem_of_singleton in Hin as ->.
      right. rewrite settles_app, fmap_app. apply elem_of_app.
      right. simpl. left.
  - exact Hbar.
  - intros t t' Hin Hin'. apply Hsame.
    + rewrite !fmap_app in Hin |- *. simpl in *. set_solver.
    + rewrite !fmap_app in Hin' |- *. simpl in *. set_solver.
  - intros t Hin. rewrite starts_app in Hin.
    apply elem_of_app in Hin as [Hin | Hin].
    + destruct (Hcalled t Hin) as [Hb | Hs].
      * left. rewrite fmap_app. apply elem_of_app. auto.
      * right. apply settles_more, Hs.
    + simpl in Hin. apply list_elem_of_singleton in Hin as ->.
      left. rewrite fmap_app. apply elem_of_app. right. simpl. left.
Qed.

Lemma sequenced_launch slice :
  forall rest st,
    sequenced key (slice ++ rest) st ->
    sequenced key rest (launch st slice).
Proof.
  induction slice as [|tp slice IH]; intros rest st B; [exact B|].
  simpl. apply IH, sequenced_start_task, B.
Qed.

Lemma sequenced_step_task c st :
  sequenced key [] st -> sequenced key [] (step_task c st).
Proof.
  intros G. unfold step_task.
  destruct (batch st !! (pick c mod length (batch st))%nat)
    as [[t p]|] eqn:Hi; [|exact G].
  destruct p as [a | e | o k]; try exact G.
  destruct G as [B Hsame Hcalled].
  destruct (perform c (env st) o) as [w' r].
  destruct (settled_result (k r)) as [v|]; constructor; simpl;
    rewrite ?starts_app; simpl; rewrite ?app_nil_r.
  - change [EOp t o r; ESettle t v]
      with ([EOp (R := R) t o r] ++ [ESettle t v]).
    rewrite app_assoc.
    apply file_barrier_snoc_other; [apply file_barrier_snoc_other|]; auto;
      discriminate.
  - assert (Hsub : forall t0, t0 ∈ (delete (pick c mod length (batch st))%nat
                                     (batch st) ++ pending st).*1 ->
                              t0 ∈ (batch st ++ [] ++ pending st).*1).
    { intros t0 Hin. simpl. rewrite fmap_app in Hin |- *.
      apply elem_of_app in Hin as [Hin | Hin]; apply elem_of_app; auto.
      left. apply list_elem_of_fmap in Hin as (x & -> & Hin).
      apply list_elem_of_fmap. exists x. split; [reflexivity|].
      eapply list_elem_of_delete_inv, Hin. }
    intros t0 t' Hin Hin'. apply Hsame; apply Hsub; assumption.
  - intros t' Ht'. destruct (Hcalled t' Ht') as [Hb | Hs].
    + destruct (keyed_delete_keys _ _ _ _ _ Hi Hb) as [-> | Hb'].
      * right. rewrite settles_app, fmap_app. apply elem_of_app.
        right. simpl. left.
      * left. exact Hb'.
    + right. apply settles_more, Hs.
  - apply file_barrier_snoc_other; [exact B | discriminate].
  - intros t0 t' Hin Hin'. simpl in Hsame.
    rewrite fmap_app, (keyed_insert_keys _ _ _ _ _ Hi), <- fmap_app
      in Hin, Hin'.
    apply Hsame; assumption.
  - intros t' Ht'. rewrite (keyed_insert_keys _ _ _ _ _ Hi).
    destruct (Hcalled t' Ht') as [Hb | Hs]; [left; exact Hb|].
    right. apply settles_more, Hs.
Qed.

Lemma sequenced_step c st :
  sequenced key [] st -> sequenced key [] (step K job c st).
Proof.
  intros G. unfold step.
  destruct (batch st) as [|tp0 b] eqn:Eb;
    [|apply sequenced_step_task, G].
  destruct G as [B Hsame Hcalled]. rewrite Eb in Hsame, Hcalled.
  assert (Hsettled : forall t, t ∈ starts (trace st) ->
                               t ∈ (settles (trace st)).*1).
  { intros t Ht. destruct (Hcalled t Ht) as [Hb | Hs]; [|exact Hs].
    inversion Hb. }
  destruct (pending st) as [|tp pend] eqn:Epend.
  - destruct (docs st) as [|d ds]; constructor; simpl;
      rewrite ?Eb, ?Epend; auto.
    intros t t' Hin Hin'. eapply job_key; eassumption.
  - apply (sequenced_launch (take K (tp :: pend)) []).
    rewrite app_nil_r. constructor; simpl; auto.
    rewrite take_drop. exact Hsame.
Qed.

Lemma sequenced_run cs st :
  batch st = [] -> pending st = [] -> trace st = [] ->
  forall n, sequenced key [] (run K job cs n st).
Proof.
  intros Hb Hp Htr. induction n as [|n IH];
    [|simpl; apply sequenced_step, IH].
  simpl. constructor; rewrite ?Hb, ?Hp, ?Htr.
  - intros p t rest Heq. destruct p; discriminate.
  - intros t t' Hin. inversion Hin.
  - intros t Hin. inversion Hin.
Qed.

End MachineSequenced.

(** X15.  [main] works on one file at a time, with at most
    [CONCURRENCY_LIMIT] tasks in flight: at every moment of a run, over
    all the files, the number of tasks called and not settled is at
    most ten; when a task is called, every task of another file that
    was called before it has settled; and the tasks that are pending
    together all belong to one file. *)
Theorem main_one_file_at_a_time
    (toLowerCase : jsstring -> jsstring)
    (formats : list (jsstring * jsstring))
    (pfiles : list (jsstring * file_type))
    (w : world) (cs : nat -> choice) (n : nat) :
  let st := main_run toLowerCase formats pfiles w cs n in
  (forall tr, tr `prefix_of` trace st -> in_flight tr <= 10) /\
  (forall p t rest,
     trace st = p ++ EStart t :: rest ->
     forall t', t' ∈ starts p -> t'.1 <> t.1 -> t' ∈ (settles p).*1) /\
  (forall t t', t ∈ (batch st).*1 -> t' ∈ (batch st).*1 -> t.1 = t'.1).
Proof.
  intros st.
  destruct (bounded_run CONCURRENCY_LIMIT
              (translationTasks toLowerCase formats) cs
              (main_init pfiles w) eq_refl eq_refl n) as [Hb _ _].
  destruct (sequenced_run fst CONCURRENCY_LIMIT
              (translationTasks toLowerCase formats)
              ltac:(intros w0 d t t' Ht Ht';
                    apply job_keys in Ht as [-> _];
                    apply job_keys in Ht' as [-> _]; reflexivity)
              cs (main_init pfiles w) eq_refl eq_refl eq_refl n)
    as [Hbar Hsame _].
  split; [exact Hb|]. split; [exact Hbar|].
  intros t t' Ht Ht'. apply Hsame; rewrite fmap_app; apply elem_of_app; auto.
Qed.

(** * The order of the calls *)

Lemma main_tasks_keys toLowerCase formats pfiles w :
  (main_tasks toLowerCase formats pfiles w).*1
  = concat ((fun d : jsstring * file_type =>
               match sources w !! d.1 with
               | Some _ => (fun e : jsstring * jsstring => (d.1, e.1))
                             <$> formats
               | None => []
               end) <$> pfiles).
Proof.
  unfold main_tasks, todo, main_init. simpl.
  induction pfiles as [|d ds IH]; [reflexivity|].
  rewrite !fmap_cons. cbn [concat]. rewrite fmap_app, IH. f_equal.
  unfold translationTasks. destruct (sources w !! d.1); [|reflexivity].
  rewrite <- list_fmap_compose. reflexivity.
Qed.

(** X16.  Every task is called once, file after file in the order of the
    files and, for one file, in the order of the translation formats; a
    file that cannot be read is passed over.  At every moment the tasks
    called so far are the first ones of that order, and when the run
    has come to its end all of them have been called. *)
Theorem main_calls_in_order
    (toLowerCase : jsstring -> jsstring)
    (formats : list (jsstring * jsstring))
    (pfiles : list (jsstring * file_type))
    (w : world) (cs : nat -> choice) :
  NoDup pfiles.*1 -> NoDup formats.*1 ->
  let order :=
    concat ((fun d : jsstring * file_type =>
               match sources w !! d.1 with
               | Some _ => (fun e : jsstring * jsstring => (d.1, e.1))
                             <$> formats
               | None => []
               end) <$> pfiles) in
  let st := main_run toLowerCase formats pfiles w cs in
  NoDup order /\
  (forall n, starts (trace (st n)) `prefix_of` order) /\
  (forall n, final (st n) -> starts (trace (st n)) = order).
Proof.
  intros Hfiles Hformats order st.
  assert (Ho : order = (main_tasks toLowerCase formats pfiles w).*1)
    by (symmetry; apply main_tasks_keys).
  rewrite Ho. split; [apply main_tasks_nodup; assumption|]. split.
  - intros n. unfold st.
    destruct (main_linked toLowerCase formats pfiles Hfiles Hformats w cs n)
      as (started & L).
    rewrite (linked_starts _ _ _ _ _ L).
    exists (([] ++ todo (translationTasks toLowerCase formats)
                      (main_run toLowerCase formats pfiles w cs n)).*1).
    rewrite <- fmap_app. f_equal. apply (linked_tasks _ _ _ _ _ L).
  - intros n Hfin. unfold st in *.
    destruct (main_linked toLowerCase formats pfiles Hfiles Hformats w cs n)
      as (started & L).
    apply (linked_final _ _ _ _ L Hfin).
Qed.

Lemma main_calls_in_order_witness :
  let formats := [(js "de", js "formal"); (js "fr", js "formal")] in
  let pfiles := [(js "a.md", markdown); (js "missing.md", markdown);
                 (js "b.html", html)] in
  let w := World {[ js "a.md" := js "hello"; js "b.html" := js "<p>hi</p>" ]}
             ∅ ∅ in
  let cs := fun n : nat => Choice n (Fulfilled (js "salut")) None in
  NoDup pfiles.*1 /\ NoDup formats.*1 /\
  forall n,
    starts (trace (main_run ascii_toLowerCase formats pfiles w cs n))
    `prefix_of` [(js "a.md", js "de"); (js "a.md", js "fr");
                 (js "b.html", js "de"); (js "b.html", js "fr")].
Proof.
  intros formats pfiles w cs.
  assert (H1 : NoDup pfiles.*1)
    by (apply (bool_decide_unpack _); vm_compute; exact I).
  assert (H2 : NoDup formats.*1)
    by (apply (bool_decide_unpack _); vm_compute; exact I).
  split; [exact H1|]. split; [exact H2|].
  exact (proj1 (proj2 (main_calls_in_order ascii_toLowerCase formats
                         pfiles w cs H1 H2))).
Defined.

(** * The translation client *)

Lemma trimStart_white ws s :
  Forall (fun c => is_white_space c = true) ws ->
  trimStart (ws ++ s) = trimStart s.
Proof.
  induction 1 as [|c ws Hc _ IH]; [reflexivity|].
  simpl. rewrite Hc. exact IH.
Qed.

Lemma trimStart_black c s :
  is_white_space c = false -> trimStart (c :: s) = c :: s.
Proof. intros H. simpl. rewrite H. reflexivity. Qed.

Lemma trimStart_shape s :
  trimStart s = [] \/
  exists c s', trimStart s = c :: s' /\ is_white_space c = false.
Proof.
  induction s as [|c s IH]; [left; reflexivity|].
  simpl. destruct (is_white_space c) eqn:E; [exact IH|].
  right. exists c, s. auto.
Qed.

Lemma trimStart_idem s : trimStart (trimStart s) = trimStart s.
Proof.
  destruct (trimStart_shape s) as [-> | (c & s' & -> & Hc)];
    [reflexivity | apply trimStart_black, Hc].
Qed.

Lemma trimStart_snoc l c :
  is_white_space c = false -> exists l', trimStart (l ++ [c]) = l' ++ [c].
Proof.
  intros Hc. induction l as [|x l IH].
  - exists []. simpl. rewrite Hc. reflexivity.
  - simpl. destruct (is_white_space x); [exact IH|].
    exists (x :: l). reflexivity.
Qed.

Lemma trimEnd_white s ws :
  Forall (fun c => is_white_space c = true) ws ->
  trimEnd (s ++ ws) = trimEnd s.
Proof.
  intros H. unfold trimEnd. rewrite reverse_app.
  rewrite trimStart_white; [reflexivity|].
  apply Forall_reverse, H.
Qed.

Lemma trimEnd_black s c :
  is_white_space c = false -> trimEnd (s ++ [c]) = s ++ [c].
Proof.
  intros H. unfold trimEnd. rewrite reverse_app. simpl. rewrite H.
  rewrite reverse_cons, reverse_involutive. reflexivity.
Qed.

Lemma trimEnd_nil : trimEnd [] = [].
Proof. reflexivity. Qed.

(** A text that starts and ends with code units that are no white space
    is left as it is. *)
Lemma trim_black c m c' :
  is_white_space c = false -> is_white_space c' = false ->
  forall s, s = c :: m -> forall m', s = m' ++ [c'] -> trim s = s.
Proof.
  intros Hc Hc' s Hs m' Hs'. unfold trim.
  rewrite Hs, (trimStart_black _ _ Hc), <- Hs, Hs'.
  apply trimEnd_black, Hc'.
Qed.

Lemma trim_white ws1 s ws2 :
  Forall (fun c => is_white_space c = true) ws1 ->
  Forall (fun c => is_white_space c = true) ws2 ->
  trim (ws1 ++ s ++ ws2) = trim (s ++ ws2).
Proof.
  intros H1 H2. unfold trim. rewrite (trimStart_white _ _ H1). reflexivity.
Qed.

(** What [trim] returns is empty, or starts and ends with code units
    that are no white space. *)
Lemma trim_shape s :
  trim s = [] \/
  exists c m m' c',
    trim s = c :: m /\ trim s = m' ++ [c'] /\
    is_white_space c = false /\ is_white_space c' = false.
Proof.
  unfold trim.
  destruct (trimStart_shape s) as [-> | (c & t & -> & Hc)];
    [left; reflexivity|].
  right. unfold trimEnd. rewrite reverse_cons.
  destruct (trimStart_snoc (reverse t) c Hc) as (l' & El).
  destruct (trimStart_shape (reverse t ++ [c]))
    as [E0 | (c' & r & E1 & Hc')].
  - rewrite El in E0. destruct l'; discriminate.
  - exists c, (reverse l'), (reverse r), c'.
    split; [rewrite El, reverse_app, reverse_singleton; reflexivity|].
    split; [|auto].
    rewrite E1, reverse_cons. reflexivity.
Qed.

Lemma trim_idem s : trim (trim s) = trim s.
Proof.
  destruct (trim_shape s) as [-> | (c & m & m' & c' & E1 & E2 & Hc & Hc')];
    [reflexivity|].
  eapply (trim_black c m c'); eassumption.
Qed.


Lemma trim_core ws1 m ws2 c m1 m2 c' :
  Forall (fun c => is_white_space c = true) ws1 ->
  Forall (fun c => is_white_space c = true) ws2 ->
  m = c :: m1 -> m = m2 ++ [c'] ->
  is_white_space c = false -> is_white_space c' = false ->
  trim (ws1 ++ m ++ ws2) = m.
Proof.
  intros H1 H2 E1 E2 Hc Hc'. rewrite (trim_white _ _ _ H1 H2).
  unfold trim. rewrite E1. simpl. rewrite Hc.
  change (c :: m1 ++ ws2) with ((c :: m1) ++ ws2).
  rewrite (trimEnd_white _ _ H2), <- E1, E2. apply trimEnd_black, Hc'.
Qed.

Lemma startsWith_app p s : startsWith p (p ++ s) = true.
Proof.
  unfold startsWith. apply bool_decide_eq_true. apply take_app_length.
Qed.

Lemma endsWith_app s p : endsWith p (s ++ p) = true.
Proof.
  unfold endsWith. apply bool_decide_eq_true. rewrite length_app.
  split; [lia|].
  replace (length s + length p - length p)%nat with (length s) by lia.
  apply drop_app_length.
Qed.

Lemma substring_inner p inner q :
  substring (p ++ inner ++ q) (len p) (len (p ++ inner ++ q) - len q)
  = inner.
Proof.
  rewrite !len_app.
  pose proof (len_nonneg p). pose proof (len_nonneg inner).
  pose proof (len_nonneg q).
  rewrite substring_ordered by (rewrite ?len_app; lia).
  unfold len. rewrite Nat2Z.id.
  replace (Z.to_nat (Z.of_nat (length p) + (Z.of_nat (length inner)
             + Z.of_nat (length q)) - Z.of_nat (length q)
           - Z.of_nat (length p))) with (length inner) by lia.
  rewrite drop_app_length. apply take_app_length.
Qed.

(** A fenced text between white space, trimmed. *)
Lemma trim_fenced (ws1 fence inner ws2 : jsstring) :
  Forall (fun c => is_white_space c = true) ws1 ->
  Forall (fun c => is_white_space c = true) ws2 ->
  (exists f : jsstring, fence = (96%N : char) :: f) ->
  trim (ws1 ++ (fence ++ inner ++ endFence) ++ ws2)
  = fence ++ inner ++ endFence.
Proof.
  intros H1 H2 (f & ->).
  apply (trim_core ws1 _ ws2 96%N (f ++ inner ++ endFence)
           ((96%N :: f) ++ inner ++ [96; 96]%N) 96%N); auto.
  rewrite <- !app_assoc. reflexivity.
Qed.

Lemma strip_markdown_fence inner :
  strip_fences (startFenceMd ++ inner ++ endFence) = trim inner.
Proof.
  unfold strip_fences.
  rewrite startsWith_app.
  rewrite (app_assoc startFenceMd inner endFence) at 1.
  rewrite endsWith_app. cbn [andb].
  rewrite substring_inner. reflexivity.
Qed.

Lemma startsWith_other_fence inner :
  startsWith startFenceMd (startFenceHtml ++ inner ++ endFence) = false.
Proof.
  unfold startsWith. apply bool_decide_eq_false.
  unfold startFenceMd, startFenceHtml. simpl. discriminate.
Qed.

Lemma strip_html_fence inner :
  strip_fences (startFenceHtml ++ inner ++ endFence) = trim inner.
Proof.
  unfold strip_fences.
  rewrite startsWith_other_fence. cbn [andb].
  rewrite startsWith_app.
  rewrite (app_assoc startFenceHtml inner endFence) at 1.
  rewrite endsWith_app. cbn [andb].
  rewrite substring_inner. reflexivity.
Qed.

Lemma fence_word_prefix word inner :
  96%N ∉ word ->
  startsWith (endFence ++ word) (endFence ++ inner ++ endFence) = true ->
  startsWith word inner = true.
Proof.
  unfold startsWith. intros Hw H.
  apply bool_decide_eq_true in H. apply bool_decide_eq_true.
  rewrite length_app, take_app in H.
  rewrite take_ge in H by lia.
  apply app_inv_head in H.
  replace (length endFence + length word - length endFence)%nat
    with (length word) in H by lia.
  rewrite take_app in H.
  destruct (decide (length word <= length inner)%nat) as [Hle | Hgt].
  - replace (length word - length inner)%nat with O in H by lia.
    rewrite take_0, app_nil_r in H. exact H.
  - exfalso. apply Hw. rewrite <- H. apply elem_of_app. right.
    destruct (length word - length inner)%nat as [|k] eqn:E; [lia|].
    simpl. left.
Qed.

Lemma strip_plain_fence inner :
  startsWith (js "markdown") inner = false ->
  startsWith (js "html") inner = false ->
  strip_fences (endFence ++ inner ++ endFence) = trim inner.
Proof.
  intros Hm Hh. unfold strip_fences.
  assert (H1 : startsWith startFenceMd (endFence ++ inner ++ endFence)
               = false).
  { destruct (startsWith startFenceMd (endFence ++ inner ++ endFence))
      eqn:E; [|reflexivity].
    apply (fence_word_prefix (js "markdown")) in E; [congruence|].
    vm_compute. intros H. elem_cases H; discriminate. }
  assert (H2 : startsWith startFenceHtml (endFence ++ inner ++ endFence)
               = false).
  { destruct (startsWith startFenceHtml (endFence ++ inner ++ endFence))
      eqn:E; [|reflexivity].
    apply (fence_word_prefix (js "html")) in E; [congruence|].
    vm_compute. intros H. elem_cases H; discriminate. }
  rewrite H1, H2. cbn [andb].
  rewrite startsWith_app.
  rewrite (app_assoc endFence inner endFence) at 1.
  rewrite endsWith_app. cbn [andb].
  rewrite substring_inner. reflexivity.
Qed.

Lemma translateText_content targetLang content :
  trim content <> [] ->
  translateText targetLang (Content content)
  = Fulfilled (strip_fences (trim content)).
Proof.
  intros H. unfold translateText, translateText_try. cbv zeta.
  rewrite (bool_decide_eq_false_2 _ H). reflexivity.
Qed.

(** X18.  Code fences around the answer are removed.  An answer that is,
    between white space, a text between the opening fence for Markdown
    or for HTML and the closing fence, gives the text trimmed; so does
    an answer between two bare fences, provided the text does not go on
    with the word that would make the opening fence one of the other
    two. *)
Theorem fenced_answer (targetLang ws1 inner ws2 : jsstring) :
  Forall (fun c => is_white_space c = true) ws1 ->
  Forall (fun c => is_white_space c = true) ws2 ->
  translateText targetLang
    (Content (ws1 ++ (js "```markdown" ++ inner ++ js "```") ++ ws2))
  = Fulfilled (trim inner) /\
  translateText targetLang
    (Content (ws1 ++ (js "```html" ++ inner ++ js "```") ++ ws2))
  = Fulfilled (trim inner) /\
  (startsWith (js "markdown") inner = false ->
   startsWith (js "html") inner = false ->
   translateText targetLang
     (Content (ws1 ++ (js "```" ++ inner ++ js "```") ++ ws2))
   = Fulfilled (trim inner)).
Proof.
  intros H1 H2.
  change (js "```markdown") with startFenceMd.
  change (js "```html") with startFenceHtml.
  change (js "```") with endFence.
  split; [|split; [|intros Hm Hh]];
    rewrite translateText_content;
    rewrite ?(trim_fenced ws1 _ inner ws2 H1 H2) by (eexists; reflexivity);
    try discriminate.
  - rewrite strip_markdown_fence. reflexivity.
  - rewrite strip_html_fence. reflexivity.
  - rewrite (strip_plain_fence _ Hm Hh). reflexivity.
Qed.

Lemma fenced_answer_witness :
  translateText (js "de")
    (Content (js " " ++ (js "```markdown" ++ [LF] ++ js "# Hallo" ++ [LF]
                         ++ js "```") ++ [LF]))
  = Fulfilled (js "# Hallo").
Proof.
  exact (proj1 (fenced_answer (js "de") (js " ")
                  ([LF] ++ js "# Hallo" ++ [LF]) [LF]
                  ltac:(repeat constructor) ltac:(repeat constructor))).
Defined.


Lemma trimStart_part s : exists a, s = a ++ trimStart s.
Proof.
  induction s as [|c s (a & IH)]; [exists []; reflexivity|].
  simpl. destruct (is_white_space c).
  - exists (c :: a). simpl. rewrite <- IH. reflexivity.
  - exists []. reflexivity.
Qed.

Lemma trimEnd_part s : exists b, s = trimEnd s ++ b.
Proof.
  unfold trimEnd. destruct (trimStart_part (reverse s)) as (a & E).
  exists (reverse a). rewrite <- reverse_app, <- E.
  symmetry. apply reverse_involutive.
Qed.

Lemma trim_part s : exists a b, s = a ++ trim s ++ b.
Proof.
  unfold trim. destruct (trimStart_part s) as (a & Ea).
  destruct (trimEnd_part (trimStart s)) as (b & Eb).
  exists a, b. rewrite <- Eb. exact Ea.
Qed.

Lemma substring_part s x y : exists a b, s = a ++ substring s x y ++ b.
Proof.
  unfold substring. eexists (take _ s), (drop _ (drop _ s)).
  rewrite take_drop, take_drop. reflexivity.
Qed.

Lemma part_trans (s t u : jsstring) :
  (exists a b, s = a ++ t ++ b) -> (exists a b, t = a ++ u ++ b) ->
  exists a b, s = a ++ u ++ b.
Proof.
  intros (a & b & ->) (a' & b' & ->).
  exists (a ++ a'), (b' ++ b). rewrite <- !app_assoc. reflexivity.
Qed.

Lemma strip_fences_part tc : exists a b, tc = a ++ strip_fences tc ++ b.
Proof.
  unfold strip_fences.
  repeat match goal with
         | |- context [if ?c then _ else _] => destruct c
         end;
    try (eapply part_trans; [apply substring_part | apply trim_part]).
  exists [], []. rewrite app_nil_r. reflexivity.
Qed.

Lemma strip_fences_trimmed tc :
  trim tc = tc -> trim (strip_fences tc) = strip_fences tc.
Proof.
  intros H. unfold strip_fences.
  repeat match goal with
         | |- context [if ?c then _ else _] => destruct c
         end;
    try apply trim_idem.
  exact H.
Qed.

(** X19.  What [translateText] returns.  The promise is fulfilled only when
    the answer holds a content that is not blank; the value is then the
    trimmed content without its fences: it has no white space at its
    ends, and it is a part of the content, so nothing is added to what
    the service sent. *)
Theorem translateText_fulfilled (targetLang : jsstring) (settled : posted)
    (v : jsstring) :
  translateText targetLang settled = Fulfilled v ->
  exists content,
    settled = Content content /\ trim content <> [] /\
    v = strip_fences (trim content) /\
    trim v = v /\
    exists before after, content = before ++ v ++ after.
Proof.
  unfold translateText, translateText_try.
  destruct settled as [e | m | | content]; try discriminate.
  cbv zeta. destruct (bool_decide (trim content = [])) eqn:E;
    [discriminate|].
  apply bool_decide_eq_false in E. intros [= <-].
  exists content. split; [reflexivity|]. split; [exact E|].
  split; [reflexivity|]. split.
  - apply strip_fences_trimmed, trim_idem.
  - eapply part_trans; [apply trim_part | apply strip_fences_part].
Qed.

Lemma translateText_fulfilled_witness :
  exists content,
    Content (js " ```html<p>Hallo</p> ``` ") = Content content /\
    trim content <> [] /\
    js "<p>Hallo</p>" = strip_fences (trim content) /\
    trim (js "<p>Hallo</p>") = js "<p>Hallo</p>" /\
    exists before after, content = before ++ js "<p>Hallo</p>" ++ after.
Proof.
  exact (translateText_fulfilled (js "de")
           (Content (js " ```html<p>Hallo</p> ``` ")) (js "<p>Hallo</p>")
           eq_refl).
Defined.




(** * What a target file holds *)

Section MachineEffect.

Context {T R D : Type} `{EqDecision T}.
Variable K : nat.
Variable job : world -> D -> list (T * prog R).
Implicit Types (st : machine T R D).

Lemma no_ops_nil : no_ops (T := T) (R := R) [].
Proof. intros t o r H. inversion H. Qed.

Lemma no_ops_history t (evs : list (event T R)) :
  no_ops evs -> history t evs = [].
Proof.
  intros H. apply nil_no_elem. intros [o r] Hin.
  apply elem_of_history in Hin. exact (H _ _ _ Hin).
Qed.

Lemma launch_effect group :
  forall st,
    env (launch st group) = env st /\
    exists evs, trace (launch st group) = trace st ++ evs /\ no_ops evs.
Proof.
  induction group as [|tp group IH]; intros st.
  - split; [reflexivity|]. exists []. rewrite app_nil_r.
    split; [reflexivity | apply no_ops_nil].
  - simpl. destruct (IH (start_task st tp)) as (He & evs & Htr & Hno).
    assert (Hs : env (start_task st tp) = env st /\
                 exists evs0, trace (start_task st tp) = trace st ++ evs0 /\
                              no_ops evs0).
    { unfold start_task. destruct (settled_result tp.2); simpl;
        (split; [reflexivity|]); eexists; (split; [reflexivity|]);
        intros t o r Hin; elem_cases Hin; discriminate. }
    destruct Hs as (He0 & evs0 & Htr0 & Hno0).
    split; [congruence|]. exists (evs0 ++ evs).
    rewrite Htr, Htr0, app_assoc. split; [reflexivity|].
    intros t o r Hin. apply elem_of_app in Hin as [Hin | Hin];
      [exact (Hno0 _ _ _ Hin) | exact (Hno _ _ _ Hin)].
Qed.

(** One step of the loop: either the world stays and no operation is
    added to the history, or one operation is performed and added. *)
Lemma step_effect c st :
  (env (step K job c st) = env st /\
   exists evs, trace (step K job c st) = trace st ++ evs /\ no_ops evs) \/
  (exists t o r evs,
     perform c (env st) o = (env (step K job c st), r) /\
     trace (step K job c st) = trace st ++ EOp t o r :: evs /\
     no_ops evs).
Proof.
  assert (Hsame : forall st', st' = st ->
            env st' = env st /\
            exists evs, trace st' = trace st ++ evs /\ no_ops evs).
  { intros st' ->. split; [reflexivity|]. exists [].
    rewrite app_nil_r. split; [reflexivity | apply no_ops_nil]. }
  unfold step. destruct (batch st) as [|tp0 b] eqn:Eb.
  - left. destruct (pending st) as [|tp pend].
    + destruct (docs st); [apply Hsame; reflexivity|].
      simpl. split; [reflexivity|]. exists [].
      rewrite app_nil_r. split; [reflexivity | apply no_ops_nil].
    + apply (launch_effect _ (Machine _ _ _ _ _)).
  - unfold step_task. rewrite Eb.
    destruct ((tp0 :: b) !! (pick c mod length (tp0 :: b))%nat)
      as [[t p]|]; [|left; apply Hsame; reflexivity].
    destruct p as [a | e | o k]; try (left; apply Hsame; reflexivity).
    destruct (perform c (env st) o) as [w' r] eqn:Ep.
    right. exists t, o, r. rewrite Ep.
    destruct (settled_result (k r)) as [v|]; simpl; eexists;
      (split; [reflexivity|]); (split; [reflexivity|]).
    + intros t' o' r' Hin. elem_cases Hin; discriminate.
    + apply no_ops_nil.
Qed.

End MachineEffect.

Lemma write_file_fulfilled c w p data w' v :
  write_file c w p data = (w', Fulfilled v) -> files w' !! p = Some data.
Proof.
  unfold write_file. intros H.
  destruct (bool_decide (p.1 ∈ dirs w)); [|discriminate].
  destruct (answer c); [|destruct (partial c); discriminate].
  injection H as <- _. simpl. apply lookup_insert_eq.
Qed.

Lemma perform_write c w o w' v p :
  perform c w o = (w', Fulfilled v) ->
  is_write o = true -> target o = Some p ->
  files w' !! p = payload w o /\ is_Some (payload w o).
Proof.
  intros H Hw Ht.
  destruct o as [d | q | src dst | text l i ft | q data];
    try discriminate; simpl in H, Ht; injection Ht as ->; simpl.
  - destruct (sources w !! src) as [data|]; [|discriminate].
    split; [|eauto]. eapply write_file_fulfilled, H.
  - split; [|eauto]. eapply write_file_fulfilled, H.
Qed.

(** A write or a copy is the last operation of a task. *)
Lemma task_history_write_last s l f h st h1 o r h2 :
  task_history s l f h st -> h = h1 ++ (o, r) :: h2 ->
  is_write o = true -> h2 = [].
Proof.
  intros H E Hw.
  assert (Hwork : forall ws st0 w1,
            work_history l f ws st0 -> ws = w1 ++ (o, r) :: h2 -> h2 = []).
  { intros ws st0 w1 Hwh Ews.
    assert (Hno : forall ts, Forall translated ts -> (o, r) ∉ ts).
    { intros ts Hts Hin.
      destruct (translated_elem _ _ _ Hts Hin) as (_ & _ & Hnw).
      congruence. }
    assert (Hlast : forall ts x,
              Forall translated ts ->
              ts ++ [x] = w1 ++ (o, r) :: h2 -> h2 = []).
    { intros ts x Hts Eq.
      destruct h2 as [|z h2 _] using rev_ind; [reflexivity|].
      exfalso.
      change (w1 ++ (o, r) :: h2 ++ [z])
        with (w1 ++ ((o, r) :: h2) ++ [z]) in Eq.
      rewrite app_assoc in Eq.
      apply app_inj_tail in Eq as [-> _].
      apply (Hno _ Hts). apply elem_of_app. right.
      apply elem_of_cons. left. reflexivity. }
    destruct Hwh as [ts Hts | ts o1 e1 Hts Ho1 | ts d v Hts | ts d e1 Hts];
      try (eapply Hlast; eassumption).
    exfalso. apply (Hno _ Hts). rewrite Ews. apply elem_of_app. right.
    apply elem_of_cons. left. reflexivity. }
  destruct H as [ | e0 | v | v v' | v e0 Hs | v e0 Hs Hl
                 | v e0 v' Hs Hl | v e0 e' Hs Hl
                 | v e0 ws st Hs Hl Hwh];
    try (destruct h1 as [|? [|? [|? [|? h1]]]]; simplify_eq/=;
         reflexivity).
  destruct h1 as [|? [|? h1]]; simplify_eq/=.
  eapply Hwork; [exact Hwh | reflexivity].
Qed.

Lemma task_history_done s l f h :
  task_history s l f h (Some (inl Done)) ->
  exists data v, (WriteFile (l, f) data, Fulfilled v) ∈ h.
Proof.
  intros H. remember (Some (inl Done)) as st eqn:Est.
  destruct H as [ | e0 | v | v v' | v e0 Hs | v e0 Hs Hl
                 | v e0 v' Hs Hl | v e0 e' Hs Hl
                 | v e0 ws st Hs Hl Hwh]; try discriminate.
  destruct Hwh as [ts Hts | ts o1 e1 Hts Ho1 | ts d v1 Hts | ts d e1 Hts];
    try discriminate.
  exists d, v1. apply elem_of_cons. right. apply elem_of_cons. right.
  apply elem_of_app. right. apply elem_of_cons. left. reflexivity.
Qed.

Lemma task_history_copied s l f h :
  task_history s l f h (Some (inl Copied)) ->
  exists v, (CopyFile f (l, f), Fulfilled v) ∈ h.
Proof.
  intros H. remember (Some (inl Copied)) as st eqn:Est.
  destruct H as [ | e0 | v | v v' | v e0 Hs | v e0 Hs Hl
                 | v e0 v' Hs Hl | v e0 e' Hs Hl
                 | v e0 ws st Hs Hl Hwh]; try discriminate.
  - exists v'. apply elem_of_cons. right. apply elem_of_cons. right.
    apply elem_of_cons. left. reflexivity.
  - destruct Hwh; discriminate.
Qed.

Section MainWrites.

Variable toLowerCase : jsstring -> jsstring.
Variable formats : list (jsstring * jsstring).
Variable pfiles : list (jsstring * file_type).
Hypothesis files_nodup : NoDup pfiles.*1.
Hypothesis formats_nodup : NoDup formats.*1.
Variable w : world.
Variable cs : nat -> choice.

Let st (n : nat) := main_run toLowerCase formats pfiles w cs n.

(** The history of the task of an operation of the run. *)
Lemma main_op_history n t o r :
  EOp t o r ∈ trace (st n) ->
  exists file ft text l i st',
    (file, ft) ∈ pfiles /\ sources w !! file = Some text /\
    (l, i) ∈ formats /\ t = (file, l) /\
    task_history (bool_decide (toLowerCase i = DONT_TRANSLATE))
      l file (history t (trace (st n))) st'.
Proof.
  intros Hin.
  pose proof (main_op_started _ _ _ files_nodup formats_nodup w cs n
                _ _ _ Hin) as Hstart.
  destruct (main_task_history _ _ _ files_nodup formats_nodup w cs n t
              Hstart)
    as (file & ft & text & l & i & H1 & H2 & H3 & H4 & Hh).
  exists file, ft, text, l, i.
  destruct Hh as [[_ Hh] | (v & _ & _ & Hh)]; eauto 10.
Qed.

(** The target of a write of the run names the task that wrote. *)
Lemma main_write_task n t o r p :
  EOp t o r ∈ trace (st n) -> is_write o = true -> target o = Some p ->
  t = (p.2, p.1).
Proof.
  intros Hin Hw Ht.
  destruct (main_op_history n _ _ _ Hin)
    as (file & ft & text & l & i & st' & _ & _ & _ & -> & Hh).
  apply elem_of_history in Hin.
  destruct (task_history_write _ _ _ _ _ _ _ Hh Hin Hw) as (Ht' & _).
  rewrite Ht in Ht'. injection Ht' as ->. reflexivity.
Qed.

Lemma main_writes_hold n :
  forall t o v p,
    EOp t o (Fulfilled v) ∈ trace (st n) ->
    is_write o = true -> target o = Some p ->
    files (env (st n)) !! p = payload w o /\ is_Some (payload w o).
Proof.
  induction n as [|n IH]; intros t o v p Hin Hw Ht.
  { inversion Hin. }
  assert (Hstep : st (S n)
                  = step CONCURRENCY_LIMIT
                      (translationTasks toLowerCase formats) (cs n) (st n))
    by reflexivity.
  destruct (step_effect CONCURRENCY_LIMIT
              (translationTasks toLowerCase formats) (cs n) (st n))
    as [(He & evs & Htr & Hno)
       | (t0 & o0 & r0 & evs & Hp & Htr & Hno)];
    rewrite <- Hstep in *.
  - rewrite He. apply (IH t o v p); [|exact Hw | exact Ht].
    rewrite Htr in Hin. apply elem_of_app in Hin as [Hin | Hin];
      [exact Hin | destruct (Hno _ _ _ Hin)].
  - pose proof Hin as Hin'.
    rewrite Htr in Hin. apply elem_of_app in Hin as [Hin | Hin].
    + destruct (IH t o v p Hin Hw Ht) as [Hf Hs]. split; [|exact Hs].
      rewrite <- Hf.
      destruct (perform_changes _ _ _ _ _ Hp) as [Hpf _].
      destruct (Hpf p) as [Hsame | [Hw0 Ht0]]; [exact Hsame|].
      exfalso.
      assert (Hin0 : EOp t0 o0 r0 ∈ trace (st (S n))).
      { rewrite Htr. apply elem_of_app. right. apply elem_of_cons. auto. }
      pose proof (main_write_task _ _ _ _ _ Hin' Hw Ht) as Et.
      pose proof (main_write_task _ _ _ _ _ Hin0 Hw0 Ht0) as Et0.
      rewrite <- Et in Et0. subst t0.
      destruct (main_op_history _ _ _ _ Hin')
        as (file & ft & text & l & i & st' & _ & _ & _ & _ & Hh).
      rewrite Htr in Hh.
      change (EOp t o0 r0 :: evs) with ([EOp t o0 r0] ++ evs) in Hh.
      rewrite !history_app, history_op_same, (no_ops_history _ _ Hno),
        app_nil_r in Hh.
      assert (Hel : (o, Fulfilled v) ∈ history t (trace (st n)))
        by (apply elem_of_history; exact Hin).
      apply list_elem_of_split in Hel as (h1 & h2 & Eh).
      unfold task_id in Eh, Hh.
      rewrite Eh, <- app_assoc in Hh. simpl in Hh.
      pose proof (task_history_write_last _ _ _ _ _ _ _ _ _ Hh eq_refl Hw)
        as Hnil.
      destruct h2; discriminate.
    + apply elem_of_cons in Hin as [Hin | Hin];
        [|destruct (Hno _ _ _ Hin)].
      injection Hin as <- <- <-.
      destruct (perform_write _ _ _ _ _ _ Hp Hw Ht) as [Hf Hs].
      assert (Hpay : payload (env (st n)) o = payload w o).
      { pose proof (rec_sources _ _
                      (main_recorded toLowerCase formats pfiles w cs n))
          as Hsrc.
        destruct o; try reflexivity. simpl. unfold st. rewrite Hsrc.
        reflexivity. }
      rewrite <- Hpay. split; assumption.
Qed.

End MainWrites.

(** X17.  What a target file holds, for language codes, file names and
    a world described with plain names, so that a pair of names stands
    for one output file and one only.  At every moment of a run, the target of a fulfilled
    write holds the data of that write, and the target of a fulfilled
    copy holds the content of the source file: nothing touches it
    afterwards.  So the target of a task reported as done holds what the
    task wrote, and the target of a task reported as copied holds the
    content of the source file. *)
Theorem main_files_hold
    (toLowerCase : jsstring -> jsstring)
    (formats : list (jsstring * jsstring))
    (pfiles : list (jsstring * file_type))
    (w : world) (cs : nat -> choice) (n : nat) :
  NoDup pfiles.*1 -> NoDup formats.*1 ->
  Forall (fun file => plain_name file = true) pfiles.*1 ->
  Forall (fun langCode => plain_name langCode = true) formats.*1 ->
  plain_world w ->
  let st := main_run toLowerCase formats pfiles w cs n in
  (forall t o v p,
     EOp t o (Fulfilled v) ∈ trace st ->
     is_write o = true -> target o = Some p ->
     files (env st) !! p = payload w o /\ is_Some (payload w o)) /\
  (forall file l,
     ((file, l), inl Done) ∈ settles (trace st) ->
     exists data v,
       EOp (file, l) (WriteFile (l, file) data) (Fulfilled v) ∈ trace st /\
       files (env st) !! (l, file) = Some data) /\
  (forall file l,
     ((file, l), inl Copied) ∈ settles (trace st) ->
     is_Some (sources w !! file) /\
     files (env st) !! (l, file) = sources w !! file).
Proof.
  intros Hfiles Hformats _ _ _ st.
  pose proof (main_writes_hold toLowerCase formats pfiles Hfiles Hformats
                w cs n) as Hold.
  fold st in Hold.
  assert (Hrep : forall file l v,
            ((file, l), v) ∈ settles (trace st) ->
            exists s, task_history s l file
                        (history (file, l) (trace st)) (Some v)).
  { intros file l v Hin.
    destruct (main_report _ _ _ Hfiles Hformats w cs n _ _ Hin)
      as (file' & ft & text & l' & i & _ & _ & _ & E & Hh).
    injection E as <- <-. eauto. }
  split; [exact Hold|]. split.
  - intros file l Hin. destruct (Hrep _ _ _ Hin) as (s & Hh).
    destruct (task_history_done _ _ _ _ Hh) as (data & v & Hw).
    apply elem_of_history in Hw. exists data, v. split; [exact Hw|].
    destruct (Hold _ _ _ (l, file) Hw eq_refl eq_refl) as [Hf _].
    exact Hf.
  - intros file l Hin. destruct (Hrep _ _ _ Hin) as (s & Hh).
    destruct (task_history_copied _ _ _ _ Hh) as (v & Hw).
    apply elem_of_history in Hw.
    destruct (Hold _ _ _ (l, file) Hw eq_refl eq_refl) as [Hf Hs].
    split; [exact Hs | exact Hf].
Qed.

Lemma main_files_hold_witness :
  let formats := [(js "de", js "formal"); (js "en", js "copy")] in
  let pfiles := [(js "a.md", markdown); (js "b.html", html)] in
  let w := World {[ js "a.md" := js "hello"; js "b.html" := js "<p>hi</p>" ]}
             ∅ ∅ in
  let cs := fun n : nat => Choice n (Fulfilled (js "salut")) None in
  NoDup pfiles.*1 /\ NoDup formats.*1 /\
  Forall (fun file => plain_name file = true) pfiles.*1 /\
  Forall (fun langCode => plain_name langCode = true) formats.*1 /\
  plain_world w /\
  forall file l,
    ((file, l), inl Copied)
    ∈ settles (trace (main_run ascii_toLowerCase formats pfiles w cs 40)) ->
    is_Some (sources w !! file) /\
    files (env (main_run ascii_toLowerCase formats pfiles w cs 40))
      !! (l, file) = sources w !! file.
Proof.
  intros formats pfiles w cs.
  assert (H1 : NoDup pfiles.*1)
    by (apply (bool_decide_unpack _); vm_compute; exact I).
  assert (H2 : NoDup formats.*1)
    by (apply (bool_decide_unpack _); vm_compute; exact I).
  assert (H3 : Forall (fun file => plain_name file = true) pfiles.*1)
    by (repeat constructor).
  assert (H4 : Forall (fun langCode => plain_name langCode = true)
                 formats.*1)
    by (repeat constructor).
  assert (H5 : plain_world w)
    by (split; [|split]; apply (bool_decide_unpack _); vm_compute; exact I).
  split; [exact H1|]. split; [exact H2|].
  split; [exact H3|]. split; [exact H4|]. split; [exact H5|].
  exact (proj2 (proj2 (main_files_hold ascii_toLowerCase formats pfiles w
                         cs 40 H1 H2 H3 H4 H5))).
Defined.

(** * Where the chunks are cut *)

Lemma split_choice_cut text maxSize startIndex sp :
  0 <= startIndex ->
  split_choice text startIndex (startIndex + maxSize) sp ->
  (exists b, substring text startIndex sp = b ++ PARAGRAPH_BREAK) \/
  (exists b, substring text startIndex sp = b ++ SENTENCE_BREAK) \/
  (exists b, substring text startIndex sp = b ++ LINE_BREAK) \/
  sp = startIndex + maxSize.
Proof.
  intros H0 H.
  destruct H as [p Hp (Hr & Ho & _) | p _ Hp (Hr & Ho & _)
                | p _ _ Hp (Hr & Ho & _) | _ _ _].
  - left. exists (substring text startIndex p).
    apply (substring_ends_with PARAGRAPH_BREAK); [lia | exact Ho].
  - right. left. exists (substring text startIndex p).
    apply (substring_ends_with SENTENCE_BREAK); [lia | exact Ho].
  - right. right. left. exists (substring text startIndex p).
    apply (substring_ends_with LINE_BREAK); [lia | exact Ho].
  - right. right. right. reflexivity.
Qed.

Lemma split_loop_cuts text maxSize :
  0 < maxSize ->
  forall fuel startIndex chunks,
    0 <= startIndex ->
    len text - startIndex <= Z.of_nat fuel ->
    exists cs,
      split_loop fuel text maxSize startIndex chunks = Some (chunks ++ cs) /\
      forall (i : nat) c,
        cs !! i = Some c -> (S i < length cs)%nat ->
        (exists b, c = b ++ PARAGRAPH_BREAK) \/
        (exists b, c = b ++ SENTENCE_BREAK) \/
        (exists b, c = b ++ LINE_BREAK) \/
        len c = maxSize.
Proof.
  intros HM. induction fuel as [|fuel IH]; intros start chunks H0 Hf;
    rewrite split_loop_unfold.
  - destruct (start <? len text) eqn:E1.
    + apply Z.ltb_lt in E1. lia.
    + exists []. rewrite app_nil_r. split; [reflexivity|].
      intros i c Hi. rewrite lookup_nil in Hi. discriminate.
  - destruct (start <? len text) eqn:E1.
    2:{ exists []. rewrite app_nil_r. split; [reflexivity|].
        intros i c Hi. rewrite lookup_nil in Hi. discriminate. }
    destruct (len text <=? start + maxSize) eqn:E2.
    + eexists [_]. split; [reflexivity|].
      intros i c _ Hi. simpl in Hi. lia.
    + apply Z.leb_gt in E2.
      set (sp := split_position text start (start + maxSize)).
      destruct (split_position_bounds text maxSize start H0 HM E2)
        as [[Hlo Hhi] _].
      fold sp in Hlo, Hhi.
      destruct (IH sp (chunks ++ [substring text start sp]))
        as (cs & Hcs & Hall); [lia | lia |].
      exists (substring text start sp :: cs).
      rewrite Hcs, <- app_assoc. split; [reflexivity|].
      intros [|i] c Hi Hlen; simpl in Hi, Hlen.
      * injection Hi as <-.
        destruct (split_choice_cut text maxSize start sp H0
                    (split_position_choice text start (start + maxSize)
                       ltac:(lia)))
          as [H | [H | [H | H]]]; auto.
        right. right. right.
        rewrite substring_length by lia. lia.
      * apply (Hall i c Hi). lia.
Qed.

(** X5.  Every chunk but the last is cut at a natural boundary or at the
    size asked for: it ends with a paragraph break, with a full stop
    and a space, or with a line feed, or it has exactly [maxSize] code
    units. *)
Theorem split_cuts_at_boundaries (text : jsstring) (maxSize : Z) :
  0 < maxSize ->
  exists chunks,
    splitTextIntoChunks text maxSize = Some chunks /\
    forall (i : nat) c,
      chunks !! i = Some c -> (S i < length chunks)%nat ->
      (exists b, c = b ++ PARAGRAPH_BREAK) \/
      (exists b, c = b ++ SENTENCE_BREAK) \/
      (exists b, c = b ++ LINE_BREAK) \/
      len c = maxSize.
Proof.
  intros HM.
  destruct (split_loop_cuts text maxSize HM (length text) 0 [])
    as (cs & Hcs & Hall); [lia | unfold len; lia |].
  exists cs. split; [exact Hcs | exact Hall].
Qed.

Lemma split_cuts_at_boundaries_witness :
  0 < 4 /\
  exists chunks,
    splitTextIntoChunks (js "one. two. three four") 4 = Some chunks /\
    forall (i : nat) c,
      chunks !! i = Some c -> (S i < length chunks)%nat ->
      (exists b, c = b ++ PARAGRAPH_BREAK) \/
      (exists b, c = b ++ SENTENCE_BREAK) \/
      (exists b, c = b ++ LINE_BREAK) \/
      len c = 4.
Proof. split; [lia | apply split_cuts_at_boundaries; lia]. Defined.

